(** * Siga-IA: the crossword construction engine and its interactive solver

    A shallow embedding of the crossword code of the repository:
    - [handleGeneratePuzzle] of [src/App.tsx] (word normalization,
      [canPlaceWord], [placeWordOnGrid], the greedy placement loop and the
      clue numbering),
    - the [CrosswordViewer] component (its handlers [handleCellClick],
      [handleInputChange], [handleCheck], [handleReveal], [handleReset], and
      what it renders of a cell), and
    - the handlers of [src/App.tsx] around them: the form of the crossword
      ([handleWordCountChange], [handleAiGenerateCrossword]) and the list of
      saved crosswords ([handleDeleteCrossword], the clue editor).

    JavaScript numbers that the code uses as indices are integers ([Z]);
    strings are sequences of UTF-16 code units; an exception thrown by the
    code is an explicit outcome. *)

From Stdlib Require Import Ascii.
From stdpp Require Import gmap strings pretty list fin_maps sorting.

(** ** JavaScript strings *)

(** A string is its sequence of UTF-16 code units: [str.length] is [length],
    [str[i]] is the one-unit string at index [i]. *)
Abbreviation jsstring := (list N).

(** The code units of an ASCII literal. *)
Fixpoint js (s : string) : jsstring :=
  match s with
  | EmptyString => []
  | String a s' => N_of_ascii a :: js s'
  end.

Definition SPACE : N := 0x20.
Definition HYPHEN : N := 0x2d.

(** [String.prototype.trim]: the WhiteSpace and LineTerminator code points of
    ECMAScript, all of them in the basic plane. *)
Definition isWhiteSpace (u : N) : bool :=
  ((0x09 <=? u) && (u <=? 0x0d) || (u =? 0x20) || (u =? 0xa0) || (u =? 0x1680)
   || (0x2000 <=? u) && (u <=? 0x200a) || (u =? 0x2028) || (u =? 0x2029)
   || (u =? 0x202f) || (u =? 0x205f) || (u =? 0x3000) || (u =? 0xfeff))%N.

Fixpoint trimStart (s : jsstring) : jsstring :=
  match s with
  | [] => []
  | u :: s' => if isWhiteSpace u then trimStart s' else s
  end.

Definition trim (s : jsstring) : jsstring := rev (trimStart (rev (trimStart s))).

(** The two Unicode tables of the JavaScript runtime that [normalizeString]
    calls: [str.normalize("NFD")] and [str.toUpperCase()].  They are not part
    of the repository; the development is parametric in them. *)
Class Unicode := {
  nfd : jsstring → jsstring;
  toUpperCase : jsstring → jsstring
}.

(** The character class of the regular expression: U+0300 to U+036F. *)
Definition isCombiningMark (u : N) : bool := ((0x300 <=? u) && (u <=? 0x36f))%N.

(** [normalizeString], declared three times in the sources with the same body:
    [str ? str.normalize("NFD").replace(marks, "").toUpperCase() : ''], where
    [marks] is the global regular expression matching one combining mark. *)
Definition normalizeString `{Unicode} (str : jsstring) : jsstring :=
  match str with
  | [] => []
  | _ => toUpperCase (filter (λ u, isCombiningMark u = false) (nfd str))
  end.

(** *** The tables on Basic Latin and Latin-1 Supplement

    An executable instance for concrete runs: canonical decomposition and
    upper-casing as Unicode defines them on code units below [0x100]; other
    code units are left as they are. *)
Module Latin1.

(** Canonical decompositions of U+00C0..U+00DE: base letter and mark. *)
Definition decomposeUpper (u : N) : option (N * N) :=
  match u with
  | 0xc0 => Some (0x41, 0x300) | 0xc1 => Some (0x41, 0x301)
  | 0xc2 => Some (0x41, 0x302) | 0xc3 => Some (0x41, 0x303)
  | 0xc4 => Some (0x41, 0x308) | 0xc5 => Some (0x41, 0x30a)
  | 0xc7 => Some (0x43, 0x327)
  | 0xc8 => Some (0x45, 0x300) | 0xc9 => Some (0x45, 0x301)
  | 0xca => Some (0x45, 0x302) | 0xcb => Some (0x45, 0x308)
  | 0xcc => Some (0x49, 0x300) | 0xcd => Some (0x49, 0x301)
  | 0xce => Some (0x49, 0x302) | 0xcf => Some (0x49, 0x308)
  | 0xd1 => Some (0x4e, 0x303)
  | 0xd2 => Some (0x4f, 0x300) | 0xd3 => Some (0x4f, 0x301)
  | 0xd4 => Some (0x4f, 0x302) | 0xd5 => Some (0x4f, 0x303)
  | 0xd6 => Some (0x4f, 0x308)
  | 0xd9 => Some (0x55, 0x300) | 0xda => Some (0x55, 0x301)
  | 0xdb => Some (0x55, 0x302) | 0xdc => Some (0x55, 0x308)
  | 0xdd => Some (0x59, 0x301)
  | _ => None
  end%N.

Definition decomposeUnit (u : N) : jsstring :=
  if (u =? 0xff)%N then [0x79; 0x308]%N
  else if ((0xe0 <=? u) && (u <=? 0xfe))%N then
    match decomposeUpper (u - 0x20) with
    | Some (b, m) => [b + 0x20; m]%N
    | None => [u]
    end
  else
    match decomposeUpper u with
    | Some (b, m) => [b; m]
    | None => [u]
    end.

Definition upperUnit (u : N) : jsstring :=
  if ((0x61 <=? u) && (u <=? 0x7a))%N then [u - 0x20]%N
  else if (u =? 0xb5)%N then [0x39c]%N
  else if (u =? 0xdf)%N then [0x53; 0x53]%N
  else if (u =? 0xf7)%N then [u]
  else if (u =? 0xff)%N then [0x178]%N
  else if ((0xe0 <=? u) && (u <=? 0xfe))%N then [u - 0x20]%N
  else [u].

Definition tables : Unicode :=
  {| nfd := λ s, s ≫= decomposeUnit; toUpperCase := λ s, s ≫= upperUnit |}.

End Latin1.

(** ** Word normalization ([handleGeneratePuzzle], first statements) *)

Record WordEntry := mkEntry { word : jsstring; clue : jsstring }.

Global Instance WordEntry_eq_dec : EqDecision WordEntry.
Proof. solve_decision. Defined.

(** A JavaScript [Map] with string keys: insertion-ordered, [set] on a key
    that is present replaces the value and keeps the key's position. *)
Fixpoint mapSet {V} (k : jsstring) (v : V) (m : list (jsstring * V)) : list (jsstring * V) :=
  match m with
  | [] => [(k, v)]
  | (k', v') :: m' => if decide (k = k') then (k, v) :: m' else (k', v') :: mapSet k v m'
  end.

(** [new Map(pairs)] *)
Definition newMap {V} (pairs : list (jsstring * V)) : list (jsstring * V) :=
  fold_left (λ m kv, mapSet kv.1 kv.2 m) pairs [].

(** [[...m.values()]] *)
Definition mapValues {V} (m : list (jsstring * V)) : list V := snd <$> m.

(** [words.sort((a, b) => b.word.length - a.word.length)]: [Array.prototype.sort]
    is stable, so the result is the stable sort by decreasing length. *)
Fixpoint insertByLength (x : WordEntry) (l : list WordEntry) : list WordEntry :=
  match l with
  | [] => [x]
  | y :: l' =>
      if (length (word x) <? length (word y))%nat then y :: insertByLength x l'
      else x :: l
  end.

Definition sortByLength (l : list WordEntry) : list WordEntry :=
  foldr insertByLength [] l.

Section Normalizer.
Context `{Unicode}.

(** [entry => ({ word: normalizeString(entry.word), clue: entry.clue.trim() })] *)
Definition normalizeEntry (entry : WordEntry) : WordEntry :=
  {| word := normalizeString (word entry); clue := trim (clue entry) |}.

(** [item => item.word.length > 1 && item.clue.length > 0] *)
Definition keepItem (item : WordEntry) : bool :=
  (1 <? length (word item))%nat && (0 <? length (clue item))%nat.

(** [[...new Map(words.map(item => [item.word, item])).values()]] *)
Definition dedupe (words : list WordEntry) : list WordEntry :=
  mapValues (newMap ((λ item, (word item, item)) <$> words)).

(** Lines 997-1000: the list [words] before the length test. *)
Definition normalizeWords (wordEntries : list WordEntry) : list WordEntry :=
  sortByLength (dedupe (filter (λ item, keepItem item = true) (normalizeEntry <$> wordEntries))).
End Normalizer.

(** The normalizer as the specification words it (section 4.1): the word is
    trimmed too, and words longer than 15 or with a space or a hyphen are
    dropped. *)
Module Spec.
Section Normalizer.
Context `{Unicode}.

Definition normalizeEntry (entry : WordEntry) : WordEntry :=
  {| word := normalizeString (trim (word entry)); clue := trim (clue entry) |}.

Definition dropItem (item : WordEntry) : bool :=
  (length (word item) =? 0)%nat || (length (word item) =? 1)%nat
  || (15 <? length (word item))%nat
  || bool_decide (SPACE ∈ word item) || bool_decide (HYPHEN ∈ word item)
  || (length (clue item) =? 0)%nat.

Definition normalizeWords (wordEntries : list WordEntry) : list WordEntry :=
  sortByLength (dedupe (filter (λ item, dropItem item = false) (normalizeEntry <$> wordEntries))).
End Normalizer.
End Spec.

(** ** The grid and the state of one construction *)

Local Open Scope Z_scope.

Definition GRID_SIZE : Z := 30.

(** ['across' | 'down'] *)
Inductive Direction := across | down.

Global Instance Direction_eq_dec : EqDecision Direction.
Proof. solve_decision. Defined.

(** A grid cell [{ letter, clueNumber?, across?, down? }]; an absent optional
    field is [None]. *)
Record Cell := mkCell {
  letter : jsstring;
  clueNumber : option Z;
  cellAcross : option Z;
  cellDown : option Z
}.

(** [{ number, clue }] *)
Record Clue := mkClue { number : Z; clueText : jsstring }.

(** [{ ...wordObj, row, col, direction }] *)
Record PlacedWord := mkPlaced {
  placedEntry : WordEntry;
  row : Z;
  col : Z;
  direction : Direction
}.

(** [{ row, col, direction }] *)
Record BestFit := mkFit { fitRow : Z; fitCol : Z; fitDirection : Direction }.

(** The template literal [`${row}-${col}`]: the decimal rendering of the two
    integers around a hyphen. *)
Definition cellKey (r c : Z) : string := pretty r +:+ "-" +:+ pretty c.

Definition len (s : jsstring) : Z := Z.of_nat (length s).

(** [newGrid] is an array of [GRID_SIZE] row arrays.  A row array is used as
    a JavaScript object: [newGrid[r][c]] reads and [newGrid[r][c] = v] writes
    the property [c] for any integer [c], inside the array's length or not, so
    the cells are a finite map on (row, column).  The rows are fixed: for [r]
    outside [0 .. GRID_SIZE-1], [newGrid[r]] is [undefined] and indexing it
    throws a [TypeError] ([rowExists] below). *)
Record Env := mkEnv {
  newGrid : gmap (Z * Z) Cell;
  cluesAcross : list Clue;
  cluesDown : list Clue;
  clueCounter : Z;
  placedWords : list PlacedWord;
  numberLocations : gmap string Z
}.

(** The state at the declaration of the closures (lines 1005-1010). *)
Definition initialEnv : Env :=
  {| newGrid := ∅; cluesAcross := []; cluesDown := []; clueCounter := 1;
     placedWords := []; numberLocations := ∅ |}.

(** The texts that end up in [generationError]. *)
Inductive Message :=
  | NeedTwoWords                       (* "São necessárias pelo menos 2 palavras válidas." *)
  | EmptyWordList                      (* "A lista de palavras está vazia." *)
  | CouldNotFit (ws : list jsstring)   (* `Não foi possível encaixar: ${...join(', ')}` *)
  | RuntimeMessage.                    (* the message of an exception of the runtime *)

Inductive Exception :=
  | TypeError                          (* a property read on [undefined] *)
  | Error (m : Message).               (* [throw new Error(m)] *)

(** What running a piece of code gives: a value, an exception, or, for the
    [while] loop only, the end of the fuel given to the model. *)
Inductive Outcome (A : Type) :=
  | Returned (a : A)
  | Thrown (e : Exception)
  | OutOfFuel.
Arguments Returned {A} a.
Arguments Thrown {A} e.
Arguments OutOfFuel {A}.

(** Code that runs on the closure state [Env]. *)
Definition M (A : Type) : Type := Env → Outcome (A * Env).

Definition ret {A} (a : A) : M A := λ env, Returned (a, env).

Definition bind {A B} (m : M A) (f : A → M B) : M B := λ env,
  match m env with
  | Returned (a, env') => f a env'
  | Thrown e => Thrown e
  | OutOfFuel => OutOfFuel
  end.

Definition throw {A} (e : Exception) : M A := λ _, Thrown e.

Notation "'let!' x ':=' m 'in' k" := (bind m (λ x, k))
  (at level 10, x pattern, m at level 100, k at level 200).
Notation "'run!' m 'in' k" := (bind m (λ _, k))
  (at level 10, m at level 100, k at level 200).

Definition rowExists (r : Z) : bool := bool_decide (0 ≤ r < GRID_SIZE).

(** [newGrid[r][c]] *)
Definition readCell (r c : Z) : M (option Cell) := λ env,
  if rowExists r then Returned (newGrid env !! (r, c), env) else Thrown TypeError.

(** [newGrid[r]?.[c]] *)
Definition peekCell (r c : Z) : M (option Cell) := λ env,
  Returned (if rowExists r then newGrid env !! (r, c) else None, env).

(** [guard && newGrid[r][c]], as a condition. *)
Definition occupiedWhen (guard : bool) (r c : Z) : M bool :=
  if guard then (let! cell := readCell r c in ret (bool_decide (is_Some cell)))
  else ret false.

(** ** [canPlaceWord] *)

(** The [for] loop of the across branch, from index [i], on the letters left. *)
Fixpoint scanAcross (rest : jsstring) (row col i : Z) : M bool :=
  match rest with
  | [] => ret true
  | ch :: rest' =>
      let! cell := readCell row (col + i) in
      match cell with
      | Some c =>
          if bool_decide (letter c ≠ [ch]) then ret false
          else scanAcross rest' row col (i + 1)
      | None =>
          let! above := occupiedWhen (bool_decide (row > 0)) (row - 1) (col + i) in
          if above then ret false else
          let! below := occupiedWhen (bool_decide (row < GRID_SIZE - 1)) (row + 1) (col + i) in
          if below then ret false else
          scanAcross rest' row col (i + 1)
      end
  end.

(** The [for] loop of the down branch. *)
Fixpoint scanDown (rest : jsstring) (row col i : Z) : M bool :=
  match rest with
  | [] => ret true
  | ch :: rest' =>
      let! cell := readCell (row + i) col in
      match cell with
      | Some c =>
          if bool_decide (letter c ≠ [ch]) then ret false
          else scanDown rest' row col (i + 1)
      | None =>
          let! leftCell := occupiedWhen (bool_decide (col > 0)) (row + i) (col - 1) in
          if leftCell then ret false else
          let! rightCell := occupiedWhen (bool_decide (col < GRID_SIZE - 1)) (row + i) (col + 1) in
          if rightCell then ret false else
          scanDown rest' row col (i + 1)
      end
  end.

Definition canPlaceWord (word : jsstring) (row col : Z) (direction : Direction) : M bool :=
  if bool_decide (row < 0 ∨ col < 0) then ret false else
  match direction with
  | across =>
      if bool_decide (col + len word > GRID_SIZE) then ret false else
      let! before := occupiedWhen (bool_decide (col > 0)) row (col - 1) in
      if before then ret false else
      let! after := occupiedWhen (bool_decide (col + len word < GRID_SIZE)) row (col + len word) in
      if after then ret false else
      scanAcross word row col 0
  | down =>
      if bool_decide (row + len word > GRID_SIZE) then ret false else
      let! before := occupiedWhen (bool_decide (row > 0)) (row - 1) col in
      if before then ret false else
      let! after := occupiedWhen (bool_decide (row + len word < GRID_SIZE)) (row + len word) col in
      if after then ret false else
      scanDown word row col 0
  end.

(** ** [placeWordOnGrid] *)

(** Lines 1045-1051: the number of the start cell, reused or fresh. *)
Definition takeClueNumber (posKey : string) : M Z := λ env,
  match numberLocations env !! posKey with
  | Some clueNum => Returned (clueNum, env)
  | None =>
      let clueNum := clueCounter env in
      Returned (clueNum,
        {| newGrid := newGrid env; cluesAcross := cluesAcross env;
           cluesDown := cluesDown env; clueCounter := clueNum + 1;
           placedWords := placedWords env;
           numberLocations := <[posKey := clueNum]> (numberLocations env) |})
  end.

(** [(direction === 'across' ? newClues.across : newClues.down).push(c)] *)
Definition pushClue (direction : Direction) (c : Clue) : M unit := λ env,
  Returned (tt,
    match direction with
    | across =>
        {| newGrid := newGrid env; cluesAcross := cluesAcross env ++ [c];
           cluesDown := cluesDown env; clueCounter := clueCounter env;
           placedWords := placedWords env; numberLocations := numberLocations env |}
    | down =>
        {| newGrid := newGrid env; cluesAcross := cluesAcross env;
           cluesDown := cluesDown env ++ [c]; clueCounter := clueCounter env;
           placedWords := placedWords env; numberLocations := numberLocations env |}
    end).

(** [cell[direction] = clueNum] *)
Definition setDirection (direction : Direction) (clueNum : Z) (cell : Cell) : Cell :=
  match direction with
  | across => {| letter := letter cell; clueNumber := clueNumber cell;
                 cellAcross := Some clueNum; cellDown := cellDown cell |}
  | down => {| letter := letter cell; clueNumber := clueNumber cell;
               cellAcross := cellAcross cell; cellDown := Some clueNum |}
  end.

(** [cell.clueNumber = clueNum] *)
Definition setClueNumber (clueNum : Z) (cell : Cell) : Cell :=
  {| letter := letter cell; clueNumber := Some clueNum;
     cellAcross := cellAcross cell; cellDown := cellDown cell |}.

(** The cell of letter [i] of a word at [(row, col)]. *)
Definition cellPos (direction : Direction) (row col i : Z) : Z * Z :=
  (match direction with across => row | down => row + i end,
   match direction with across => col + i | down => col end).

(** The body of the loop of [placeWordOnGrid] at index [i]. *)
Definition writeLetter (ch : N) (row col : Z) (direction : Direction) (clueNum i : Z) : M unit :=
  λ env,
  let '(r, c) := cellPos direction row col i in
  if rowExists r then
    let cell0 := default {| letter := [ch]; clueNumber := None;
                            cellAcross := None; cellDown := None |} (newGrid env !! (r, c)) in
    let cell1 := setDirection direction clueNum cell0 in
    let cell2 := if bool_decide (i = 0) then setClueNumber clueNum cell1 else cell1 in
    Returned (tt,
      {| newGrid := <[(r, c) := cell2]> (newGrid env); cluesAcross := cluesAcross env;
         cluesDown := cluesDown env; clueCounter := clueCounter env;
         placedWords := placedWords env; numberLocations := numberLocations env |})
  else Thrown TypeError.

Fixpoint writeLetters (rest : jsstring) (row col : Z) (direction : Direction) (clueNum i : Z) : M unit :=
  match rest with
  | [] => ret tt
  | ch :: rest' =>
      run! writeLetter ch row col direction clueNum i in
      writeLetters rest' row col direction clueNum (i + 1)
  end.

Definition placeWordOnGrid (wordObj : WordEntry) (row col : Z) (direction : Direction) : M unit :=
  let! clueNum := takeClueNumber (cellKey row col) in
  run! pushClue direction {| number := clueNum; clueText := clue wordObj |} in
  writeLetters (word wordObj) row col direction clueNum 0.

(** [placedWords.push(p)] *)
Definition pushPlaced (p : PlacedWord) : M unit := λ env,
  Returned (tt,
    {| newGrid := newGrid env; cluesAcross := cluesAcross env; cluesDown := cluesDown env;
       clueCounter := clueCounter env; placedWords := placedWords env ++ [p];
       numberLocations := numberLocations env |}).

Definition getPlaced : M (list PlacedWord) := λ env, Returned (placedWords env, env).

(** ** The greedy placement loop *)

(** The pairs (index, element) of an array, from index [i]. *)
Fixpoint enumerateFrom {A} (i : Z) (l : list A) : list (Z * A) :=
  match l with
  | [] => []
  | x :: l' => (i, x) :: enumerateFrom (i + 1) l'
  end.

(** A [for] loop without [break] over the elements of [l], threading the
    variables [s] that its body assigns. *)
Fixpoint forEach {A S} (l : list A) (body : A → S → M S) (s : S) : M S :=
  match l with
  | [] => ret s
  | x :: l' => let! s' := body x s in forEach l' body s'
  end.

(** Lines 1084-1088.  Of the two tests in the body exactly the one of the
    candidate's direction can hold. *)
Definition countIntersections (word : jsstring) (row col : Z) (direction : Direction) : M Z :=
  forEach (enumerateFrom 0 word) (λ '(l, _) intersections,
    let! cell := match direction with
                 | across => peekCell row (col + l)
                 | down => peekCell (row + l) col
                 end in
    ret (if bool_decide (is_Some cell) then intersections + 1 else intersections)) 0.

(** The loop variables [bestFit] and [maxIntersections]. *)
Definition Best : Type := option BestFit * Z.

(** Lines 1080-1093: the candidate where letter [j] of the word meets letter
    [k] of [pWord]. *)
Definition tryCandidate (wordObj : WordEntry) (pWord : PlacedWord) (j k : Z) (best : Best) : M Best :=
  let direction := match direction pWord with across => down | down => across end in
  let row := match direction with down => row pWord - j | across => row pWord + k end in
  let col := match direction with down => col pWord + k | across => col pWord - j end in
  let! ok := canPlaceWord (word wordObj) row col direction in
  if ok then
    let! intersections := countIntersections (word wordObj) row col direction in
    if bool_decide (intersections > best.2)
    then ret (Some {| fitRow := row; fitCol := col; fitDirection := direction |}, intersections)
    else ret best
  else ret best.

(** Lines 1074-1097. *)
Definition findBestFit (wordObj : WordEntry) : M Best :=
  forEach (enumerateFrom 0 (word wordObj)) (λ '(j, wj) best,
    let! placed := getPlaced in
    forEach placed (λ pWord best,
      forEach (enumerateFrom 0 (word (placedEntry pWord))) (λ '(k, pk) best,
        if bool_decide (wj = pk) then tryCandidate wordObj pWord j k best
        else ret best) best) best) (None, 0).

(** The indices of [words] in the order of [for (let i = words.length - 1; i >= 0; i--)]. *)
Definition fromTheEnd (words : list WordEntry) : list (nat * WordEntry) :=
  reverse (imap (λ i w, (i, w)) words).

(** The inner [for] loop of one pass, on the indices left to visit; it gives
    [words] after the pass and [placedInPass]. *)
Fixpoint scanPending (candidates : list (nat * WordEntry)) (words : list WordEntry)
  : M (list WordEntry * bool) :=
  match candidates with
  | [] => ret (words, false)
  | (i, wordObj) :: candidates' =>
      let! best := findBestFit wordObj in
      match best.1 with
      | Some bestFit =>
          if bool_decide (best.2 > 0) then
            run! placeWordOnGrid wordObj (fitRow bestFit) (fitCol bestFit) (fitDirection bestFit) in
            run! pushPlaced {| placedEntry := wordObj; row := fitRow bestFit;
                               col := fitCol bestFit; direction := fitDirection bestFit |} in
            ret (delete i words, true)
          else scanPending candidates' words
      | None => scanPending candidates' words
      end
  end.

(** The [while] loop (lines 1069-1108).  [passes] counts the executions of its
    body; it is not a variable of the source. *)
Fixpoint placementLoop (fuel : nat) (words : list WordEntry) (attempts : Z) (passes : nat)
  : M (list WordEntry * nat) :=
  if bool_decide (Z.of_nat (length words) > 0 ∧ attempts < Z.of_nat (length words)) then
    match fuel with
    | O => λ _, OutOfFuel
    | S fuel' =>
        let! pass := scanPending (fromTheEnd words) words in
        placementLoop fuel' pass.1 (if pass.2 then 0 else attempts + 1) (S passes)
    end
  else ret (words, passes).

(** Lines 1062-1108: the first word, then the loop. *)
Definition runAlgorithm (fuel : nat) (words : list WordEntry) : M (list WordEntry * nat) :=
  match words with
  | [] => throw (Error EmptyWordList)
  | firstWord :: words' =>
      let startRow := GRID_SIZE / 2 in
      let startCol := (GRID_SIZE - len (word firstWord)) / 2 in
      run! placeWordOnGrid firstWord startRow startCol across in
      run! pushPlaced {| placedEntry := firstWord; row := startRow;
                         col := startCol; direction := across |} in
      placementLoop fuel words' 0 0
  end.

(** [clues.sort((a, b) => a.number - b.number)], a stable sort. *)
Fixpoint insertByNumber (x : Clue) (l : list Clue) : list Clue :=
  match l with
  | [] => [x]
  | y :: l' => if bool_decide (number y < number x) then y :: insertByNumber x l' else x :: l
  end.

Definition sortByNumber (l : list Clue) : list Clue := foldr insertByNumber [] l.

(** What the [try] block holds when it reaches line 1116: the grid, the clue
    lists, the placed words, the words left in [words] and, for the model, the
    number of passes of the loop. *)
Record Construction := mkConstruction {
  builtGrid : gmap (Z * Z) Cell;
  builtAcross : list Clue;
  builtDown : list Clue;
  builtPlaced : list PlacedWord;
  unplaced : list WordEntry;
  passCount : nat
}.

Section Construct.
Context `{Unicode}.

(** Lines 997-1115. *)
Definition construct (fuel : nat) (wordEntries : list WordEntry) : Outcome Construction :=
  let words := normalizeWords wordEntries in
  if bool_decide (Z.of_nat (length words) < 2) then Thrown (Error NeedTwoWords) else
  match runAlgorithm fuel words initialEnv with
  | Returned ((pending, passes), env) =>
      Returned {| builtGrid := newGrid env;
                  builtAcross := sortByNumber (cluesAcross env);
                  builtDown := sortByNumber (cluesDown env);
                  builtPlaced := placedWords env;
                  unplaced := pending;
                  passCount := passes |}
  | Thrown e => Thrown e
  | OutOfFuel => OutOfFuel
  end.
End Construct.

(** ** The application state that [handleGeneratePuzzle] updates *)

Record SavedCrossword := mkSaved {
  id : Z;
  curricularComponent : jsstring;
  schoolYear : jsstring;
  topic : jsstring;
  wordEntries : list WordEntry;
  grid : gmap (Z * Z) Cell;
  cluesOfAcross : list Clue;
  cluesOfDown : list Clue
}.

Record CrosswordFormData := mkForm {
  formTopic : jsstring;
  formCurricularComponent : jsstring;
  formSchoolYear : jsstring;
  formWordEntries : list WordEntry
}.

Inductive MobileView := history | form | viewer.

Record AppState := mkApp {
  crosswordFormData : CrosswordFormData;
  savedCrosswords : list SavedCrossword;
  activeCrosswordId : option Z;
  generationError : option Message;     (* [None] is the empty string *)
  isLoading : bool;
  mobileView : MobileView
}.

Section HandleGeneratePuzzle.
Context `{Unicode}.

(** [handleGeneratePuzzle], with the callback of its timer run to its end.
    [now] is the value of [Date.now()].  [generatedPuzzle], which every path
    sets to [null], is left out.  The loop gets the fuel of the bound of the
    specification, the square of the number of words; with it the loop always
    ends, so that the last case below does not occur. *)
Definition handleGeneratePuzzle (now : Z) (st : AppState) : AppState :=
  let data := crosswordFormData st in
  let count := length (normalizeWords (formWordEntries data)) in
  let fuel := (count * count)%nat in
  match construct fuel (formWordEntries data) with
  | Returned built =>
      let newCrossword :=
        {| id := now;
           curricularComponent := formCurricularComponent data;
           schoolYear := formSchoolYear data;
           topic := match formTopic data with [] => js "Palavra Cruzada" | t => t end;
           wordEntries := placedEntry <$> builtPlaced built;
           grid := builtGrid built;
           cluesOfAcross := builtAcross built;
           cluesOfDown := builtDown built |} in
      {| crosswordFormData := data;
         savedCrosswords := newCrossword :: savedCrosswords st;
         activeCrosswordId := Some now;
         generationError := match unplaced built with
                            | [] => None
                            | ws => Some (CouldNotFit (word <$> ws))
                            end;
         isLoading := false;
         mobileView := viewer |}
  | Thrown e =>
      {| crosswordFormData := data;
         savedCrosswords := savedCrosswords st;
         activeCrosswordId := activeCrosswordId st;
         generationError := Some match e with Error m => m | TypeError => RuntimeMessage end;
         isLoading := false;
         mobileView := mobileView st |}
  | OutOfFuel => st
  end.
End HandleGeneratePuzzle.

(** ** The interactive solver ([CrosswordViewer]) *)

Module Viewer.

(** [PuzzleGrid]: rows of cells, a cell or [null]. *)
Abbreviation PuzzleGrid := (list (list (option Cell))).

(** [{ row, col, direction }] *)
Record Selection := mkSelection { selRow : Z; selCol : Z; selDirection : Direction }.

(** The three [useState] variables of the component. *)
Record SolverState := mkSolver {
  userInput : gmap string jsstring;
  selectedCell : option Selection;
  isChecking : bool
}.

(** The state of the [useState] initializers, which the effect on
    [puzzleData] restores at every new puzzle. *)
Definition initialState : SolverState :=
  {| userInput := ∅; selectedCell := None; isChecking := false |}.

(** [arr[i]] for an integer [i]: [undefined] outside the array. *)
Definition index {A} (arr : list A) (i : Z) : option A :=
  if bool_decide (0 ≤ i) then arr !! Z.to_nat i else None.

(** [grid?.[row]?.[col]], with [null] and [undefined] both [None]. *)
Definition cellAt (grid : option PuzzleGrid) (row col : Z) : option Cell :=
  match grid with
  | None => None
  | Some g =>
      match index g row with
      | None => None
      | Some r => match index r col with Some (Some cell) => Some cell | _ => None end
      end
  end.

(** [grid[row][col]], which throws when [grid[row]] is [undefined]. *)
Definition cellOf (g : PuzzleGrid) (row col : Z) : Outcome (option Cell) :=
  match index g row with
  | None => Thrown TypeError
  | Some r => Returned (match index r col with Some (Some cell) => Some cell | _ => None end)
  end.

(** The truth value of an optional number field. *)
Definition truthy (n : option Z) : bool :=
  match n with Some v => bool_decide (v ≠ 0) | None => false end.

Section Handlers.
Context `{Unicode}.
Variable grid : option PuzzleGrid.

Definition select (sel : Selection) (st : SolverState) : SolverState :=
  {| userInput := userInput st; selectedCell := Some sel; isChecking := isChecking st |}.

Definition handleCellClick (row col : Z) (st : SolverState) : SolverState :=
  match cellAt grid row col with
  | None =>
      {| userInput := userInput st; selectedCell := None; isChecking := isChecking st |}
  | Some cell =>
      let fresh :=
        select {| selRow := row; selCol := col;
                  selDirection := if truthy (cellAcross cell) then across else down |} st in
      match selectedCell st with
      | Some sel =>
          if bool_decide (selRow sel = row ∧ selCol sel = col) then
            match selDirection sel with
            | across =>
                if truthy (cellDown cell)
                then select {| selRow := row; selCol := col; selDirection := down |} st
                else st
            | down =>
                if truthy (cellAcross cell)
                then select {| selRow := row; selCol := col; selDirection := across |} st
                else st
            end
          else fresh
      | None => fresh
      end
  end.


(** The element that [handleInputChange] asks the document to focus, if any. *)
Definition focusTarget (value : jsstring) (row col : Z) (st : SolverState)
  : Outcome (option (Z * Z)) :=
  match value, selectedCell st, grid with
  | _ :: _, Some sel, Some g =>
      match selDirection sel with
      | across =>
          if bool_decide (col + 1 < GRID_SIZE) then
            match cellOf g row (col + 1) with
            | Returned (Some _) => Returned (Some (row, col + 1))
            | Returned None => Returned None
            | Thrown e => Thrown e
            | OutOfFuel => OutOfFuel
            end
          else Returned None
      | down =>
          if bool_decide (row + 1 < GRID_SIZE) then
            match cellOf g (row + 1) col with
            | Returned (Some _) => Returned (Some (row + 1, col))
            | Returned None => Returned None
            | Thrown e => Thrown e
            | OutOfFuel => OutOfFuel
            end
          else Returned None
      end
  | _, _, _ => Returned None
  end.

(** [handleInputChange]: the state after its [setUserInput], and the focus
    request that follows it. [text] is [e.target.value]. *)
Definition handleInputChange (text : jsstring) (row col : Z) (st : SolverState)
  : SolverState * Outcome (option (Z * Z)) :=
  let value := normalizeString text in
  ({| userInput := <[cellKey row col := value]> (userInput st);
      selectedCell := selectedCell st; isChecking := isChecking st |},
   focusTarget value row col st).

(** Typing in the [input] of cell [(row, col)] (line 207).  The element is
    rendered with [disabled={isChecking}]: a disabled control takes no
    input, so its [onChange] handler runs only when [isChecking] is false. *)
Definition inputTransition (text : jsstring) (row col : Z) (st : SolverState) : SolverState :=
  if isChecking st then st else (handleInputChange text row col st).1.

Definition handleCheck (st : SolverState) : SolverState :=
  {| userInput := userInput st; selectedCell := selectedCell st; isChecking := true |}.

(** The object [solution] after the two nested [forEach]. *)
Definition revealRow (r : Z) (cells : list (option Cell)) (solution : gmap string jsstring)
  : gmap string jsstring :=
  fold_left (λ sol '(c, cell),
    match cell with
    | Some cell => <[cellKey r c := letter cell]> sol
    | None => sol
    end) (enumerateFrom 0 cells) solution.

Definition solutionOf (g : PuzzleGrid) : gmap string jsstring :=
  fold_left (λ sol '(r, cells), revealRow r cells sol) (enumerateFrom 0 g) ∅.

Definition handleReveal (st : SolverState) : SolverState :=
  match grid with
  | None => st
  | Some g =>
      {| userInput := solutionOf g; selectedCell := selectedCell st; isChecking := false |}
  end.

Definition handleReset (st : SolverState) : SolverState :=
  {| userInput := ∅; selectedCell := None; isChecking := false |}.
End Handlers.

End Viewer.

(** ** The form of the crossword ([App.tsx], lines 951-991) *)

(** [crosswordFormData] with its field [wordCount], the value of the slider,
    which the construction does not read. *)
Record WordForm := mkWordForm { formData : CrosswordFormData; wordCount : Z }.

(** The form with other entries. *)
Definition withEntries (entries : list WordEntry) (data : CrosswordFormData)
  : CrosswordFormData :=
  {| formTopic := formTopic data;
     formCurricularComponent := formCurricularComponent data;
     formSchoolYear := formSchoolYear data;
     formWordEntries := entries |}.

(** [arr.slice(0, n)] for an integer [n]: a negative [n] counts from the
    end. *)
Definition sliceTo {A} (n : Z) (arr : list A) : list A :=
  take (Z.to_nat (if bool_decide (n < 0) then Z.of_nat (length arr) + n else n)) arr.

(** [{ word: '', clue: '' }] *)
Definition blankEntry : WordEntry := {| word := []; clue := [] |}.

(** [Array(n)] for an integer [n]: an array of [n] places, or a [RangeError]
    unless [n] is from 0 to 2^32 - 1. *)
Definition arrayOfLength (n : Z) : option nat :=
  if bool_decide (0 ≤ n < 4294967296) then Some (Z.to_nat n) else None.

(** What the updater of [handleWordCountChange] gives: the next form, or the
    [RangeError] that [Array(newCount - currentCount)] throws. *)
Inductive FormUpdate := NextForm (next : WordForm) | RangeError.

(** [handleWordCountChange] (lines 951-963), for an integer [newCount].  The
    blank entries that [fill] puts into the array are one object; no handler
    mutates an entry, so that the sharing is not observable.  The range input
    that calls the handler (line 1706) gives the integers from 0 to 20. *)
Definition handleWordCountChange (newCount : Z) (prev : WordForm) : FormUpdate :=
  let currentEntries := formWordEntries (formData prev) in
  let currentCount := Z.of_nat (length currentEntries) in
  if bool_decide (newCount > currentCount) then
    match arrayOfLength (newCount - currentCount) with
    | Some places =>
        NextForm {| formData := withEntries (currentEntries ++ replicate places blankEntry)
                                  (formData prev);
                    wordCount := newCount |}
    | None => RangeError
    end
  else
    NextForm {| formData := withEntries (sliceTo newCount currentEntries) (formData prev);
                wordCount := newCount |}.

(** The messages that [handleAiGenerateCrossword] gives to
    [setGenerationError]. *)
Inductive FormMessage :=
  | NeedTopic               (* "Por favor, insira um tema." *)
  | NeedComponentAndYear    (* "Selecione Componente e Ano." *)
  | WordsNotGenerated.      (* "Não foi possível gerar as palavras. Tente novamente." *)

(** The form, the message that this handler leaves in [generationError]
    ([None] is the empty string) and [isAiLoading]. *)
Record FormState := mkFormState {
  wordForm : WordForm;
  formError : option FormMessage;
  isAiLoading : bool
}.

(** [wordCount > 0 ? wordCount : 10] *)
Definition countForAI (count : Z) : Z := if bool_decide (count > 0) then count else 10.

(** The filter of lines 982 and 518:
    [e.word && e.clue && !e.word.includes(' ') && !e.word.includes('-') && e.word.length <= 15]. *)
Definition acceptGenerated (e : WordEntry) : bool :=
  bool_decide (word e ≠ []) && bool_decide (clue e ≠ [])
  && bool_decide (SPACE ∉ word e) && bool_decide (HYPHEN ∉ word e)
  && bool_decide (length (word e) ≤ 15)%nat.

Section AiWords.
Context `{Unicode}.

(** Lines 982-983: [validEntries.slice(0, countForAI)]. *)
Definition finalEntries (count : Z) (generatedEntries : list WordEntry) : list WordEntry :=
  sliceTo count
    (filter (λ e, acceptGenerated e = true)
       ((λ e, {| word := normalizeString (word e); clue := clue e |}) <$> generatedEntries)).

(** [handleAiGenerateCrossword] (lines 973-991) run to its end.  [reply] is
    what [await generateCrosswordWords(...)] gives: the entries, or [None]
    when the promise is rejected.  The form is not edited while the request
    is pending. *)
Definition handleAiGenerateCrossword (reply : option (list WordEntry)) (st : FormState)
  : FormState :=
  let data := formData (wordForm st) in
  if bool_decide (trim (formTopic data) = []) then
    {| wordForm := wordForm st; formError := Some NeedTopic; isAiLoading := isAiLoading st |}
  else if bool_decide (formCurricularComponent data = [] ∨ formSchoolYear data = []) then
    {| wordForm := wordForm st; formError := Some NeedComponentAndYear;
       isAiLoading := isAiLoading st |}
  else
    match reply with
    | Some generatedEntries =>
        let final := finalEntries (countForAI (wordCount (wordForm st))) generatedEntries in
        {| wordForm := {| formData := withEntries final data;
                          wordCount := Z.of_nat (length final) |};
           formError := None; isAiLoading := false |}
    | None =>
        {| wordForm := wordForm st; formError := Some WordsNotGenerated; isAiLoading := false |}
    end.
End AiWords.

(** ** The saved crosswords ([App.tsx], lines 1143-1189) *)

(** The state of [handleGeneratePuzzle] with the two variables of the clue
    editor; [editedClues] holds the across and the down clues. *)
Record EditorState := mkEditor {
  appState : AppState;
  isEditingCrossword : bool;
  editedClues : option (list Clue * list Clue)
}.

(** [savedCrosswords.find(c => c.id === activeCrosswordId)] (line 281) *)
Definition activeCrossword (st : AppState) : option SavedCrossword :=
  head (filter (λ c, Some (id c) = activeCrosswordId st) (savedCrosswords st)).

(** [handleDeleteCrossword] *)
Definition handleDeleteCrossword (id0 : Z) (st : EditorState) : EditorState :=
  {| appState := {| crosswordFormData := crosswordFormData (appState st);
               savedCrosswords := filter (λ c, id c ≠ id0) (savedCrosswords (appState st));
               activeCrosswordId :=
                 if bool_decide (activeCrosswordId (appState st) = Some id0) then None
                 else activeCrosswordId (appState st);
               generationError := generationError (appState st);
               isLoading := isLoading (appState st);
               mobileView := mobileView (appState st) |};
     isEditingCrossword := isEditingCrossword st;
     editedClues := editedClues st |}.

(** [selectCrossword] *)
Definition selectCrossword (id0 : Z) (st : EditorState) : EditorState :=
  {| appState := {| crosswordFormData := crosswordFormData (appState st);
               savedCrosswords := savedCrosswords (appState st);
               activeCrosswordId := Some id0;
               generationError := generationError (appState st);
               isLoading := isLoading (appState st);
               mobileView := viewer |};
     isEditingCrossword := false;
     editedClues := None |}.

(** [handleStartEditCrossword]; the deep copy of the clues is the clues. *)
Definition handleStartEditCrossword (st : EditorState) : EditorState :=
  match activeCrossword (appState st) with
  | None => st
  | Some cw =>
      {| appState := appState st; isEditingCrossword := true;
         editedClues := Some (cluesOfAcross cw, cluesOfDown cw) |}
  end.

(** [handleCancelEditCrossword] *)
Definition handleCancelEditCrossword (st : EditorState) : EditorState :=
  {| appState := appState st; isEditingCrossword := false; editedClues := None |}.

(** [{ ...cw, clues: editedClues }] *)
Definition withClues (clues : list Clue * list Clue) (cw : SavedCrossword) : SavedCrossword :=
  {| id := id cw; curricularComponent := curricularComponent cw; schoolYear := schoolYear cw;
     topic := topic cw; wordEntries := wordEntries cw; grid := grid cw;
     cluesOfAcross := clues.1; cluesOfDown := clues.2 |}.

(** [handleSaveCrosswordEdit]: [!activeCrosswordId] holds of [null] and
    of 0. *)
Definition handleSaveCrosswordEdit (st : EditorState) : EditorState :=
  match activeCrosswordId (appState st), editedClues st with
  | Some active, Some clues =>
      if bool_decide (active = 0) then st
      else
        {| appState := {| crosswordFormData := crosswordFormData (appState st);
                     savedCrosswords :=
                       (λ cw, if bool_decide (id cw = active) then withClues clues cw else cw)
                         <$> savedCrosswords (appState st);
                     activeCrosswordId := activeCrosswordId (appState st);
                     generationError := generationError (appState st);
                     isLoading := isLoading (appState st);
                     mobileView := mobileView (appState st) |};
           isEditingCrossword := false;
           editedClues := None |}
  | _, _ => st
  end.

(** [clue.number === clueNumber ? { ...clue, clue: newClueText } : clue] *)
Definition retext (clueNumber : Z) (newClueText : jsstring) (c : Clue) : Clue :=
  if bool_decide (number c = clueNumber)
  then {| number := number c; clueText := newClueText |} else c.

(** [handleClueChange] *)
Definition handleClueChange (direction : Direction) (clueNumber : Z) (newClueText : jsstring)
    (st : EditorState) : EditorState :=
  {| appState := appState st; isEditingCrossword := isEditingCrossword st;
     editedClues :=
       match editedClues st with
       | None => None
       | Some (a, d) =>
           Some match direction with
                | across => (retext clueNumber newClueText <$> a, d)
                | down => (a, retext clueNumber newClueText <$> d)
                end
       end |}.

(** ** What the viewer shows of a cell ([CrosswordViewer], lines 143-155 and
    194-197) *)

(** [cell[direction]] *)
Definition along (d : Direction) (cell : Cell) : option Z :=
  match d with across => cellAcross cell | down => cellDown cell end.

Module Render.
Import Viewer.

(** [isCorrect]: [isChecking && cell && userInput[cellKey] === cell.letter] *)
Definition isCorrect (cell : Cell) (r c : Z) (st : SolverState) : bool :=
  isChecking st && bool_decide (userInput st !! cellKey r c = Some (letter cell)).

(** [isIncorrect]:
    [isChecking && cell && userInput[cellKey] && userInput[cellKey] !== cell.letter] *)
Definition isIncorrect (cell : Cell) (r c : Z) (st : SolverState) : bool :=
  isChecking st
  && match userInput st !! cellKey r c with
     | Some v => bool_decide (v ≠ []) && bool_decide (v ≠ letter cell)
     | None => false
     end.

(** [isSelected] *)
Definition isSelected (r c : Z) (st : SolverState) : bool :=
  match selectedCell st with
  | Some sel => bool_decide (selRow sel = r ∧ selCol sel = c)
  | None => false
  end.

(** [activeClueNumber]; reading [grid[row][col]] throws when the row is
    missing. *)
Definition activeClueNumber (grid : option PuzzleGrid) (st : SolverState) : Outcome (option Z) :=
  match selectedCell st, grid with
  | Some sel, Some g =>
      match cellOf g (selRow sel) (selCol sel) with
      | Returned (Some cell) => Returned (along (selDirection sel) cell)
      | Returned None => Returned None
      | Thrown e => Thrown e
      | OutOfFuel => OutOfFuel
      end
  | _, _ => Returned None
  end.

(** [isCellInActiveWord], with the value [active] of [activeClueNumber]. *)
Definition isCellInActiveWord (grid : option PuzzleGrid) (active : option Z) (r c : Z)
    (st : SolverState) : Outcome bool :=
  match selectedCell st, grid with
  | Some sel, Some g =>
      if truthy active then
        match cellOf g r c with
        | Returned (Some cell) => Returned (bool_decide (along (selDirection sel) cell = active))
        | Returned None => Returned false
        | Thrown e => Thrown e
        | OutOfFuel => OutOfFuel
        end
      else Returned false
  | _, _ => Returned false
  end.

End Render.

(** The clues of one direction of a saved crossword. *)
Definition cluesAlong (d : Direction) (cw : SavedCrossword) : list Clue :=
  match d with across => cluesOfAcross cw | down => cluesOfDown cw end.

(** [handleGeneratePuzzle] on the state with the variables of the clue
    editor, which it does not touch. *)
Definition generateInEditor `{Unicode} (now : Z) (st : EditorState) : EditorState :=
  {| appState := handleGeneratePuzzle now (appState st);
     isEditingCrossword := isEditingCrossword st;
     editedClues := editedClues st |}.

(** * Specification predicates *)

(** ** Keys *)

(** No character of [s] is the hyphen. *)
Fixpoint hyphenFree (s : string) : Prop :=
  match s with
  | EmptyString => True
  | String a s' => a ≠ "-"%char ∧ hyphenFree s'
  end.

(** ** The [Map] of the normalizer *)

(** The value that a list of pairs binds last to a key. *)
Definition lastBinding {V} (pairs : list (jsstring * V)) (k : jsstring) (v : V) : Prop :=
  ∃ l1 l2, pairs = l1 ++ (k, v) :: l2 ∧ k ∉ l2.*1.

(** ** Code that only reads the closure state *)

(** Whenever [m] returns, the state is the one it started from. *)
Definition readOnly {A} (m : M A) : Prop :=
  ∀ env a env', m env = Returned (a, env') → env' = env.

(** ** What [canPlaceWord] tests, as the code reads the cells *)

(** The two tests on the neighbours of an empty cell at letter [i]: each
    neighbour that the code looks at is empty. *)
Definition sidesFree (g : gmap (Z * Z) Cell) (d : Direction) (row col i : Z) : Prop :=
  match d with
  | across => (row > 0 → g !! (row - 1, col + i) = None)
              ∧ (row < GRID_SIZE - 1 → g !! (row + 1, col + i) = None)
  | down => (col > 0 → g !! (row + i, col - 1) = None)
            ∧ (col < GRID_SIZE - 1 → g !! (row + i, col + 1) = None)
  end.

(** The body of the loop at letter [i]: the cell holds the letter, or is empty
    with its sides free. *)
Definition letterFits (g : gmap (Z * Z) Cell) (d : Direction) (row col i : Z) (ch : N) : Prop :=
  match g !! cellPos d row col i with
  | Some c => letter c = [ch]
  | None => sidesFree g d row col i
  end.

(** The tests before the loop: no negative coordinate, and the end of the
    word not beyond the grid along the direction. *)
Definition fitsAlong (word : jsstring) (row col : Z) (d : Direction) : Prop :=
  0 ≤ row ∧ 0 ≤ col
  ∧ match d with
    | across => col + len word ≤ GRID_SIZE
    | down => row + len word ≤ GRID_SIZE
    end.

(** The tests on the cell before the start and on the cell after the end. *)
Definition endsClear (g : gmap (Z * Z) Cell) (word : jsstring) (row col : Z) (d : Direction) : Prop :=
  match d with
  | across => (col > 0 → g !! (row, col - 1) = None)
              ∧ (col + len word < GRID_SIZE → g !! (row, col + len word) = None)
  | down => (row > 0 → g !! (row - 1, col) = None)
            ∧ (row + len word < GRID_SIZE → g !! (row + len word, col) = None)
  end.

(** All the tests of [canPlaceWord]. *)
Definition feasible (g : gmap (Z * Z) Cell) (word : jsstring) (row col : Z) (d : Direction) : Prop :=
  fitsAlong word row col d ∧ endsClear g word row col d
  ∧ ∀ k ch, word !! k = Some ch → letterFits g d row col (Z.of_nat k) ch.

(** Linear arithmetic with the size of the grid and the lengths unfolded. *)
Ltac grid_lia := unfold len, GRID_SIZE in *; lia.

(** ** Feasibility as the specification words it (section 4.2) *)

(** The position is one of the N x N cells. *)
Definition inGrid (p : Z * Z) : Prop := 0 ≤ p.1 < GRID_SIZE ∧ 0 ≤ p.2 < GRID_SIZE.

(** The cell of the N x N grid at a position; [None] when it is empty or out
    of bounds. *)
Definition gridCell (g : gmap (Z * Z) Cell) (p : Z * Z) : option Cell :=
  if bool_decide (inGrid p) then g !! p else None.

(** The word fits entirely inside the grid. *)
Definition fitsInside (word : jsstring) (row col : Z) (d : Direction) : Prop :=
  0 ≤ row ∧ 0 ≤ col
  ∧ match d with
    | across => row < GRID_SIZE ∧ col + len word ≤ GRID_SIZE
    | down => col < GRID_SIZE ∧ row + len word ≤ GRID_SIZE
    end.

(** End isolation: the cell before the start and the cell after the end,
    along the direction, are empty or out of bounds. *)
Definition endsFree (g : gmap (Z * Z) Cell) (word : jsstring) (row col : Z) (d : Direction) : Prop :=
  gridCell g (cellPos d row col (-1)) = None
  ∧ gridCell g (cellPos d row col (len word)) = None.

(** The two neighbours of a cell perpendicular to the direction. *)
Definition sideCells (d : Direction) (p : Z * Z) : (Z * Z) * (Z * Z) :=
  match d with
  | across => ((p.1 - 1, p.2), (p.1 + 1, p.2))
  | down => ((p.1, p.2 - 1), (p.1, p.2 + 1))
  end.

(** Per letter: the cell is occupied with that letter, or it is empty and so
    are its two perpendicular neighbours. *)
Definition lettersFit (g : gmap (Z * Z) Cell) (word : jsstring) (row col : Z) (d : Direction) : Prop :=
  ∀ i ch, word !! i = Some ch →
    let p := cellPos d row col (Z.of_nat i) in
    (∃ cell, gridCell g p = Some cell ∧ letter cell = [ch])
    ∨ (gridCell g p = None
       ∧ gridCell g (sideCells d p).1 = None ∧ gridCell g (sideCells d p).2 = None).

(** The three checks together. *)
Definition canPlace (g : gmap (Z * Z) Cell) (word : jsstring) (row col : Z) (d : Direction) : Prop :=
  fitsInside word row col d ∧ endsFree g word row col d ∧ lettersFit g word row col d.

(** ** The effect of [placeWordOnGrid] *)

(** The cell that the loop of [placeWordOnGrid] leaves at letter [i], from
    the cell [old] that it finds there. *)
Definition written (d : Direction) (clueNum i : Z) (ch : N) (old : option Cell) : Cell :=
  let cell0 := default {| letter := [ch]; clueNumber := None;
                          cellAcross := None; cellDown := None |} old in
  let cell1 := setDirection d clueNum cell0 in
  if bool_decide (i = 0) then setClueNumber clueNum cell1 else cell1.

(** The state with another grid. *)
Definition setGrid (g : gmap (Z * Z) Cell) (env : Env) : Env :=
  {| newGrid := g; cluesAcross := cluesAcross env; cluesDown := cluesDown env;
     clueCounter := clueCounter env; placedWords := placedWords env;
     numberLocations := numberLocations env |}.

(** The state after [placeWordOnGrid] and [placedWords.push] for a word at
    [(row0, col0)] that got the number [n] and left the grid [g']. *)
Definition afterPlacement (env : Env) (wordObj : WordEntry) (row0 col0 : Z) (d : Direction)
    (n : Z) (g' : gmap (Z * Z) Cell) : Env :=
  {| newGrid := g';
     cluesAcross := match d with
                    | across => cluesAcross env ++ [{| number := n; clueText := clue wordObj |}]
                    | down => cluesAcross env
                    end;
     cluesDown := match d with
                  | across => cluesDown env
                  | down => cluesDown env ++ [{| number := n; clueText := clue wordObj |}]
                  end;
     clueCounter := match numberLocations env !! cellKey row0 col0 with
                    | Some _ => clueCounter env
                    | None => clueCounter env + 1
                    end;
     placedWords := placedWords env ++
       [{| placedEntry := wordObj; row := row0; col := col0; direction := d |}];
     numberLocations := <[cellKey row0 col0 := n]> (numberLocations env) |}.

(** ** The invariant of the construction *)

(** The word of a placed word. *)
Definition wordOf (p : PlacedWord) : jsstring := word (placedEntry p).

(** The rows that the letters of a word at row [row] occupy exist. *)
Definition rowsInside (w : jsstring) (row : Z) (d : Direction) : Prop :=
  0 ≤ row ∧ match d with across => row < GRID_SIZE | down => row + len w ≤ GRID_SIZE end.

(** The cells that a word would cover hold its letters or nothing. *)
Definition compatible (g : gmap (Z * Z) Cell) (w : jsstring) (row col : Z) (d : Direction) : Prop :=
  ∀ k ch, w !! k = Some ch →
    match g !! cellPos d row col (Z.of_nat k) with
    | Some cell => letter cell = [ch]
    | None => True
    end.

(** What holds of the closure state between two placements.  [Q] is a
    property of the words that the construction is given.  The placed words
    lie on existing rows and can be read back from the grid; the numbers are
    below the counter and one per key; a cell flagged with a number is the
    cell of that number's key; every placed word starts on a flagged cell;
    and every clue belongs to a placed word of its list's direction. *)
Record Inv (Q : WordEntry → Prop) (env : Env) : Prop := {
  inv_rows : ∀ p, p ∈ placedWords env →
    rowsInside (wordOf p) (row p) (direction p) ∧ 0 < len (wordOf p);
  inv_letters : ∀ p i ch, p ∈ placedWords env → wordOf p !! i = Some ch →
    ∃ cell, newGrid env !! cellPos (direction p) (row p) (col p) (Z.of_nat i) = Some cell
            ∧ letter cell = [ch];
  inv_grid_rows : ∀ r c cell, newGrid env !! (r, c) = Some cell → 0 ≤ r < GRID_SIZE;
  inv_counter_pos : 1 ≤ clueCounter env;
  inv_counter : ∀ k n, numberLocations env !! k = Some n → 1 ≤ n < clueCounter env;
  inv_injective : ∀ k k' n,
    numberLocations env !! k = Some n → numberLocations env !! k' = Some n → k = k';
  inv_flags : ∀ r c cell n, newGrid env !! (r, c) = Some cell → clueNumber cell = Some n →
    numberLocations env !! cellKey r c = Some n;
  inv_starts : ∀ p, p ∈ placedWords env →
    ∃ n cell, numberLocations env !! cellKey (row p) (col p) = Some n
              ∧ newGrid env !! (row p, col p) = Some cell ∧ clueNumber cell = Some n;
  inv_across : ∀ c, c ∈ cluesAcross env →
    ∃ p, p ∈ placedWords env ∧ direction p = across ∧ clueText c = clue (placedEntry p)
         ∧ numberLocations env !! cellKey (row p) (col p) = Some (number c);
  inv_down : ∀ c, c ∈ cluesDown env →
    ∃ p, p ∈ placedWords env ∧ direction p = down ∧ clueText c = clue (placedEntry p)
         ∧ numberLocations env !! cellKey (row p) (col p) = Some (number c);
  inv_entries : ∀ p, p ∈ placedWords env → Q (placedEntry p)
}.

(** What the search keeps in [bestFit] is a position where the word can be
    written. *)
Definition goodBest (env : Env) (wordObj : WordEntry) (best : Best) : Prop :=
  match best.1 with
  | Some fit =>
      rowsInside (word wordObj) (fitRow fit) (fitDirection fit)
      ∧ compatible (newGrid env) (word wordObj) (fitRow fit) (fitCol fit) (fitDirection fit)
  | None => True
  end.

(** ** Reading the grid *)


(** ** Concrete inputs *)

(** A one-row puzzle for the concrete runs of the solver: an empty cell, then
    the letters A and B of an across word numbered 1. *)
Definition tinyGrid : Viewer.PuzzleGrid :=
  [[None;
    Some {| letter := js "A"; clueNumber := Some 1; cellAcross := Some 1; cellDown := None |};
    Some {| letter := js "B"; clueNumber := None; cellAcross := Some 1; cellDown := None |}]].

(** Scenario A of the specification. *)
Definition scenarioA : list WordEntry :=
  [mkEntry (js "GATO") (js "Animal domestico"); mkEntry (js "CASA") (js "Onde se mora")].

(** The closure state once GATO is written across at (15, 13). *)
Definition afterFirstWord : Env :=
  match placeWordOnGrid (mkEntry (js "GATO") (js "Animal domestico")) 15 13 across initialEnv with
  | Returned (_, env) => env
  | _ => initialEnv
  end.

(** ** More on the state of the construction *)

(** The placed word that the loop records for a committed best fit. *)
Definition placementOf (wordObj : WordEntry) (fit : BestFit) : PlacedWord :=
  {| placedEntry := wordObj; row := fitRow fit; col := fitCol fit;
     direction := fitDirection fit |}.

(** The first placed word: [firstWord] across on the middle row (lines
    1064-1067). *)
Definition firstPlacement (firstWord : WordEntry) : PlacedWord :=
  {| placedEntry := firstWord; row := GRID_SIZE / 2;
     col := (GRID_SIZE - len (word firstWord)) / 2; direction := across |}.

(** The clue that [placeWordOnGrid] pushed for a placed word, with the number
    that [numberLocations] holds for its start cell. *)
Definition clueFor (numbers : gmap string Z) (p : PlacedWord) : Clue :=
  {| number := default 0 (numbers !! cellKey (row p) (col p));
     clueText := clue (placedEntry p) |}.

(** The number that the grid shows on the start cell of a placed word. *)
Definition startNumber (g : gmap (Z * Z) Cell) (p : PlacedWord) : Z :=
  default 0 (g !! (row p, col p) ≫= clueNumber).

(** The clue of a placed word as the finished puzzle shows it. *)
Definition clueOnGrid (g : gmap (Z * Z) Cell) (p : PlacedWord) : Clue :=
  {| number := startNumber g p; clueText := clue (placedEntry p) |}.

(** The placed words of one direction, in the order of their placement. *)
Definition placedAlong (d : Direction) (placed : list PlacedWord) : list PlacedWord :=
  filter (λ p, direction p = d) placed.

(** The bookkeeping of the loop, between two placements: [all] are the words
    of the run and [words] the ones still pending.  No word is lost or
    placed twice; a filled cell is a letter of a placed word and carries the
    number of that word under the direction of the word; each list of
    clues holds the clues of the placed words of its direction, in placement
    order; and every number below the counter is the number of a placed
    word's start cell. *)
Record Ledger (all words : list WordEntry) (env : Env) : Prop := {
  led_words : (placedEntry <$> placedWords env) ++ words ≡ₚ all;
  led_cells : ∀ p cell, newGrid env !! p = Some cell →
    ∃ pw i ch, pw ∈ placedWords env ∧ wordOf pw !! i = Some ch
               ∧ p = cellPos (direction pw) (row pw) (col pw) (Z.of_nat i)
               ∧ along (direction pw) cell
                 = numberLocations env !! cellKey (row pw) (col pw);
  led_across : cluesAcross env
               = clueFor (numberLocations env) <$> placedAlong across (placedWords env);
  led_down : cluesDown env
             = clueFor (numberLocations env) <$> placedAlong down (placedWords env);
  led_numbers : ∀ n, 1 ≤ n < clueCounter env →
    ∃ pw, pw ∈ placedWords env
          ∧ numberLocations env !! cellKey (row pw) (col pw) = Some n
}.

(** Every filled cell is one of the N x N cells. *)
Definition insideGrid (g : gmap (Z * Z) Cell) : Prop :=
  ∀ p cell, g !! p = Some cell → inGrid p.

(** An array of words by decreasing length. *)
Definition longestFirst (l : list WordEntry) : Prop :=
  StronglySorted (λ a b, (length (word b) ≤ length (word a))%nat) l.

(** An array of clues by increasing number. *)
Definition byNumber (l : list Clue) : Prop :=
  StronglySorted (λ a b, number a ≤ number b) l.

(** ** The search for the best fit *)

(** [newGrid[r]?.[c]] on a grid. *)
Definition peek (g : gmap (Z * Z) Cell) (p : Z * Z) : option Cell :=
  if rowExists p.1 then g !! p else None.

(** The letters of a word at a position that lie on filled cells: what lines
    1084-1088 count. *)
Definition crossings (g : gmap (Z * Z) Cell) (w : jsstring) (row col : Z) (d : Direction) : Z :=
  Z.of_nat (length (filter (λ x, is_Some (peek g (cellPos d row col x.1)))
                      (enumerateFrom 0 w))).

(** The position that lines 1080-1082 compute for letter [j] of the word
    on letter [k] of [pWord]. *)
Definition candidateAt (pWord : PlacedWord) (j k : Z) : BestFit :=
  let direction := match direction pWord with across => down | down => across end in
  {| fitRow := match direction with down => row pWord - j | across => row pWord + k end;
     fitCol := match direction with down => col pWord + k | across => col pWord - j end;
     fitDirection := direction |}.

(** The positions that the three loops of lines 1076-1079 visit: a letter of
    the word on an equal letter of a placed word. *)
Definition isCandidate (placed : list PlacedWord) (wordObj : WordEntry) (fit : BestFit) : Prop :=
  ∃ pWord j k ch, pWord ∈ placed ∧ word wordObj !! j = Some ch ∧ wordOf pWord !! k = Some ch
                  ∧ fit = candidateAt pWord (Z.of_nat j) (Z.of_nat k).

(** [canPlaceWord] accepts the position. *)
Definition accepted (env : Env) (wordObj : WordEntry) (fit : BestFit) : Prop :=
  canPlaceWord (word wordObj) (fitRow fit) (fitCol fit) (fitDirection fit) env
  = Returned (true, env).

Definition crossingsAt (env : Env) (wordObj : WordEntry) (fit : BestFit) : Z :=
  crossings (newGrid env) (word wordObj) (fitRow fit) (fitCol fit) (fitDirection fit).

(** What [bestFit] and [maxIntersections] hold during the search. *)
Definition soundBest (env : Env) (wordObj : WordEntry) (best : Best) : Prop :=
  match best.1 with
  | Some fit => isCandidate (placedWords env) wordObj fit ∧ accepted env wordObj fit
                ∧ best.2 = crossingsAt env wordObj fit ∧ 0 < best.2
  | None => best.2 = 0
  end.

(** A position that the search has visited does not beat [maxIntersections]. *)
Definition covered (env : Env) (wordObj : WordEntry) (fit : BestFit) (best : Best) : Prop :=
  accepted env wordObj fit → crossingsAt env wordObj fit ≤ best.2.

(** No position of a pending word is worth a placement: the search gives no
    best fit with a crossing. *)
Definition stalled (env : Env) (words : list WordEntry) : Prop :=
  ∀ w, w ∈ words →
    ∃ best, findBestFit w env = Returned (best, env) ∧ ¬ (is_Some best.1 ∧ best.2 > 0).

(** A placed word crosses a word placed before it: the two are perpendicular
    and a letter of the one lies on the cell of an equal letter of the
    other. *)
Definition crossesEarlier (placed : list PlacedWord) (i : nat) (pw : PlacedWord) : Prop :=
  ∃ j q a b ch, (j < i)%nat ∧ placed !! j = Some q ∧ direction q ≠ direction pw
    ∧ wordOf pw !! a = Some ch ∧ wordOf q !! b = Some ch
    ∧ cellPos (direction pw) (row pw) (col pw) (Z.of_nat a)
      = cellPos (direction q) (row q) (col q) (Z.of_nat b).

(** Every placed word but the first crosses an earlier one. *)
Definition connected (placed : list PlacedWord) : Prop :=
  ∀ i pw, placed !! i = Some pw → i = 0%nat ∨ crossesEarlier placed i pw.

(** ** The end of a construction *)

(** The facts that hold of the state in which a construction ends. *)
Record Finished (all : list WordEntry) (firstWord : WordEntry)
    (pending : list WordEntry) (env : Env) : Prop := {
  fin_inv : Inv (λ w, w ∈ all) env;
  fin_ledger : Ledger all pending env;
  fin_head : head all = Some firstWord;
  fin_first : head (placedWords env) = Some (firstPlacement firstWord);
  fin_one : numberLocations env
              !! cellKey (GRID_SIZE / 2) ((GRID_SIZE - len (word firstWord)) / 2) = Some 1;
  fin_inside : len (word firstWord) ≤ GRID_SIZE → insideGrid (newGrid env);
  fin_stalled : stalled env pending;
  fin_connected : connected (placedWords env)
}.

(** ** More concrete inputs *)

(** A run in which a word stays unplaced although it shares a letter with a
    placed word: SS meets CASA on its S only, next to the letters of GATO. *)
Definition scenarioBlocked : list WordEntry :=
  [mkEntry (js "GATO") (js "Animal domestico"); mkEntry (js "CASA") (js "Onde se mora");
   mkEntry (js "SS") (js "Dois esses")].

(** The closure state once GATO is written and recorded. *)
Definition afterFirstPlaced : Env :=
  match pushPlaced (firstPlacement (mkEntry (js "GATO") (js "Animal domestico")))
          afterFirstWord with
  | Returned (_, env) => env
  | _ => initialEnv
  end.

(** Two saved crosswords and an editor state on the first of them. *)
Definition savedOne : SavedCrossword :=
  {| id := 1700000000001; curricularComponent := js "Ciencias"; schoolYear := js "5";
     topic := js "Animais"; wordEntries := scenarioA; grid := ∅;
     cluesOfAcross := [{| number := 1; clueText := js "Animal domestico" |}];
     cluesOfDown := [{| number := 2; clueText := js "Onde se mora" |}] |}.

Definition savedTwo : SavedCrossword :=
  {| id := 1700000000002; curricularComponent := js "Ciencias"; schoolYear := js "5";
     topic := js "Casa"; wordEntries := scenarioA; grid := ∅;
     cluesOfAcross := [{| number := 1; clueText := js "Felino" |}];
     cluesOfDown := [{| number := 2; clueText := js "Lar" |}] |}.

Definition editorOnOne : EditorState :=
  {| appState := {| crosswordFormData := mkForm (js "Animais") (js "Ciencias") (js "5") scenarioA;
               savedCrosswords := [savedTwo; savedOne];
               activeCrosswordId := Some 1700000000001;
               generationError := None; isLoading := false; mobileView := viewer |};
     isEditingCrossword := false; editedClues := None |}.

(** A grid of 30 rows whose first row is the row of [tinyGrid]. *)
Definition thirtyRows : Viewer.PuzzleGrid := tinyGrid ++ replicate 29 (replicate 3 None).

(** * Properties *)

(** ** The keys [`${row}-${col}`] *)

Lemma pretty_N_char_no_hyphen x : pretty_N_char x ≠ "-"%char.
Proof. unfold pretty_N_char. by repeat case_match. Qed.

Lemma pretty_N_go_hyphenFree x s : hyphenFree s → hyphenFree (pretty_N_go x s).
Proof.
  revert s. induction (N.lt_wf_0 x) as [x _ IH]; intros s Hs.
  assert (x = 0 ∨ 0 < x)%N as [->|?] by lia.
  - by rewrite pretty_N_go_0.
  - rewrite pretty_N_go_step by done. apply IH.
    + by apply N.div_lt.
    + split; [apply pretty_N_char_no_hyphen | done].
Qed.

Lemma pretty_N_hyphenFree (x : N) : hyphenFree (pretty x).
Proof.
  unfold pretty, pretty_N. case_decide; [by compute|].
  by apply pretty_N_go_hyphenFree.
Qed.

Lemma pretty_Z_hyphenFree (r : Z) : 0 ≤ r → hyphenFree (pretty r).
Proof.
  destruct r as [|p|p]; intros Hr; [by compute| |lia].
  apply (pretty_N_hyphenFree (N.pos p)).
Qed.

Lemma split_at_hyphen a a' b b' :
  hyphenFree a → hyphenFree a' → a +:+ "-" +:+ b = a' +:+ "-" +:+ b' → a = a' ∧ b = b'.
Proof.
  revert a'. induction a as [|x a IH]; intros [|x' a'] Ha Ha' Heq; simpl in *.
  - by simplify_eq.
  - destruct Ha' as [Hx' _]. by simplify_eq.
  - destruct Ha as [Hx _]. by simplify_eq.
  - destruct Ha as [_ Ha], Ha' as [_ Ha']. simplify_eq.
    destruct (IH a' Ha Ha') as [-> ->]; done.
Qed.

(** Two cells in rows that are not negative have different keys. *)
Lemma cellKey_inj r c r' c' :
  0 ≤ r → 0 ≤ r' → cellKey r c = cellKey r' c' → r = r' ∧ c = c'.
Proof.
  intros Hr Hr' Heq. unfold cellKey in Heq.
  apply split_at_hyphen in Heq as [Hr1 Hc1]; auto using pretty_Z_hyphenFree.
  split; by apply (inj pretty).
Qed.

(** ** Arrays with their indices *)

Lemma enumerateFrom_lookup {A} (l : list A) i n :
  enumerateFrom i l !! n = (λ x, (i + Z.of_nat n, x)) <$> l !! n.
Proof.
  revert i n. induction l as [|x l IH]; intros i [|n]; simpl; try done.
  - by rewrite Z.add_0_r.
  - rewrite IH. destruct (l !! n); simpl; [|done]. do 2 f_equal. lia.
Qed.

Lemma elem_of_enumerateFrom {A} (l : list A) i k x :
  (k, x) ∈ enumerateFrom i l ↔ i ≤ k ∧ l !! Z.to_nat (k - i) = Some x.
Proof.
  rewrite list_elem_of_lookup. split.
  - intros [n Hn]. rewrite enumerateFrom_lookup in Hn.
    destruct (l !! n) eqn:Hl; simplify_eq/=.
    split; [lia|]. by replace (Z.to_nat (i + Z.of_nat n - i)) with n by lia.
  - intros [Hik Hl]. exists (Z.to_nat (k - i)). rewrite enumerateFrom_lookup, Hl. simpl.
    do 2 f_equal. lia.
Qed.

(** ** The interactive solver *)

Module ViewerFacts.
Import Viewer.

(** The handler itself has no test of [isChecking]: called while checking,
    it would store the value. The lock is the [disabled] attribute. *)
Lemma handleInputChange_stores `{Unicode} grid text row col st :
  userInput (handleInputChange grid text row col st).1 !! cellKey row col
  = Some (normalizeString text).
Proof. simpl. apply lookup_insert_eq. Qed.

(** What one row adds to [solution], seen from the key of a cell. *)
Lemma revealRow_lookup r (cells : list (option Cell)) (sol : gmap string jsstring) r' c' i :
  0 ≤ r → 0 ≤ r' →
  fold_left (λ sol '(c, cell),
      match cell with
      | Some cell => <[cellKey r c := letter cell]> sol
      | None => sol
      end) (enumerateFrom i cells) sol !! cellKey r' c' =
  match (if bool_decide (r' = r ∧ i ≤ c') then cells !! Z.to_nat (c' - i) else None) with
  | Some (Some cell) => Some (letter cell)
  | _ => sol !! cellKey r' c'
  end.
Proof.
  intros Hr Hr'. revert sol i. induction cells as [|x cells IH]; intros sol i; simpl.
  - by case_bool_decide.
  - rewrite IH. case_bool_decide as Hlater.
    + destruct Hlater as [-> Hle]. rewrite bool_decide_eq_true_2 by lia.
      replace (Z.to_nat (c' - i)) with (S (Z.to_nat (c' - (i + 1)))) by lia. simpl.
      destruct (cells !! Z.to_nat (c' - (i + 1))) as [[cell|]|] eqn:Hc; try done.
      all: destruct x as [cell0|]; try done.
      all: rewrite lookup_insert_ne; [done|].
      all: intros Hk; apply cellKey_inj in Hk; lia.
    + case_bool_decide as Hnow.
      * destruct Hnow as [-> Hle]. assert (c' = i) as -> by lia.
        rewrite Z.sub_diag. simpl. destruct x as [cell0|]; [|done].
        by rewrite lookup_insert_eq.
      * destruct x as [cell0|]; [|done].
        rewrite lookup_insert_ne; [done|].
        intros Hk; apply cellKey_inj in Hk; [|lia..]. lia.
Qed.

Lemma solution_lookup (g : PuzzleGrid) (sol : gmap string jsstring) r' c' i :
  0 ≤ i → 0 ≤ r' →
  fold_left (λ sol '(r, cells), revealRow r cells sol) (enumerateFrom i g) sol !! cellKey r' c' =
  match (if bool_decide (i ≤ r') then g !! Z.to_nat (r' - i) else None) with
  | Some cells =>
      match (if bool_decide (0 ≤ c') then cells !! Z.to_nat c' else None) with
      | Some (Some cell) => Some (letter cell)
      | _ => sol !! cellKey r' c'
      end
  | None => sol !! cellKey r' c'
  end.
Proof.
  intros Hi Hr'. revert sol i Hi. induction g as [|x g IH]; intros sol i Hi; simpl.
  - by case_bool_decide.
  - rewrite IH by lia.
    assert (revealRow i x sol !! cellKey r' c' =
      match (if bool_decide (r' = i ∧ 0 ≤ c') then x !! Z.to_nat c' else None) with
      | Some (Some cell) => Some (letter cell)
      | _ => sol !! cellKey r' c'
      end) as Hrow.
    { unfold revealRow. rewrite revealRow_lookup by lia. by rewrite Z.sub_0_r. }
    rewrite !Hrow. clear Hrow IH.
    destruct (decide (i + 1 ≤ r')) as [Hlater|Hlater].
    + rewrite (bool_decide_eq_true_2 (i + 1 ≤ r')), (bool_decide_eq_true_2 (i ≤ r')) by lia.
      rewrite (bool_decide_eq_false_2 (r' = i ∧ _)) by lia.
      replace (Z.to_nat (r' - i)) with (S (Z.to_nat (r' - (i + 1)))) by lia. simpl.
      reflexivity.
    + rewrite (bool_decide_eq_false_2 (i + 1 ≤ r')) by lia.
      destruct (decide (r' = i)) as [->|Hne].
      * rewrite (bool_decide_eq_true_2 (i ≤ i)) by lia. rewrite Z.sub_diag. simpl.
        destruct (decide (0 ≤ c')).
        -- by rewrite !bool_decide_eq_true_2 by lia.
        -- by rewrite !bool_decide_eq_false_2 by lia.
      * rewrite (bool_decide_eq_false_2 (r' = i ∧ _)) by lia.
        by rewrite (bool_decide_eq_false_2 (i ≤ r')) by lia.
Qed.

(** [solution] holds the letter of every cell of the grid under its key. *)
Lemma solutionOf_cell (g : PuzzleGrid) r c cell :
  cellAt (Some g) r c = Some cell → solutionOf g !! cellKey r c = Some (letter cell).
Proof.
  unfold cellAt, index, solutionOf. intros Hcell.
  destruct (decide (0 ≤ r)) as [Hr|Hr];
    [rewrite bool_decide_eq_true_2 in Hcell by done
    |rewrite bool_decide_eq_false_2 in Hcell by done; done].
  destruct (g !! Z.to_nat r) as [cells|] eqn:Hrow; [|done].
  destruct (decide (0 ≤ c)) as [Hc|Hc];
    [rewrite bool_decide_eq_true_2 in Hcell by done
    |rewrite bool_decide_eq_false_2 in Hcell by done; done].
  destruct (cells !! Z.to_nat c) as [[cell'|]|] eqn:Hcol; simplify_eq.
  rewrite solution_lookup by lia.
  rewrite !bool_decide_eq_true_2 by lia. rewrite Z.sub_0_r, Hrow.
  by rewrite Hcol.
Qed.

End ViewerFacts.

(** The handler has a branch of its own for a place without a cell, which
    clears the selection.  The component never reaches it: the handler is the
    [onClick] of the inputs of the cells only. *)
Lemma handleCellClick_without_cell grid row col st :
  Viewer.cellAt grid row col = None →
  Viewer.handleCellClick grid row col st =
    {| Viewer.userInput := Viewer.userInput st;
       Viewer.selectedCell := None;
       Viewer.isChecking := Viewer.isChecking st |}.
Proof. intros Hnull. unfold Viewer.handleCellClick. by rewrite Hnull. Qed.



(** C8: while [isChecking] is true, typing into any cell leaves [userInput]
    unchanged (and the rest of the state with it): the [input] elements are
    disabled, so the change handler does not run. *)
Theorem C8_input_rejected_while_checking `{Unicode} grid text row col st :
  Viewer.isChecking st = true →
  Viewer.userInput (Viewer.inputTransition grid text row col st) = Viewer.userInput st
  ∧ Viewer.inputTransition grid text row col st = st.
Proof. intros Hchk. unfold Viewer.inputTransition. by rewrite Hchk. Qed.

Lemma C8_input_rejected_witness :
  let st := {| Viewer.userInput := {[ cellKey 0 1 := js "A" ]};
               Viewer.selectedCell := Some (Viewer.mkSelection 0 1 across);
               Viewer.isChecking := true |} in
  Viewer.isChecking st = true ∧
  Viewer.userInput (Viewer.inputTransition (H := Latin1.tables) (Some tinyGrid) (js "z") 0 1 st)
  = Viewer.userInput st.
Proof.
  split; [reflexivity|].
  apply (C8_input_rejected_while_checking (H := Latin1.tables) (Some tinyGrid) (js "z") 0 1).
  reflexivity.
Defined.

(** C9: from every solver state, Reveal followed by Reset gives the initial
    state: [userInput] empty, no selection, [isChecking] false. *)
Theorem C9_reveal_then_reset_is_initial grid st :
  Viewer.handleReset (Viewer.handleReveal grid st) = Viewer.initialState.
Proof. reflexivity. Qed.

(** C10: Reveal leaves [selectedCell] as it was; on a puzzle with a grid it
    replaces [userInput] by the solution (which holds the letter of every
    grid cell under the cell's key, [ViewerFacts.solutionOf_cell]) and sets
    [isChecking] to false.  Reset is the transition that clears the
    selection. *)
Theorem C10_reveal_keeps_selection grid g st :
  Viewer.selectedCell (Viewer.handleReveal grid st) = Viewer.selectedCell st
  ∧ Viewer.handleReveal (Some g) st =
      {| Viewer.userInput := Viewer.solutionOf g;
         Viewer.selectedCell := Viewer.selectedCell st;
         Viewer.isChecking := false |}
  ∧ Viewer.selectedCell (Viewer.handleReset st) = None.
Proof. split; [by destruct grid|]. by split. Qed.

(** ** Word normalization *)

Lemma lastBinding_snoc {V} (l : list (jsstring * V)) k0 v0 k v :
  lastBinding (l ++ [(k0, v0)]) k v ↔ (k = k0 ∧ v = v0) ∨ (k ≠ k0 ∧ lastBinding l k v).
Proof.
  split.
  - intros (l1 & l2 & Heq & Hnot).
    destruct l2 as [|x l2 _] using rev_ind.
    + apply app_inj_tail in Heq as [_ ?]. left. by simplify_eq.
    + rewrite app_comm_cons, app_assoc in Heq.
      apply app_inj_tail in Heq as [-> <-]. right.
      rewrite fmap_app, not_elem_of_app in Hnot. destruct Hnot as [Hl2 Hk0].
      split; [|by exists l1, l2].
      intros ->. apply Hk0. apply list_elem_of_here.
  - intros [[-> ->]|[Hne (l1 & l2 & -> & Hnot)]].
    + exists l, []. split; [done|]. apply not_elem_of_nil.
    + exists l1, (l2 ++ [(k0, v0)]). split; [by rewrite <- app_assoc|].
      rewrite fmap_app. apply not_elem_of_app. split; [done|].
      by intros ?%list_elem_of_singleton.
Qed.

Lemma mapSet_keys {V} k (v : V) m :
  (mapSet k v m).*1 = if decide (k ∈ m.*1) then m.*1 else m.*1 ++ [k].
Proof.
  induction m as [|[k' v'] m IH]; [done|].
  cbn [mapSet]. destruct (decide (k = k')) as [->|Hne]; rewrite !fmap_cons; cbn [fst].
  - rewrite decide_True by apply list_elem_of_here. done.
  - rewrite IH. destruct (decide (k ∈ m.*1)) as [Hin|Hin].
    + rewrite decide_True by (by apply list_elem_of_further). done.
    + rewrite decide_False; [done|]. by intros [?|?]%elem_of_cons.
Qed.

Lemma mapSet_NoDup {V} k (v : V) m : NoDup m.*1 → NoDup (mapSet k v m).*1.
Proof.
  intros Hm. rewrite mapSet_keys. case_decide; [done|].
  apply NoDup_app. split_and!; [done| |apply NoDup_singleton].
  by intros x Hx ->%list_elem_of_singleton.
Qed.

Lemma elem_of_mapSet {V} k (v : V) m k' v' :
  NoDup m.*1 →
  (k', v') ∈ mapSet k v m ↔ (k' = k ∧ v' = v) ∨ (k' ≠ k ∧ (k', v') ∈ m).
Proof.
  induction m as [|[k1 v1] m IH]; simpl; intros Hnd.
  - rewrite list_elem_of_singleton. split.
    + intros [= -> ->]. by left.
    + by intros [[-> ->]|[_ ?%elem_of_nil]].
  - apply NoDup_cons in Hnd as [Hk1 Hnd].
    destruct (decide (k = k1)) as [->|Hne].
    + rewrite !elem_of_cons. split.
      * intros [?|Hin]; simplify_eq; [by left|]. right. split; [|by right].
        intros ->. apply Hk1. apply list_elem_of_fmap. by exists (k1, v').
      * intros [[-> ->]|[Hne [?|Hin]]]; simplify_eq; auto.
    + rewrite !elem_of_cons, IH by done. split.
      * intros [?|[?|[??]]]; simplify_eq; auto.
      * intros [?|[? [?|?]]]; simplify_eq; auto.
Qed.

Lemma newMap_snoc {V} (pairs : list (jsstring * V)) k v :
  newMap (pairs ++ [(k, v)]) = mapSet k v (newMap pairs).
Proof. unfold newMap. by rewrite fold_left_app. Qed.

Lemma newMap_spec {V} (pairs : list (jsstring * V)) :
  NoDup (newMap pairs).*1 ∧ ∀ k v, (k, v) ∈ newMap pairs ↔ lastBinding pairs k v.
Proof.
  induction pairs as [|[k0 v0] pairs [IHnd IH]] using rev_ind.
  - split; [apply NoDup_nil_2|]. intros k v. split; [by intros ?%elem_of_nil|].
    intros (l1 & l2 & Heq & _). by destruct l1.
  - rewrite newMap_snoc. split; [by apply mapSet_NoDup|].
    intros k v. rewrite elem_of_mapSet, lastBinding_snoc, IH by done. done.
Qed.

Lemma insertByLength_perm x l : insertByLength x l ≡ₚ x :: l.
Proof.
  induction l as [|y l IH]; simpl; [done|].
  case_match; [|done]. rewrite IH. apply Permutation_swap.
Qed.

Lemma sortByLength_perm l : sortByLength l ≡ₚ l.
Proof.
  induction l as [|x l IH]; simpl; [done|].
  by rewrite insertByLength_perm, IH.
Qed.

Lemma last_occurrence {A B} `{EqDecision B} (f : A → B) (l : list A) k :
  k ∈ f <$> l → ∃ l1 y l2, l = l1 ++ y :: l2 ∧ f y = k ∧ k ∉ f <$> l2.
Proof.
  induction l as [|a l IH]; [by intros ?%elem_of_nil|].
  intros Hin. destruct (decide (k ∈ f <$> l)) as [Hl|Hl].
  - destruct (IH Hl) as (l1 & y & l2 & -> & Hy & Hnot).
    by exists (a :: l1), y, l2.
  - rewrite fmap_cons in Hin. apply elem_of_cons in Hin as [->|?]; [|done].
    by exists [], a, l.
Qed.

Lemma elem_of_dedupe (words : list WordEntry) x :
  x ∈ dedupe words ↔ ∃ l1 l2, words = l1 ++ x :: l2 ∧ word x ∉ word <$> l2.
Proof.
  unfold dedupe, mapValues. rewrite list_elem_of_fmap. split.
  - intros ([k x'] & -> & Hin). simpl.
    apply newMap_spec in Hin as (p1 & p2 & Heq & Hnot).
    apply fmap_app_inv in Heq as (l1 & l2' & -> & Heq & ->).
    symmetry in Heq. apply fmap_cons_inv in Heq as (y & l2 & ? & -> & ->). simplify_eq.
    exists l1, l2. split; [done|]. by rewrite <- list_fmap_compose in Hnot.
  - intros (l1 & l2 & -> & Hnot). exists (word x, x). split; [done|].
    apply newMap_spec. exists ((λ item, (word item, item)) <$> l1), ((λ item, (word item, item)) <$> l2).
    split; [by rewrite fmap_app|]. by rewrite <- list_fmap_compose.
Qed.

Lemma dedupe_subseteq (words : list WordEntry) x : x ∈ dedupe words → x ∈ words.
Proof.
  intros (l1 & l2 & -> & _)%elem_of_dedupe.
  apply elem_of_app. right. apply list_elem_of_here.
Qed.

Lemma dedupe_NoDup (words : list WordEntry) : NoDup (word <$> dedupe words).
Proof.
  unfold dedupe, mapValues.
  destruct (newMap_spec ((λ item, (word item, item)) <$> words)) as [Hnd Hspec].
  replace (word <$> (snd <$> newMap ((λ item, (word item, item)) <$> words)))
    with (newMap ((λ item, (word item, item)) <$> words)).*1; [done|].
  rewrite <- list_fmap_compose. apply Forall_fmap_ext_1, Forall_forall.
  intros [k x] Hin. apply Hspec in Hin as (p1 & p2 & Heq & _).
  apply fmap_app_inv in Heq as (l1 & l2' & -> & Heq & ->).
  symmetry in Heq. apply fmap_cons_inv in Heq as (y & l2 & ? & -> & ->). by simplify_eq.
Qed.

Lemma dedupe_covers (words : list WordEntry) x :
  x ∈ words → ∃ y, y ∈ dedupe words ∧ word y = word x.
Proof.
  intros Hin.
  destruct (last_occurrence word words (word x)) as (l1 & y & l2 & -> & Hy & Hnot).
  { apply list_elem_of_fmap. by exists x. }
  exists y. split; [|done]. apply elem_of_dedupe. exists l1, l2. by rewrite Hy.
Qed.

Section NormalizerFacts.
Context `{Unicode}.

Lemma elem_of_normalizeWords wordEntries item :
  item ∈ normalizeWords wordEntries ↔
  item ∈ dedupe (filter (λ item, keepItem item = true) (normalizeEntry <$> wordEntries)).
Proof. unfold normalizeWords. by rewrite sortByLength_perm. Qed.

Lemma keepItem_true item :
  keepItem item = true ↔ (2 ≤ length (word item))%nat ∧ clue item ≠ [].
Proof.
  unfold keepItem. rewrite andb_true_iff, !Nat.ltb_lt.
  destruct (clue item); simpl; split; intros [??]; split; try done; lia.
Qed.

(** Every word of the list is the normalization of an entry of the form and
    has at least two code units, and its clue, trimmed, is not empty. *)
Lemma normalizeWords_sound wordEntries item :
  item ∈ normalizeWords wordEntries →
  ∃ entry, entry ∈ wordEntries ∧ item = normalizeEntry entry
    ∧ (2 ≤ length (word item))%nat ∧ clue item ≠ [].
Proof.
  rewrite elem_of_normalizeWords. intros Hin%dedupe_subseteq.
  apply list_elem_of_filter in Hin as [Hkeep Hin].
  apply list_elem_of_fmap in Hin as (entry & -> & Hin).
  exists entry. split; [done|]. split; [done|]. by apply keepItem_true.
Qed.

(** The filter is the test of the source and nothing more: an entry that
    passes it, whatever the length of its word or the characters in it, has
    its word in the list. *)
Lemma normalizeWords_keeps wordEntries entry :
  entry ∈ wordEntries → keepItem (normalizeEntry entry) = true →
  ∃ item, item ∈ normalizeWords wordEntries ∧ word item = normalizeString (word entry).
Proof.
  intros Hin Hkeep.
  destruct (dedupe_covers (filter (λ item, keepItem item = true) (normalizeEntry <$> wordEntries))
              (normalizeEntry entry)) as (item & Hitem & Hword).
  { apply list_elem_of_filter. split; [done|]. apply list_elem_of_fmap. by exists entry. }
  exists item. split; [by apply elem_of_normalizeWords|done].
Qed.

Lemma normalizeWords_NoDup wordEntries : NoDup (word <$> normalizeWords wordEntries).
Proof.
  unfold normalizeWords. rewrite sortByLength_perm. apply dedupe_NoDup.
Qed.

Lemma normalizeWords_long wordEntries :
  Forall (λ w, 2 ≤ len (word w)) (normalizeWords wordEntries).
Proof.
  apply Forall_forall. intros item (entry & _ & _ & Hlen & _)%normalizeWords_sound.
  unfold len. lia.
Qed.
End NormalizerFacts.

(** C1 (as amended): for every raw list of entries, every entry of the
    resulting list comes from a raw entry whose word, NOT trimmed, went
    through NFD decomposition, the removal of the combining marks U+0300 to
    U+036F and upper-casing, and whose clue was trimmed; its word has at least
    two code units and its clue is not empty (so an entry whose normalized
    word is empty or has length 1, or whose trimmed clue is empty, is
    dropped).  An entry whose normalized word has 2 to 15 code units and no
    space or hyphen, and whose trimmed clue is not empty, is not dropped: the
    list holds an item with its word.  No two items have the same word, and of
    the valid entries with the same normalized word the last one in input
    order is the one kept. *)
Theorem C1_normalization `{Unicode} (wordEntries : list WordEntry) :
  (∀ item, item ∈ normalizeWords wordEntries →
     ∃ entry, entry ∈ wordEntries
       ∧ word item = normalizeString (word entry) ∧ clue item = trim (clue entry)
       ∧ (2 ≤ length (word item))%nat ∧ clue item ≠ [])
  ∧ (∀ entry, entry ∈ wordEntries →
       (2 ≤ length (normalizeString (word entry)) ≤ 15)%nat →
       SPACE ∉ normalizeString (word entry) → HYPHEN ∉ normalizeString (word entry) →
       trim (clue entry) ≠ [] →
       ∃ item, item ∈ normalizeWords wordEntries ∧ word item = normalizeString (word entry))
  ∧ NoDup (word <$> normalizeWords wordEntries)
  ∧ (∀ before entry after, wordEntries = before ++ entry :: after →
       (2 ≤ length (normalizeString (word entry)))%nat → trim (clue entry) ≠ [] →
       (∀ later, later ∈ after →
          normalizeString (word later) = normalizeString (word entry) →
          trim (clue later) = []) →
       normalizeEntry entry ∈ normalizeWords wordEntries).
Proof.
  split_and!.
  - intros item (entry & Hin & -> & Hlen & Hclue)%normalizeWords_sound.
    by exists entry.
  - intros entry Hin [Hlen _] _ _ Hclue.
    apply normalizeWords_keeps; [done|]. by apply keepItem_true.
  - apply normalizeWords_NoDup.
  - intros before entry after -> Hlen Hclue Hlater.
    apply elem_of_normalizeWords, elem_of_dedupe.
    rewrite fmap_app, fmap_cons, filter_app, filter_cons_True by (by apply keepItem_true).
    eexists _, _. split; [done|].
    intros (item & Hword & Hin)%list_elem_of_fmap.
    apply list_elem_of_filter in Hin as [Hkeep Hin].
    apply list_elem_of_fmap in Hin as (later & -> & Hin).
    apply keepItem_true in Hkeep as [_ Hne]. apply Hne. simpl in *.
    by apply Hlater.
Qed.

Lemma C1_normalization_witness :
  normalizeEntry (H := Latin1.tables) (mkEntry (js "sol") (js " Astro "))
  ∈ normalizeWords (H := Latin1.tables)
      [mkEntry (js "sol") (js "Estrela"); mkEntry (js "sol") (js " Astro ");
       mkEntry (js "SOL") (js "  ")].
Proof.
  destruct (C1_normalization (H := Latin1.tables)
      [mkEntry (js "sol") (js "Estrela"); mkEntry (js "sol") (js " Astro ");
       mkEntry (js "SOL") (js "  ")]) as (_ & _ & _ & Hlast).
  apply (Hlast [mkEntry (js "sol") (js "Estrela")] _ [mkEntry (js "SOL") (js "  ")]).
  - reflexivity.
  - vm_compute. lia.
  - discriminate.
  - intros later Hin _. apply list_elem_of_singleton in Hin. subst later. reflexivity.
Defined.

(** C1 as stated fails: the word of the first entry keeps its leading space,
    and the entries with a hyphen and with 22 letters survive, where the
    normalizer of the specification keeps the single word SOL. *)
Lemma C1_normalization_counterexample :
  let raw := [mkEntry (js " sol") (js "Estrela");
              mkEntry (js "GUARDA-CHUVA") (js "Abrigo");
              mkEntry (js "OTORRINOLARINGOLOGISTA") (js "Medico")] in
  normalizeWords (H := Latin1.tables) raw
  = [mkEntry (js "OTORRINOLARINGOLOGISTA") (js "Medico");
     mkEntry (js "GUARDA-CHUVA") (js "Abrigo");
     mkEntry (js " SOL") (js "Estrela")]
  ∧ Spec.normalizeWords (H := Latin1.tables) raw = [mkEntry (js "SOL") (js "Estrela")].
Proof. split; reflexivity. Qed.

(** ** Reasoning on the closure state *)

Lemma readOnly_ret {A} (a : A) : readOnly (ret a).
Proof. intros env a' env' [= _ ->]. done. Qed.

Lemma readOnly_bind {A B} (m : M A) (f : A → M B) :
  readOnly m → (∀ a, readOnly (f a)) → readOnly (bind m f).
Proof.
  intros Hm Hf env b env'. unfold bind.
  destruct (m env) as [[a env1]| |] eqn:Hrun; [|done..].
  intros Hrun'. apply Hm in Hrun as ->. by apply Hf in Hrun'.
Qed.

Lemma readOnly_readCell r c : readOnly (readCell r c).
Proof. intros env a env'. unfold readCell. case_match; [|done]. by intros [= _ ->]. Qed.

Lemma readOnly_peekCell r c : readOnly (peekCell r c).
Proof. intros env a env'. unfold peekCell. by intros [= _ ->]. Qed.

Lemma readOnly_getPlaced : readOnly getPlaced.
Proof. intros env a env'. unfold getPlaced. by intros [= _ ->]. Qed.

Lemma readOnly_if {A} (b : bool) (m1 m2 : M A) :
  readOnly m1 → readOnly m2 → readOnly (if b then m1 else m2).
Proof. by destruct b. Qed.

Lemma readOnly_occupiedWhen guard r c : readOnly (occupiedWhen guard r c).
Proof.
  unfold occupiedWhen. apply readOnly_if; [|apply readOnly_ret].
  apply readOnly_bind; [apply readOnly_readCell|]. intros. apply readOnly_ret.
Qed.

Create HintDb readonly.
#[export] Hint Resolve readOnly_ret readOnly_readCell readOnly_peekCell readOnly_getPlaced
  readOnly_occupiedWhen : readonly.

Ltac read_only :=
  repeat first
    [ progress auto with readonly
    | apply readOnly_bind; [|intros ?]
    | apply readOnly_if
    | match goal with |- readOnly (match ?x with _ => _ end) => destruct x end ].

Lemma readOnly_scanAcross rest row col i : readOnly (scanAcross rest row col i).
Proof. revert i. induction rest as [|ch rest IH]; intros i; simpl; read_only. Qed.

Lemma readOnly_scanDown rest row col i : readOnly (scanDown rest row col i).
Proof. revert i. induction rest as [|ch rest IH]; intros i; simpl; read_only. Qed.

#[export] Hint Resolve readOnly_scanAcross readOnly_scanDown : readonly.

(** [canPlaceWord] leaves the closure state as it found it. *)
Lemma readOnly_canPlaceWord word row col direction :
  readOnly (canPlaceWord word row col direction).
Proof. unfold canPlaceWord. read_only. Qed.

Lemma readOnly_forEach {A S} (l : list A) (body : A → S → M S) s :
  (∀ x s, readOnly (body x s)) → readOnly (forEach l body s).
Proof. intros Hbody. revert s. induction l as [|x l IH]; intros s; simpl; read_only. Qed.

Lemma bind_returned {A B} (m : M A) (f : A → M B) env a env' :
  m env = Returned (a, env') → bind m f env = f a env'.
Proof. intros Hm. unfold bind. by rewrite Hm. Qed.

Lemma rowExists_true r : 0 ≤ r < GRID_SIZE → rowExists r = true.
Proof. intros. by apply bool_decide_eq_true_2. Qed.

Lemma readCell_run r c env :
  0 ≤ r < GRID_SIZE → readCell r c env = Returned (newGrid env !! (r, c), env).
Proof. intros Hr. unfold readCell. by rewrite rowExists_true. Qed.

Lemma occupiedWhen_run guard r c env :
  (guard = true → 0 ≤ r < GRID_SIZE) →
  occupiedWhen guard r c env
  = Returned (guard && bool_decide (is_Some (newGrid env !! (r, c))), env).
Proof.
  intros Hr. unfold occupiedWhen. destruct guard; [|done].
  by rewrite (bind_returned _ _ _ _ _ (readCell_run r c env (Hr eq_refl))).
Qed.

Lemma bind_occupiedWhen {B} guard r c (f : bool → M B) env :
  (guard = true → 0 ≤ r < GRID_SIZE) →
  bind (occupiedWhen guard r c) f env
  = f (guard && bool_decide (is_Some (newGrid env !! (r, c)))) env.
Proof. intros Hr. by rewrite (bind_returned _ _ _ _ _ (occupiedWhen_run guard r c env Hr)). Qed.

Ltac side_row := first [done | intros ?%bool_decide_eq_true; grid_lia].

Lemma occupied_false (g : gmap (Z * Z) Cell) (P : Prop) `{Decision P} p :
  bool_decide P && bool_decide (is_Some (g !! p)) = false ↔ (P → g !! p = None).
Proof.
  destruct (decide P) as [HP|HP].
  - rewrite (bool_decide_eq_true_2 P HP). simpl. rewrite bool_decide_eq_false.
    rewrite <- eq_None_not_Some. naive_solver.
  - rewrite (bool_decide_eq_false_2 P HP). simpl. naive_solver.
Qed.

Lemma lookup_cons_shift {A} (P : Z → A → Prop) x (l : list A) i :
  (∀ k y, (x :: l) !! k = Some y → P (i + Z.of_nat k) y)
  ↔ P i x ∧ ∀ k y, l !! k = Some y → P (i + 1 + Z.of_nat k) y.
Proof.
  split.
  - intros Hall. split.
    + specialize (Hall 0%nat x eq_refl). by rewrite Z.add_0_r in Hall.
    + intros k y Hk. specialize (Hall (S k) y Hk).
      by replace (i + 1 + Z.of_nat k) with (i + Z.of_nat (S k)) by lia.
  - intros [H0 Hall] [|k] y Hk; simplify_eq/=.
    + by rewrite Z.add_0_r.
    + replace (i + Z.of_nat (S k)) with (i + 1 + Z.of_nat k) by lia. by apply Hall.
Qed.

Lemma scanAcross_run rest row col i env :
  0 ≤ row < GRID_SIZE →
  ∃ b, scanAcross rest row col i env = Returned (b, env)
       ∧ (b = true ↔ ∀ k ch, rest !! k = Some ch →
                       letterFits (newGrid env) across row col (i + Z.of_nat k) ch).
Proof.
  intros Hrow. revert i. induction rest as [|ch rest IH]; intros i.
  - exists true. split; [done|]. split; [|done]. by intros _ k ch' ?.
  - cbn [scanAcross]. rewrite (bind_returned _ _ _ _ _ (readCell_run row (col + i) env Hrow)).
    pose proof (lookup_cons_shift (letterFits (newGrid env) across row col) ch rest i) as Hshift.
    unfold letterFits at 2, cellPos in Hshift.
    destruct (newGrid env !! (row, col + i)) as [c|] eqn:Hcell.
    + case_bool_decide as Hletter.
      * exists false. split; [done|]. rewrite Hshift. split; [done|]. by intros [? _].
      * destruct (IH (i + 1)) as (b & Hrun & Hb). exists b. split; [done|].
        rewrite Hshift, Hb. tauto.
    + rewrite (bind_occupiedWhen (bool_decide (row > 0)) (row - 1) (col + i)) by side_row.
      destruct (_ && _) eqn:Habove.
      { exists false. split; [done|]. rewrite Hshift. split; [done|]. intros [[Hup _] _].
        apply (occupied_false (newGrid env) (row > 0)) in Hup. congruence. }
      rewrite (bind_occupiedWhen (bool_decide (row < GRID_SIZE - 1)) (row + 1) (col + i)) by side_row.
      destruct (bool_decide (row < GRID_SIZE - 1) && _) eqn:Hbelow.
      { exists false. split; [done|]. rewrite Hshift. split; [done|]. intros [[_ Hdn] _].
        apply (occupied_false (newGrid env) (row < GRID_SIZE - 1)) in Hdn. congruence. }
      destruct (IH (i + 1)) as (b & Hrun & Hb). exists b. split; [done|].
      rewrite Hshift, Hb. rewrite occupied_false in Habove, Hbelow. unfold sidesFree. tauto.
Qed.

Lemma scanDown_run rest row col i env :
  0 ≤ row + i → row + i + len rest ≤ GRID_SIZE →
  ∃ b, scanDown rest row col i env = Returned (b, env)
       ∧ (b = true ↔ ∀ k ch, rest !! k = Some ch →
                       letterFits (newGrid env) down row col (i + Z.of_nat k) ch).
Proof.
  revert i. induction rest as [|ch rest IH]; intros i Hlo Hhi.
  - exists true. split; [done|]. split; [|done]. by intros _ k ch' ?.
  - unfold len in Hhi. cbn [length] in Hhi.
    assert (0 ≤ row + i < GRID_SIZE) as Hrow by lia.
    cbn [scanDown]. rewrite (bind_returned _ _ _ _ _ (readCell_run (row + i) col env Hrow)).
    pose proof (lookup_cons_shift (letterFits (newGrid env) down row col) ch rest i) as Hshift.
    unfold letterFits at 2, cellPos in Hshift.
    destruct (IH (i + 1)) as (b & Hrun & Hb); [lia|unfold len; lia|].
    destruct (newGrid env !! (row + i, col)) as [c|] eqn:Hcell.
    + case_bool_decide as Hletter.
      * exists false. split; [done|]. rewrite Hshift. split; [done|]. by intros [? _].
      * exists b. split; [done|]. rewrite Hshift, Hb. tauto.
    + rewrite (bind_occupiedWhen (bool_decide (col > 0)) (row + i) (col - 1)) by side_row.
      destruct (_ && _) eqn:Hleft.
      { exists false. split; [done|]. rewrite Hshift. split; [done|]. intros [[Hl _] _].
        apply (occupied_false (newGrid env) (col > 0)) in Hl. congruence. }
      rewrite (bind_occupiedWhen (bool_decide (col < GRID_SIZE - 1)) (row + i) (col + 1)) by side_row.
      destruct (bool_decide (col < GRID_SIZE - 1) && _) eqn:Hright.
      { exists false. split; [done|]. rewrite Hshift. split; [done|]. intros [[_ Hr] _].
        apply (occupied_false (newGrid env) (col < GRID_SIZE - 1)) in Hr. congruence. }
      exists b. split; [done|].
      rewrite Hshift, Hb. rewrite occupied_false in Hleft, Hright. unfold sidesFree. tauto.
Qed.

Lemma canPlaceWord_run word row col d env :
  (d = across → row < GRID_SIZE) →
  ∃ b, canPlaceWord word row col d env = Returned (b, env)
       ∧ (b = true ↔ feasible (newGrid env) word row col d).
Proof.
  intros Hperp. unfold canPlaceWord, feasible, fitsAlong.
  case_bool_decide as Hneg.
  { exists false. split; [done|]. split; [done|]. lia. }
  destruct d.
  - specialize (Hperp eq_refl). assert (0 ≤ row < GRID_SIZE) as Hrow by lia.
    case_bool_decide as Hfit.
    { exists false. split; [done|]. split; [done|]. lia. }
    rewrite (bind_occupiedWhen (bool_decide (col > 0)) row (col - 1)) by side_row.
    destruct (_ && _) eqn:Hbefore.
    { exists false. split; [done|]. split; [done|]. intros (_ & [Hb _] & _).
      apply (occupied_false (newGrid env) (col > 0)) in Hb. congruence. }
    rewrite (bind_occupiedWhen (bool_decide (col + len word < GRID_SIZE)) row (col + len word)) by side_row.
    destruct (bool_decide (col + len word < GRID_SIZE) && _) eqn:Hafter.
    { exists false. split; [done|]. split; [done|]. intros (_ & [_ Ha] & _).
      apply (occupied_false (newGrid env) (col + len word < GRID_SIZE)) in Ha. congruence. }
    destruct (scanAcross_run word row col 0 env Hrow) as (b & Hrun & Hb).
    exists b. split; [done|]. rewrite Hb. rewrite occupied_false in Hbefore, Hafter.
    unfold endsClear. split.
    + intros Hall. split_and!; try done; try lia.
    + intros (_ & _ & Hall). done.
  - case_bool_decide as Hfit.
    { exists false. split; [done|]. split; [done|]. lia. }
    rewrite (bind_occupiedWhen (bool_decide (row > 0)) (row - 1) col) by side_row.
    destruct (_ && _) eqn:Hbefore.
    { exists false. split; [done|]. split; [done|]. intros (_ & [Hb _] & _).
      apply (occupied_false (newGrid env) (row > 0)) in Hb. congruence. }
    rewrite (bind_occupiedWhen (bool_decide (row + len word < GRID_SIZE)) (row + len word) col) by side_row.
    destruct (bool_decide (row + len word < GRID_SIZE) && _) eqn:Hafter.
    { exists false. split; [done|]. split; [done|]. intros (_ & [_ Ha] & _).
      apply (occupied_false (newGrid env) (row + len word < GRID_SIZE)) in Ha. congruence. }
    destruct (scanDown_run word row col 0 env) as (b & Hrun & Hb); [lia..|].
    exists b. split; [done|]. rewrite Hb. rewrite occupied_false in Hbefore, Hafter.
    unfold endsClear. split.
    + intros Hall. split_and!; try done; try lia.
    + intros (_ & _ & Hall). done.
Qed.

Lemma gridCell_inside g p : inGrid p → gridCell g p = g !! p.
Proof. intros Hp. unfold gridCell. by rewrite bool_decide_eq_true_2. Qed.

Lemma gridCell_None_iff g p (P : Prop) :
  (inGrid p ↔ P) → gridCell g p = None ↔ (P → g !! p = None).
Proof.
  intros HP. unfold gridCell. case_bool_decide as Hin.
  - tauto.
  - split; [|done]. intros _ HP'. tauto.
Qed.

Lemma letterFits_inside g word row col d i ch :
  fitsInside word row col d → word !! i = Some ch →
  letterFits g d row col (Z.of_nat i) ch ↔
  let p := cellPos d row col (Z.of_nat i) in
  (∃ cell, gridCell g p = Some cell ∧ letter cell = [ch])
  ∨ (gridCell g p = None
     ∧ gridCell g (sideCells d p).1 = None ∧ gridCell g (sideCells d p).2 = None).
Proof.
  intros (Hrow & Hcol & Hfit) Hi. apply lookup_lt_Some in Hi.
  assert (inGrid (cellPos d row col (Z.of_nat i))) as Hin.
  { unfold inGrid, cellPos. destruct d; simpl; grid_lia. }
  cbv zeta. rewrite (gridCell_inside g _ Hin). unfold letterFits.
  assert (sidesFree g d row col (Z.of_nat i) ↔
          gridCell g (sideCells d (cellPos d row col (Z.of_nat i))).1 = None
          ∧ gridCell g (sideCells d (cellPos d row col (Z.of_nat i))).2 = None) as Hsides.
  { unfold sidesFree, sideCells, cellPos. destruct d; cbn [fst snd].
    - rewrite (gridCell_None_iff g (row - 1, _) (row > 0)),
              (gridCell_None_iff g (row + 1, _) (row < GRID_SIZE - 1)); [done|..];
        unfold inGrid; simpl; grid_lia.
    - rewrite (gridCell_None_iff g (_, col - 1) (col > 0)),
              (gridCell_None_iff g (_, col + 1) (col < GRID_SIZE - 1)); [done|..];
        unfold inGrid; simpl; grid_lia. }
  destruct (g !! cellPos d row col (Z.of_nat i)) as [c|].
  - split; [intros ?; left; by exists c|]. intros [(c' & ? & ?)|[? _]]; by simplify_eq.
  - rewrite Hsides. split; [by right|]. intros [(c' & ? & ?)|[_ ?]]; by simplify_eq.
Qed.

Lemma endsClear_endsFree g word row col d :
  fitsInside word row col d → endsClear g word row col d ↔ endsFree g word row col d.
Proof.
  intros (Hrow & Hcol & Hfit). unfold endsClear, endsFree, cellPos. destruct d.
  - change (col + -1) with (col - 1).
    rewrite (gridCell_None_iff g (row, col - 1) (col > 0)),
            (gridCell_None_iff g (row, col + len word) (col + len word < GRID_SIZE)); [done|..];
      unfold inGrid; simpl; grid_lia.
  - change (row + -1) with (row - 1).
    rewrite (gridCell_None_iff g (row - 1, col) (row > 0)),
            (gridCell_None_iff g (row + len word, col) (row + len word < GRID_SIZE)); [done|..];
      unfold inGrid; simpl; grid_lia.
Qed.

Lemma feasible_canPlace g word row col d :
  (d = across → row < GRID_SIZE) → (d = down → col < GRID_SIZE) →
  feasible g word row col d ↔ canPlace g word row col d.
Proof.
  intros Hrow Hcol. unfold feasible, canPlace.
  assert (fitsAlong word row col d ↔ fitsInside word row col d) as Hfits.
  { unfold fitsAlong, fitsInside. destruct d; intuition. }
  rewrite Hfits. clear Hfits.
  split; intros (Hfit & Hends & Hletters); (split; [done|]).
  - split; [by apply endsClear_endsFree|].
    intros i ch Hi. by apply (letterFits_inside g word row col d i ch Hfit Hi), Hletters.
  - split; [by apply endsClear_endsFree|].
    intros i ch Hi. by apply (letterFits_inside g word row col d i ch Hfit Hi), Hletters.
Qed.

Lemma canPlaceWord_across_outside word row col env :
  GRID_SIZE ≤ row →
  canPlaceWord word row col across env = Returned (false, env)
  ∨ canPlaceWord word row col across env = Thrown TypeError.
Proof.
  intros Hrow. unfold canPlaceWord.
  assert (rowExists row = false) as Hnone by (apply bool_decide_eq_false_2; lia).
  case_bool_decide as Hneg; [by left|].
  case_bool_decide as Hfit; [by left|]. right.
  unfold bind, occupiedWhen, readCell. rewrite Hnone.
  case_bool_decide as Hcol; [done|]. simpl.
  case_bool_decide as Hlen; [done|]. simpl.
  destruct word as [|ch word]; [unfold len in *; simpl in *; grid_lia|].
  simpl. unfold bind, readCell. by rewrite Hnone.
Qed.

(** ** [placeWordOnGrid] *)

Lemma cellPos_inj d row col a b : cellPos d row col a = cellPos d row col b → a = b.
Proof. unfold cellPos. destruct d; intros [=]; lia. Qed.

Lemma written_letter d n i ch old :
  letter (written d n i ch old) = match old with Some c => letter c | None => [ch] end.
Proof. unfold written. case_bool_decide; destruct old, d; done. Qed.

Lemma written_clueNumber d n i ch old :
  clueNumber (written d n i ch old) =
  if bool_decide (i = 0) then Some n else old ≫= clueNumber.
Proof. unfold written. case_bool_decide; destruct old, d; done. Qed.

Lemma writeLetter_run ch row col d n i env :
  0 ≤ (cellPos d row col i).1 < GRID_SIZE →
  writeLetter ch row col d n i env =
  Returned (tt, setGrid (<[cellPos d row col i :=
                            written d n i ch (newGrid env !! cellPos d row col i)]> (newGrid env)) env).
Proof.
  intros Hrow. unfold writeLetter. destruct (cellPos d row col i) as [r c] eqn:Hpos.
  simpl in Hrow. by rewrite rowExists_true.
Qed.

Lemma writeLetters_run rest row col d n i env :
  (∀ k, (k < length rest)%nat → 0 ≤ (cellPos d row col (i + Z.of_nat k)).1 < GRID_SIZE) →
  ∃ g', writeLetters rest row col d n i env = Returned (tt, setGrid g' env)
    ∧ (∀ k ch, rest !! k = Some ch →
         g' !! cellPos d row col (i + Z.of_nat k)
         = Some (written d n (i + Z.of_nat k) ch
                   (newGrid env !! cellPos d row col (i + Z.of_nat k))))
    ∧ (∀ p, (∀ k, (k < length rest)%nat → p ≠ cellPos d row col (i + Z.of_nat k)) →
         g' !! p = newGrid env !! p).
Proof.
  revert i env. induction rest as [|ch rest IH]; intros i env Hrows.
  - exists (newGrid env). split; [by destruct env|]. split; [done|]. done.
  - cbn [writeLetters].
    assert (0 ≤ (cellPos d row col i).1 < GRID_SIZE) as Hrow.
    { specialize (Hrows 0%nat). rewrite Z.add_0_r in Hrows. apply Hrows. simpl. lia. }
    rewrite (bind_returned _ _ _ _ _ (writeLetter_run ch row col d n i env Hrow)).
    set (g1 := <[cellPos d row col i := _]> (newGrid env)).
    destruct (IH (i + 1) (setGrid g1 env)) as (g' & Hrun & Hin & Hout).
    { intros k Hk. replace (i + 1 + Z.of_nat k) with (i + Z.of_nat (S k)) by lia.
      apply Hrows. simpl. lia. }
    exists g'. split; [done|]. simpl in Hin, Hout. split.
    + intros [|k] ch' Hk; simplify_eq/=.
      * rewrite Z.add_0_r. rewrite Hout.
        -- unfold g1. by rewrite lookup_insert_eq.
        -- intros k _ Heq%cellPos_inj. lia.
      * replace (i + Z.of_nat (S k)) with (i + 1 + Z.of_nat k) by lia.
        rewrite (Hin k ch' Hk). unfold g1. rewrite lookup_insert_ne; [done|].
        intros Heq%cellPos_inj. lia.
    + intros p Hp. rewrite Hout.
      * unfold g1. rewrite lookup_insert_ne; [done|].
        intros <-. apply (Hp 0%nat); [simpl; lia|]. by rewrite Z.add_0_r.
      * intros k Hk. replace (i + 1 + Z.of_nat k) with (i + Z.of_nat (S k)) by lia.
        apply Hp. simpl. lia.
Qed.

Lemma rowsInside_cell w row col d k :
  rowsInside w row d → (k < length w)%nat →
  0 ≤ (cellPos d row col (Z.of_nat k)).1 < GRID_SIZE.
Proof. intros [Hrow Hd] Hk. unfold cellPos. destruct d; simpl; grid_lia. Qed.

Lemma cellPos_0 d row col : cellPos d row col 0 = (row, col).
Proof. unfold cellPos. destruct d; by rewrite Z.add_0_r. Qed.

(** The state after [placeWordOnGrid]: the number [n] of the start cell, the
    clue pushed, and the grid [g'], which differs from the old one on the
    cells of the word only. *)
Lemma placeWordOnGrid_run wordObj row col d env :
  rowsInside (word wordObj) row d →
  ∃ n g',
    placeWordOnGrid wordObj row col d env = Returned (tt,
      {| newGrid := g';
         cluesAcross := match d with
                        | across => cluesAcross env ++ [{| number := n; clueText := clue wordObj |}]
                        | down => cluesAcross env
                        end;
         cluesDown := match d with
                      | across => cluesDown env
                      | down => cluesDown env ++ [{| number := n; clueText := clue wordObj |}]
                      end;
         clueCounter := match numberLocations env !! cellKey row col with
                        | Some _ => clueCounter env
                        | None => clueCounter env + 1
                        end;
         placedWords := placedWords env;
         numberLocations := <[cellKey row col := n]> (numberLocations env) |})
    ∧ n = default (clueCounter env) (numberLocations env !! cellKey row col)
    ∧ (∀ k ch, word wordObj !! k = Some ch →
         g' !! cellPos d row col (Z.of_nat k)
         = Some (written d n (Z.of_nat k) ch (newGrid env !! cellPos d row col (Z.of_nat k))))
    ∧ (∀ p, (∀ k, (k < length (word wordObj))%nat → p ≠ cellPos d row col (Z.of_nat k)) →
         g' !! p = newGrid env !! p).
Proof.
  intros Hrows. unfold placeWordOnGrid.
  set (n := default (clueCounter env) (numberLocations env !! cellKey row col)).
  exists n.
  set (env1 := {| newGrid := newGrid env; cluesAcross := cluesAcross env;
                  cluesDown := cluesDown env;
                  clueCounter := match numberLocations env !! cellKey row col with
                                 | Some _ => clueCounter env
                                 | None => clueCounter env + 1
                                 end;
                  placedWords := placedWords env;
                  numberLocations := <[cellKey row col := n]> (numberLocations env) |}).
  assert (takeClueNumber (cellKey row col) env = Returned (n, env1)) as Htake.
  { unfold takeClueNumber, env1, n.
    destruct (numberLocations env !! cellKey row col) as [n0|] eqn:Hkey; simpl; [|done].
    rewrite insert_id by done. by destruct env. }
  rewrite (bind_returned _ _ _ _ _ Htake).
  unfold bind at 1. unfold pushClue at 1.
  match goal with |- context [writeLetters _ _ _ _ _ _ ?e] => set (env2 := e) end.
  destruct (writeLetters_run (word wordObj) row col d n 0 env2) as (g' & Hrun & Hin & Hout).
  { intros k Hk. rewrite Z.add_0_l. by apply (rowsInside_cell (word wordObj)). }
  exists g'. split.
  { rewrite Hrun. unfold setGrid, env2, env1. by destruct d. }
  split; [done|].
  assert (newGrid env2 = newGrid env) as Hg by (unfold env2; by destruct d).
  rewrite Hg in Hin, Hout. split.
  - intros k ch Hk. specialize (Hin k ch Hk). by rewrite Z.add_0_l in Hin.
  - intros p Hp. apply Hout. intros k Hk. rewrite Z.add_0_l. by apply Hp.
Qed.

(** ** The invariant of the construction *)

Section Engine.
(** A property of the words that the construction is given. *)
Variable Q : WordEntry → Prop.

Local Abbreviation Inv := (Inv Q).

Lemma Inv_initial : Inv initialEnv.
Proof.
  split; simpl; try done.
  - by intros p ?%elem_of_nil.
  - by intros p i ch ?%elem_of_nil.
  - by intros p ?%elem_of_nil.
  - by intros c ?%elem_of_nil.
  - by intros c ?%elem_of_nil.
  - by intros p ?%elem_of_nil.
Qed.

Section Placement.
Variables (env : Env) (wordObj : WordEntry) (row0 col0 : Z) (d : Direction).
Variables (n : Z) (g' : gmap (Z * Z) Cell).
Hypothesis Hinv : Inv env.
Hypothesis Hrows : rowsInside (word wordObj) row0 d.
Hypothesis Hlen : 0 < len (word wordObj).
Hypothesis HQ : Q wordObj.
Hypothesis Hcompat : compatible (newGrid env) (word wordObj) row0 col0 d.
Hypothesis Hn : n = default (clueCounter env) (numberLocations env !! cellKey row0 col0).
Hypothesis Hin : ∀ k ch, word wordObj !! k = Some ch →
  g' !! cellPos d row0 col0 (Z.of_nat k)
  = Some (written d n (Z.of_nat k) ch (newGrid env !! cellPos d row0 col0 (Z.of_nat k))).
Hypothesis Hout : ∀ p,
  (∀ k, (k < length (word wordObj))%nat → p ≠ cellPos d row0 col0 (Z.of_nat k)) →
  g' !! p = newGrid env !! p.

Let placed : PlacedWord :=
  {| placedEntry := wordObj; row := row0; col := col0; direction := d |}.

Let after : Env := afterPlacement env wordObj row0 col0 d n g'.

(** A cell of the new grid is a cell of the old one, or a letter of the word. *)
Lemma grid_after p :
  g' !! p = newGrid env !! p
  ∨ ∃ k ch, word wordObj !! k = Some ch ∧ p = cellPos d row0 col0 (Z.of_nat k)
            ∧ g' !! p = Some (written d n (Z.of_nat k) ch (newGrid env !! p)).
Proof.
  destruct (decide (Exists (λ k, p = cellPos d row0 col0 (Z.of_nat k))
                      (seq 0 (length (word wordObj))))) as [Hex|Hno].
  - right. apply Exists_exists in Hex as (k & Hk & ->).
    apply elem_of_seq in Hk as [_ Hk]. simpl in Hk.
    destruct (lookup_lt_is_Some_2 (word wordObj) k Hk) as [ch Hch].
    exists k, ch. split; [done|]. split; [done|]. by apply Hin.
  - left. apply Hout. intros k Hk ->. apply Hno, Exists_exists.
    exists k. split; [|done]. apply elem_of_seq. lia.
Qed.

Lemma numbers_kept k m :
  numberLocations env !! k = Some m →
  <[cellKey row0 col0 := n]> (numberLocations env) !! k = Some m.
Proof.
  intros Hk. destruct (decide (k = cellKey row0 col0)) as [->|Hne].
  - rewrite lookup_insert_eq. rewrite Hk in Hn. simpl in Hn. by subst.
  - by rewrite lookup_insert_ne.
Qed.

Lemma afterPlacement_Inv : Inv after.
Proof.
  pose proof grid_after as Hgrid. pose proof numbers_kept as Hkept.
  destruct Hinv as [Irows Iletters Igrid Ipos Icounter Iinj Iflags Istarts Iacross Idown Ientries].
  split; unfold after, afterPlacement; cbn [newGrid cluesAcross cluesDown clueCounter placedWords numberLocations].
  - intros p [Hp|Hp%list_elem_of_singleton]%elem_of_app; [by apply Irows|].
    subst p. done.
  - intros p i ch [Hp|Hp%list_elem_of_singleton]%elem_of_app Hi.
    + destruct (Iletters p i ch Hp Hi) as (cell & Hcell & Hletter).
      destruct (Hgrid (cellPos (direction p) (row p) (col p) (Z.of_nat i)))
        as [Hsame|(k & ch' & Hk & Hpos & Hnew)].
      * exists cell. by rewrite Hsame.
      * eexists. split; [done|]. by rewrite written_letter, Hcell.
    + subst p. cbn [direction row col]. unfold wordOf in Hi. cbn [placedEntry] in Hi.
      eexists. split; [by apply Hin|]. rewrite written_letter.
      pose proof (Hcompat i ch Hi) as Hfit.
      by destruct (newGrid env !! cellPos d row0 col0 (Z.of_nat i)).
  - intros r c cell Hcell.
    destruct (Hgrid (r, c)) as [Hsame|(k & ch' & Hk & Hpos & Hnew)].
    + rewrite Hsame in Hcell. by eapply Igrid.
    + apply lookup_lt_Some in Hk.
      pose proof (rowsInside_cell _ row0 col0 d k Hrows Hk) as Hr. by rewrite <- Hpos in Hr.
  - destruct (numberLocations env !! cellKey row0 col0); lia.
  - intros k m Hk. destruct (decide (k = cellKey row0 col0)) as [->|Hne].
    + rewrite lookup_insert_eq in Hk. simplify_eq.
      destruct (numberLocations env !! cellKey row0 col0) as [n0|] eqn:Hkey; simpl.
      * by apply (Icounter _ _ Hkey).
      * lia.
    + rewrite lookup_insert_ne in Hk by done. apply Icounter in Hk.
      destruct (numberLocations env !! cellKey row0 col0); lia.
  - intros k k' m Hk Hk'.
    destruct (decide (k = cellKey row0 col0)) as [->|Hne],
             (decide (k' = cellKey row0 col0)) as [->|Hne']; [done|..].
    + rewrite lookup_insert_eq in Hk. rewrite lookup_insert_ne in Hk' by done. simplify_eq.
      destruct (numberLocations env !! cellKey row0 col0) as [n0|] eqn:Hkey; simpl in *.
      * by apply (Iinj _ _ _ Hkey Hk').
      * apply Icounter in Hk'. lia.
    + rewrite lookup_insert_eq in Hk'. rewrite lookup_insert_ne in Hk by done. simplify_eq.
      destruct (numberLocations env !! cellKey row0 col0) as [n0|] eqn:Hkey; simpl in *.
      * by apply (Iinj _ _ _ Hk Hkey).
      * apply Icounter in Hk. lia.
    + rewrite lookup_insert_ne in Hk, Hk' by done. by apply (Iinj _ _ _ Hk Hk').
  - intros r c cell m Hcell Hm.
    destruct (Hgrid (r, c)) as [Hsame|(k & ch' & Hk & Hpos & Hnew)].
    + rewrite Hsame in Hcell. by apply Hkept, (Iflags r c cell).
    + rewrite Hnew in Hcell. simplify_eq. rewrite written_clueNumber in Hm.
      case_bool_decide as Hk0.
      * simplify_eq. rewrite Hk0, cellPos_0 in Hpos. simplify_eq.
        by rewrite lookup_insert_eq.
      * destruct (newGrid env !! (r, c)) as [c0|] eqn:Hold; [|done]. simpl in Hm.
        by apply Hkept, (Iflags r c c0).
  - intros p [Hp|Hp%list_elem_of_singleton]%elem_of_app.
    + destruct (Istarts p Hp) as (n0 & cell & Hkey & Hcell & Hnum).
      exists n0. destruct (Hgrid (row p, col p)) as [Hsame|(k & ch' & Hk & Hpos & Hnew)].
      * exists cell. split; [by apply Hkept|]. by rewrite Hsame.
      * eexists. split; [by apply Hkept|]. split; [done|].
        rewrite written_clueNumber, Hcell. simpl. case_bool_decide as Hk0; [|done].
        rewrite Hk0, cellPos_0 in Hpos. simplify_eq. by rewrite Hkey.
    + subst p. cbn [row col]. exists n.
      destruct (lookup_lt_is_Some_2 (word wordObj) 0%nat) as [ch Hch];
        [unfold len in Hlen; lia|].
      pose proof (Hin 0%nat ch Hch) as Hstart. rewrite cellPos_0 in Hstart.
      eexists. split; [by rewrite lookup_insert_eq|]. split; [done|].
      by rewrite written_clueNumber.
  - intros c Hc.
    assert (c ∈ cluesAcross env ∨ (d = across ∧ c = {| number := n; clueText := clue wordObj |}))
      as [Hold|[Hd ->]].
    { destruct d; [|by left].
      apply elem_of_app in Hc as [?|?%list_elem_of_singleton]; auto. }
    + destruct (Iacross c Hold) as (p & Hp & Hdir & Htext & Hkey).
      exists p. split_and!; try done; [apply elem_of_app; by left|by apply Hkept].
    + exists placed. split_and!; try done.
      * apply elem_of_app. right. by apply list_elem_of_singleton.
      * simpl. by rewrite lookup_insert_eq.
  - intros c Hc.
    assert (c ∈ cluesDown env ∨ (d = down ∧ c = {| number := n; clueText := clue wordObj |}))
      as [Hold|[Hd ->]].
    { destruct d; [by left|].
      apply elem_of_app in Hc as [?|?%list_elem_of_singleton]; auto. }
    + destruct (Idown c Hold) as (p & Hp & Hdir & Htext & Hkey).
      exists p. split_and!; try done; [apply elem_of_app; by left|by apply Hkept].
    + exists placed. split_and!; try done.
      * apply elem_of_app. right. by apply list_elem_of_singleton.
      * simpl. by rewrite lookup_insert_eq.
  - intros p [Hp|Hp%list_elem_of_singleton]%elem_of_app; [by apply Ientries|].
    by subst p.
Qed.
End Placement.

Lemma place_and_record env wordObj row0 col0 d :
  Inv env → rowsInside (word wordObj) row0 d → 0 < len (word wordObj) → Q wordObj →
  compatible (newGrid env) (word wordObj) row0 col0 d →
  ∃ env1 env',
    placeWordOnGrid wordObj row0 col0 d env = Returned (tt, env1)
    ∧ pushPlaced {| placedEntry := wordObj; row := row0; col := col0; direction := d |} env1
      = Returned (tt, env')
    ∧ Inv env'.
Proof.
  intros Hinv Hrows Hlen HQ Hcompat.
  destruct (placeWordOnGrid_run wordObj row0 col0 d env Hrows) as (n & g' & Hrun & Hn & Hin & Hout).
  eexists _, _. split; [exact Hrun|]. split; [reflexivity|].
  exact (afterPlacement_Inv env wordObj row0 col0 d n g' Hinv Hrows Hlen HQ Hcompat Hn Hin Hout).
Qed.

(** ** The search of the best fit *)

Lemma forEach_run {A S} (l : list A) (body : A → S → M S) (I : S → Prop) env s :
  (∀ x s, x ∈ l → I s → ∃ s', body x s env = Returned (s', env) ∧ I s') →
  I s → ∃ s', forEach l body s env = Returned (s', env) ∧ I s'.
Proof.
  revert s. induction l as [|x l IH]; intros s Hbody Hs.
  - by exists s.
  - destruct (Hbody x s (list_elem_of_here _ _) Hs) as (s1 & Hrun & Hs1).
    cbn [forEach]. rewrite (bind_returned _ _ _ _ _ Hrun).
    apply IH; [|done]. intros y s2 Hy. apply Hbody. by apply list_elem_of_further.
Qed.

Lemma countIntersections_run word row0 col0 d env :
  ∃ n, countIntersections word row0 col0 d env = Returned (n, env).
Proof.
  unfold countIntersections.
  match goal with
  | |- ∃ n, forEach ?l ?body ?s env = _ =>
      destruct (forEach_run l body (λ _, True) env s) as (n & Hrun & _)
  end.
  - intros [l ch] s _ _. destruct d; (eexists; split; [reflexivity|exact I]).
  - exact I.
  - by exists n.
Qed.

Lemma feasible_compatible g w row0 col0 d :
  feasible g w row0 col0 d → compatible g w row0 col0 d.
Proof.
  intros (_ & _ & Hletters) k ch Hk. specialize (Hletters k ch Hk).
  unfold letterFits in Hletters. by destruct (g !! cellPos d row0 col0 (Z.of_nat k)).
Qed.

Lemma tryCandidate_run env wordObj pWord j k best :
  Inv env → pWord ∈ placedWords env → 0 ≤ k < len (wordOf pWord) →
  goodBest env wordObj best →
  ∃ best', tryCandidate wordObj pWord j k best env = Returned (best', env)
           ∧ goodBest env wordObj best'.
Proof.
  intros Hinv Hp Hk Hbest. unfold tryCandidate.
  destruct (inv_rows Q env Hinv pWord Hp) as [[Hrow Hdir] _].
  set (d := match direction pWord with across => down | down => across end).
  set (r := match d with down => row pWord - j | across => row pWord + k end).
  set (c := match d with down => col pWord + k | across => col pWord - j end).
  destruct (canPlaceWord_run (word wordObj) r c d env) as (ok & Hrun & Hok).
  { unfold d, r. destruct (direction pWord); [done|]. intros _. simpl. lia. }
  rewrite (bind_returned _ _ _ _ _ Hrun). destruct ok; [|by exists best].
  destruct (countIntersections_run (word wordObj) r c d env) as (n & Hcount).
  rewrite (bind_returned _ _ _ _ _ Hcount).
  case_bool_decide; [|by exists best].
  eexists. split; [done|]. unfold goodBest. simpl.
  destruct (proj1 Hok eq_refl) as ((Hr & Hc & Hfit) & Hends & Hletters).
  split; [|by apply feasible_compatible].
  split; [done|]. unfold d, r in *. destruct (direction pWord); [done|]. simpl. lia.
Qed.

Lemma findBestFit_run env wordObj :
  Inv env →
  ∃ best, findBestFit wordObj env = Returned (best, env) ∧ goodBest env wordObj best.
Proof.
  intros Hinv. unfold findBestFit.
  apply (forEach_run _ _ (goodBest env wordObj)); [|done].
  intros [j wj] best _ Hbest.
  rewrite (bind_returned _ _ _ _ _ (eq_refl : getPlaced env = Returned (placedWords env, env))).
  apply (forEach_run _ _ (goodBest env wordObj)); [|done].
  intros pWord best1 Hp Hbest1.
  apply (forEach_run _ _ (goodBest env wordObj)); [|done].
  intros [k pk] best2 Hk Hbest2.
  case_bool_decide; [|by exists best2].
  apply tryCandidate_run; try done.
  apply elem_of_enumerateFrom in Hk as [Hk0 Hk]. apply lookup_lt_Some in Hk.
  unfold len, wordOf. lia.
Qed.

(** ** The passes *)

Lemma elem_of_fromTheEnd words i w : (i, w) ∈ fromTheEnd words → words !! i = Some w.
Proof.
  unfold fromTheEnd. rewrite elem_of_reverse.
  intros (i' & x & [= -> ->] & Hx)%elem_of_lookup_imap. done.
Qed.

(** One pass either places nothing and changes nothing, or removes one word
    from [words] and keeps the invariant. *)
Lemma scanPending_run candidates words env :
  Inv env → (∀ i w, (i, w) ∈ candidates → words !! i = Some w) →
  Forall (λ w, 0 < len (word w) ∧ Q w) words →
  scanPending candidates words env = Returned ((words, false), env)
  ∨ ∃ i env', is_Some (words !! i)
      ∧ scanPending candidates words env = Returned ((delete i words, true), env')
      ∧ Inv env'.
Proof.
  intros Hinv Hcand Hwords. induction candidates as [|[i wordObj] candidates IH].
  - by left.
  - cbn [scanPending].
    destruct (findBestFit_run env wordObj Hinv) as ([bestFit maxIntersections] & Hrun & Hbest).
    rewrite (bind_returned _ _ _ _ _ Hrun). cbn [fst snd].
    assert (words !! i = Some wordObj) as Hi by apply Hcand, list_elem_of_here.
    assert (∀ i w, (i, w) ∈ candidates → words !! i = Some w) as Hcand'.
    { intros i' w' Hin. by apply Hcand, list_elem_of_further. }
    destruct bestFit as [fit|]; [|by apply IH].
    case_bool_decide; [|by apply IH].
    right. destruct Hbest as [Hrows Hcompat]. simpl in Hrows, Hcompat.
    destruct (place_and_record env wordObj (fitRow fit) (fitCol fit) (fitDirection fit))
      as (env1 & env' & Hplace & Hpush & Hinv'); try done.
    { rewrite Forall_forall in Hwords. apply Hwords. by eapply list_elem_of_lookup_2. }
    { rewrite Forall_forall in Hwords. apply Hwords. by eapply list_elem_of_lookup_2. }
    exists i, env'. split; [by eexists|]. split; [|done].
    rewrite (bind_returned _ _ _ _ _ Hplace). by rewrite (bind_returned _ _ _ _ _ Hpush).
Qed.

(** After a pass that placed nothing, every further pass is the same pass:
    the loop counts [attempts] up to the number of words left and stops. *)
Lemma placementLoop_stalled fuel words attempts passes env :
  scanPending (fromTheEnd words) words env = Returned ((words, false), env) →
  0 ≤ attempts ≤ Z.of_nat (length words) →
  (length words - Z.to_nat attempts ≤ fuel)%nat →
  placementLoop fuel words attempts passes env
  = Returned ((words, (passes + (length words - Z.to_nat attempts))%nat), env).
Proof.
  intros Hstall. revert attempts passes.
  induction fuel as [|fuel IH]; intros attempts passes Hatt Hfuel.
  - cbn [placementLoop]. rewrite bool_decide_eq_false_2 by lia.
    unfold ret. do 3 f_equal. lia.
  - cbn [placementLoop]. case_bool_decide as Hguard.
    + rewrite (bind_returned _ _ _ _ _ Hstall). cbn [fst snd].
      rewrite IH by lia. do 3 f_equal. lia.
    + unfold ret. do 3 f_equal. lia.
Qed.

(** The loop ends, after exactly as many passes as there were words to
    place, and keeps the invariant. *)
Lemma placementLoop_run fuel words passes env :
  Inv env → Forall (λ w, 0 < len (word w) ∧ Q w) words → (length words ≤ fuel)%nat →
  ∃ words' env',
    placementLoop fuel words 0 passes env = Returned ((words', (passes + length words)%nat), env')
    ∧ Inv env'.
Proof.
  remember (length words) as n eqn:Hn. revert fuel words passes env Hn.
  induction n as [|n IH]; intros fuel words passes env Hn Hinv Hwords Hfuel.
  - exists words, env. split; [|done]. destruct fuel; cbn [placementLoop];
      rewrite bool_decide_eq_false_2 by lia; unfold ret; do 3 f_equal; lia.
  - destruct fuel as [|fuel]; [lia|]. cbn [placementLoop].
    rewrite bool_decide_eq_true_2 by lia.
    destruct (scanPending_run (fromTheEnd words) words env Hinv) as [Hstall|(i & env' & Hi & Hrun & Hinv')];
      [apply elem_of_fromTheEnd|done|..].
    + rewrite (bind_returned _ _ _ _ _ Hstall). cbn [fst snd].
      exists words, env. split; [|done].
      rewrite (placementLoop_stalled fuel words (0 + 1) (S passes) env Hstall) by lia.
      do 3 f_equal. lia.
    + rewrite (bind_returned _ _ _ _ _ Hrun). cbn [fst snd].
      destruct (IH fuel (delete i words) (S passes) env') as (words' & env'' & Hloop & Hinv'').
      * rewrite length_delete by done. lia.
      * done.
      * by apply Forall_delete.
      * lia.
      * exists words', env''. split; [|done]. rewrite Hloop. do 3 f_equal. lia.
Qed.

(** The first word is written in the middle row; then the loop runs. *)
Lemma runAlgorithm_run fuel words :
  Forall (λ w, 0 < len (word w) ∧ Q w) words → (1 ≤ length words)%nat →
  (length words - 1 ≤ fuel)%nat →
  ∃ pending env,
    runAlgorithm fuel words initialEnv = Returned ((pending, (length words - 1)%nat), env)
    ∧ Inv env.
Proof.
  intros Hwords Hlen Hfuel. destruct words as [|firstWord words]; [simpl in Hlen; lia|].
  apply Forall_cons in Hwords as [[Hfirst HQ] Hwords].
  cbn [runAlgorithm].
  assert (rowsInside (word firstWord) (GRID_SIZE / 2) across) as Hrows by done.
  assert (compatible (newGrid initialEnv) (word firstWord) (GRID_SIZE / 2)
            ((GRID_SIZE - len (word firstWord)) / 2) across) as Hcompat.
  { intros k ch _. simpl. by rewrite lookup_empty. }
  destruct (place_and_record initialEnv firstWord (GRID_SIZE / 2)
              ((GRID_SIZE - len (word firstWord)) / 2) across Inv_initial Hrows Hfirst HQ Hcompat)
    as (env1 & env2 & Hplace & Hpush & Hinv).
  rewrite (bind_returned _ _ _ _ _ Hplace), (bind_returned _ _ _ _ _ Hpush).
  destruct (placementLoop_run fuel words 0 env2 Hinv Hwords) as (pending & env & Hloop & Hinv').
  { simpl in Hfuel. lia. }
  exists pending, env. split; [|done]. rewrite Hloop. simpl. do 3 f_equal. lia.
Qed.

End Engine.

Lemma insertByNumber_perm x l : insertByNumber x l ≡ₚ x :: l.
Proof.
  induction l as [|y l IH]; simpl; [done|].
  case_bool_decide; [|done]. rewrite IH. apply Permutation_swap.
Qed.

Lemma sortByNumber_perm l : sortByNumber l ≡ₚ l.
Proof.
  induction l as [|x l IH]; simpl; [done|].
  by rewrite insertByNumber_perm, IH.
Qed.

(** With at least two words, and fuel for one pass per word to place, the
    construction returns; the final state satisfies the invariant, and the
    loop has made one pass per word it was given. *)
Lemma construct_run `{Unicode} fuel wordEntries :
  (2 ≤ length (normalizeWords wordEntries))%nat →
  (length (normalizeWords wordEntries) - 1 ≤ fuel)%nat →
  ∃ pending env,
    construct fuel wordEntries =
      Returned {| builtGrid := newGrid env;
                  builtAcross := sortByNumber (cluesAcross env);
                  builtDown := sortByNumber (cluesDown env);
                  builtPlaced := placedWords env;
                  unplaced := pending;
                  passCount := (length (normalizeWords wordEntries) - 1)%nat |}
    ∧ Inv (λ w, w ∈ normalizeWords wordEntries) env.
Proof.
  intros Hlen Hfuel. unfold construct.
  rewrite bool_decide_eq_false_2 by lia.
  destruct (runAlgorithm_run (λ w, w ∈ normalizeWords wordEntries) fuel (normalizeWords wordEntries))
    as (pending & env & Hrun & Hinv); [|lia|done|].
  { apply Forall_forall. intros w Hw. split; [|done].
    apply normalizeWords_sound in Hw as (_ & _ & _ & Hw & _). unfold len. lia. }
  exists pending, env. by rewrite Hrun.
Qed.


(** ** The claims on the construction *)

(** C2 (as amended): [canPlaceWord] never modifies the closure state, and,
    for an across placement anywhere and a down placement whose column is
    less than N, it returns true if and only if the word fits entirely inside
    the N x N grid, the cells just before its start and just after its end
    along the direction are empty or out of bounds, and at every position i
    the cell is occupied with the letter word[i], or is empty with both
    neighbours perpendicular to the direction empty or out of bounds.  (The
    column of a down placement is not compared with N.) *)
Theorem C2_canPlaceWord_feasible word row0 col0 d env :
  (∀ b env', canPlaceWord word row0 col0 d env = Returned (b, env') → env' = env)
  ∧ ((d = down → col0 < GRID_SIZE) →
     canPlaceWord word row0 col0 d env = Returned (true, env)
     ↔ canPlace (newGrid env) word row0 col0 d).
Proof.
  split; [intros b env'; apply readOnly_canPlaceWord|].
  intros Hcol. destruct (decide (d = across ∧ GRID_SIZE ≤ row0)) as [[-> Hrow]|Hin].
  - split.
    + intros Hrun.
      destruct (canPlaceWord_across_outside word row0 col0 env Hrow) as [Hf|Hf];
        rewrite Hf in Hrun; discriminate.
    + intros ((_ & _ & Hfit & _) & _). lia.
  - assert (d = across → row0 < GRID_SIZE) as Hrow.
    { intros ->. destruct (decide (row0 < GRID_SIZE)); [done|].
      exfalso. apply Hin. split; [done|lia]. }
    destruct (canPlaceWord_run word row0 col0 d env Hrow) as (b & Hrun & Hb).
    rewrite <- (feasible_canPlace _ _ _ _ _ Hrow Hcol), <- Hb, Hrun.
    split; [by intros [=]|by intros ->].
Qed.

Lemma C2_canPlaceWord_witness :
  canPlace (newGrid afterFirstWord) (js "CASA") 14 14 down.
Proof.
  apply (proj2 (C2_canPlaceWord_feasible (js "CASA") 14 14 down afterFirstWord)).
  - intros _. reflexivity.
  - vm_compute. reflexivity.
Defined.

(** C2 as stated fails: on the empty grid a down placement at column 30 is
    accepted, although none of its cells is inside the 30 x 30 grid. *)
Lemma C2_canPlaceWord_outside_grid :
  canPlaceWord (js "AB") 0 30 down initialEnv = Returned (true, initialEnv)
  ∧ ¬ fitsInside (js "AB") 0 30 down
  ∧ ¬ canPlace (newGrid initialEnv) (js "AB") 0 30 down.
Proof.
  split; [reflexivity|]. split.
  - intros (_ & _ & Hcol & _). unfold GRID_SIZE in Hcol. lia.
  - intros ((_ & _ & Hcol & _) & _). unfold GRID_SIZE in Hcol. lia.
Qed.

(** C3: for every input with at least two surviving entries the placement
    loop terminates: given fuel for as many passes as there are pending words
    (or more), the construction returns, after exactly as many passes as the
    initial size of [pending], which is at most its square. *)
Theorem C3_placement_loop_terminates `{Unicode} fuel wordEntries :
  (2 ≤ length (normalizeWords wordEntries))%nat →
  (length (normalizeWords wordEntries) - 1 ≤ fuel)%nat →
  ∃ built, construct fuel wordEntries = Returned built
    ∧ passCount built = (length (normalizeWords wordEntries) - 1)%nat
    ∧ (passCount built ≤ (length (normalizeWords wordEntries) - 1)
                          * (length (normalizeWords wordEntries) - 1))%nat.
Proof.
  intros Hlen Hfuel.
  destruct (construct_run fuel wordEntries Hlen Hfuel) as (pending & env & Hrun & _).
  eexists. split; [exact Hrun|]. simpl. split; [done|]. nia.
Qed.

Lemma C3_placement_loop_witness :
  ∃ built, construct (H := Latin1.tables) 1 scenarioA = Returned built
    ∧ passCount built = 1%nat ∧ (passCount built ≤ 1)%nat.
Proof.
  apply (C3_placement_loop_terminates (H := Latin1.tables) 1 scenarioA).
  - vm_compute. lia.
  - vm_compute. lia.
Defined.








(** ** The scenarios of the specification, run on the model *)

(** Scenario A: GATO across at (15, 13), CASA down through its A; one clue in
    each list, no word left, one pass. *)
Example scenario_A_runs :
  ∃ g, construct (H := Latin1.tables) 1 scenarioA =
    Returned {| builtGrid := g;
                builtAcross := [{| number := 1; clueText := js "Animal domestico" |}];
                builtDown := [{| number := 2; clueText := js "Onde se mora" |}];
                builtPlaced :=
                  [{| placedEntry := mkEntry (js "GATO") (js "Animal domestico");
                      row := 15; col := 13; direction := across |};
                   {| placedEntry := mkEntry (js "CASA") (js "Onde se mora");
                      row := 14; col := 14; direction := down |}];
                unplaced := [];
                passCount := 1 |}
    ∧ letter <$> g !! (15, 14) = Some (js "A")
    ∧ clueNumber <$> g !! (14, 14) = Some (Some 2).
Proof. eexists. split; [vm_compute; reflexivity|]. split; reflexivity. Qed.

(** A word that shares no letter with the placed ones stays in [words]: the
    loop stops after one pass per pending word. *)
Example unplaced_word_runs :
  ∃ built, construct (H := Latin1.tables) 2
      [mkEntry (js "GATO") (js "a"); mkEntry (js "CASA") (js "b"); mkEntry (js "MEL") (js "c")]
    = Returned built
    ∧ word <$> unplaced built = [js "MEL"] ∧ passCount built = 2%nat.
Proof. eexists. split; [vm_compute; reflexivity|]. split; reflexivity. Qed.

(** * More properties of the construction *)

(** ** The two sorts *)

Lemma insertByLength_sorted x l : longestFirst l → longestFirst (insertByLength x l).
Proof.
  unfold longestFirst. induction l as [|y l IH]; intros Hl; simpl.
  - repeat constructor.
  - apply StronglySorted_inv in Hl as [Hl Hy]. case_match eqn:Hlt.
    + apply Nat.ltb_lt in Hlt. constructor; [by apply IH|].
      rewrite insertByLength_perm. constructor; [lia|done].
    + apply Nat.ltb_ge in Hlt. constructor; [by constructor|].
      constructor; [done|]. eapply Forall_impl; [exact Hy|]. simpl. intros; lia.
Qed.

Lemma sortByLength_sorted l : longestFirst (sortByLength l).
Proof.
  induction l as [|x l IH]; simpl; [constructor|]. by apply insertByLength_sorted.
Qed.

Lemma insertByNumber_sorted x l : byNumber l → byNumber (insertByNumber x l).
Proof.
  unfold byNumber. induction l as [|y l IH]; intros Hl; simpl.
  - repeat constructor.
  - apply StronglySorted_inv in Hl as [Hl Hy]. case_bool_decide as Hlt.
    + constructor; [by apply IH|].
      rewrite insertByNumber_perm. constructor; [lia|done].
    + constructor; [by constructor|].
      constructor; [lia|]. eapply Forall_impl; [exact Hy|]. simpl. intros; lia.
Qed.

Lemma sortByNumber_sorted l : byNumber (sortByNumber l).
Proof.
  induction l as [|x l IH]; simpl; [constructor|]. by apply insertByNumber_sorted.
Qed.

(** ** The search reads only *)

Lemma readOnly_countIntersections word row0 col0 d :
  readOnly (countIntersections word row0 col0 d).
Proof.
  unfold countIntersections. apply readOnly_forEach. intros [l ch] s.
  destruct d; read_only.
Qed.

Lemma readOnly_tryCandidate wordObj pWord j k best :
  readOnly (tryCandidate wordObj pWord j k best).
Proof.
  unfold tryCandidate. apply readOnly_bind; [apply readOnly_canPlaceWord|].
  intros [|]; [|apply readOnly_ret].
  apply readOnly_bind; [apply readOnly_countIntersections|].
  intros n. apply readOnly_if; apply readOnly_ret.
Qed.

Lemma readOnly_findBestFit wordObj : readOnly (findBestFit wordObj).
Proof.
  unfold findBestFit. apply readOnly_forEach. intros [j wj] best.
  apply readOnly_bind; [apply readOnly_getPlaced|]. intros placed.
  apply readOnly_forEach. intros pWord best1.
  apply readOnly_forEach. intros [k pk] best2.
  apply readOnly_if; [apply readOnly_tryCandidate|apply readOnly_ret].
Qed.

(** ** One committed placement *)

(** What a pass that returns has done: nothing, or one placement at the best
    fit of one pending word. *)
Lemma scanPending_cases candidates words env words' flag env' :
  scanPending candidates words env = Returned ((words', flag), env') →
  (flag = false ∧ words' = words ∧ env' = env)
  ∨ (flag = true ∧ ∃ i wordObj fit m env1,
       (i, wordObj) ∈ candidates ∧ words' = delete i words
       ∧ findBestFit wordObj env = Returned ((Some fit, m), env) ∧ m > 0
       ∧ placeWordOnGrid wordObj (fitRow fit) (fitCol fit) (fitDirection fit) env
         = Returned (tt, env1)
       ∧ pushPlaced (placementOf wordObj fit) env1 = Returned (tt, env')).
Proof.
  induction candidates as [|[i wordObj] candidates IH]; cbn [scanPending].
  - intros [= <- <- <-]. by left.
  - unfold bind at 1.
    destruct (findBestFit wordObj env) as [[[bestFit m] env0]| |] eqn:Hbest; [|done..].
    pose proof (readOnly_findBestFit wordObj env _ _ Hbest) as ->.
    cbn [fst snd].
    assert (scanPending candidates words env = Returned (words', flag, env') →
      (flag = false ∧ words' = words ∧ env' = env)
      ∨ (flag = true ∧ ∃ i0 wordObj0 fit m0 env1,
           (i0, wordObj0) ∈ (i, wordObj) :: candidates ∧ words' = delete i0 words
           ∧ findBestFit wordObj0 env = Returned ((Some fit, m0), env) ∧ m0 > 0
           ∧ placeWordOnGrid wordObj0 (fitRow fit) (fitCol fit) (fitDirection fit) env
             = Returned (tt, env1)
           ∧ pushPlaced (placementOf wordObj0 fit) env1 = Returned (tt, env'))) as Hrest.
    { intros Hrun. destruct (IH Hrun) as [?|(-> & i0 & w0 & fit & m0 & env1 & Hin & ?)]; [by left|].
      right. split; [done|]. exists i0, w0, fit, m0, env1.
      split; [by apply list_elem_of_further|done]. }
    destruct bestFit as [fit|]; [|done].
    case_bool_decide as Hm; [|done].
    unfold bind at 1.
    destruct (placeWordOnGrid wordObj _ _ _ env) as [[[] env1]| |] eqn:Hplace; [|done..].
    unfold bind at 1.
    destruct (pushPlaced _ env1) as [[[] env2]| |] eqn:Hpush; [|done..].
    intros [= <- <- <-]. right. split; [done|].
    exists i, wordObj, fit, m, env1. split_and!; try done. apply list_elem_of_here.
Qed.

(** A property of the pending words and the state that every committed
    placement keeps holds when the loop returns. *)
Section LoopInvariant.
Variable J : list WordEntry → Env → Prop.
Hypothesis Jstep : ∀ words env i wordObj fit m env1 env',
  J words env → words !! i = Some wordObj →
  findBestFit wordObj env = Returned ((Some fit, m), env) → m > 0 →
  placeWordOnGrid wordObj (fitRow fit) (fitCol fit) (fitDirection fit) env = Returned (tt, env1) →
  pushPlaced (placementOf wordObj fit) env1 = Returned (tt, env') →
  J (delete i words) env'.

Lemma placementLoop_invariant fuel words attempts passes env r env' :
  J words env →
  placementLoop fuel words attempts passes env = Returned (r, env') →
  J r.1 env'.
Proof.
  revert words attempts passes env.
  induction fuel as [|fuel IH]; intros words attempts passes env HJ; cbn [placementLoop].
  - case_bool_decide; [done|]. by intros [= <- <-].
  - case_bool_decide; [|by intros [= <- <-]].
    unfold bind at 1.
    destruct (scanPending _ words env) as [[[words1 flag] env1]| |] eqn:Hpass; [|done..].
    cbn [fst snd]. intros Hloop. eapply IH; [|exact Hloop].
    apply scanPending_cases in Hpass
      as [(-> & -> & ->)|(-> & i & wordObj & fit & m & env0 & Hin & -> & Hbest & Hm & Hplace & Hpush)];
      [done|].
    eapply Jstep; try done. by apply elem_of_fromTheEnd.
Qed.
End LoopInvariant.

(** The state after a committed placement, from the state before it. *)
Lemma committed_step Q env wordObj fit m env1 env' :
  Inv Q env → Q wordObj → 0 < len (word wordObj) →
  findBestFit wordObj env = Returned ((Some fit, m), env) →
  placeWordOnGrid wordObj (fitRow fit) (fitCol fit) (fitDirection fit) env = Returned (tt, env1) →
  pushPlaced (placementOf wordObj fit) env1 = Returned (tt, env') →
  ∃ n g',
    env' = afterPlacement env wordObj (fitRow fit) (fitCol fit) (fitDirection fit) n g'
    ∧ n = default (clueCounter env)
            (numberLocations env !! cellKey (fitRow fit) (fitCol fit))
    ∧ (∀ k ch, word wordObj !! k = Some ch →
         g' !! cellPos (fitDirection fit) (fitRow fit) (fitCol fit) (Z.of_nat k)
         = Some (written (fitDirection fit) n (Z.of_nat k) ch
                   (newGrid env !! cellPos (fitDirection fit) (fitRow fit) (fitCol fit) (Z.of_nat k))))
    ∧ (∀ p, (∀ k, (k < length (word wordObj))%nat →
               p ≠ cellPos (fitDirection fit) (fitRow fit) (fitCol fit) (Z.of_nat k)) →
         g' !! p = newGrid env !! p)
    ∧ Inv Q env'.
Proof.
  intros Hinv HQ Hlen Hbest Hplace Hpush.
  destruct (findBestFit_run Q env wordObj Hinv) as (best & Hrun & Hgood).
  rewrite Hbest in Hrun. injection Hrun as <-.
  destruct Hgood as [Hrows Hcompat]. simpl in Hrows, Hcompat.
  destruct (placeWordOnGrid_run wordObj (fitRow fit) (fitCol fit) (fitDirection fit) env Hrows)
    as (n & g' & Hrun & Hn & Hin & Hout).
  rewrite Hplace in Hrun. injection Hrun as ->.
  injection Hpush as <-.
  exists n, g'. split; [reflexivity|]. split_and!; try done.
  by apply afterPlacement_Inv.
Qed.

(** ** The bookkeeping of the loop *)

Section LedgerStep.
Variables (Q : WordEntry → Prop) (all words : list WordEntry) (i : nat).
Variables (env : Env) (wordObj : WordEntry) (row0 col0 : Z) (d : Direction).
Variables (n : Z) (g' : gmap (Z * Z) Cell).
Hypothesis Hinv : Inv Q env.
Hypothesis Hledger : Ledger all words env.
Hypothesis Hword : words !! i = Some wordObj.
Hypothesis Hn : n = default (clueCounter env) (numberLocations env !! cellKey row0 col0).
Hypothesis Hin : ∀ k ch, word wordObj !! k = Some ch →
  g' !! cellPos d row0 col0 (Z.of_nat k)
  = Some (written d n (Z.of_nat k) ch (newGrid env !! cellPos d row0 col0 (Z.of_nat k))).
Hypothesis Hout : ∀ p,
  (∀ k, (k < length (word wordObj))%nat → p ≠ cellPos d row0 col0 (Z.of_nat k)) →
  g' !! p = newGrid env !! p.

Lemma clueFor_kept p :
  p ∈ placedWords env →
  clueFor (<[cellKey row0 col0 := n]> (numberLocations env)) p
  = clueFor (numberLocations env) p.
Proof.
  intros Hp. destruct (inv_starts Q env Hinv p Hp) as (n0 & cell & Hkey & _).
  unfold clueFor. rewrite Hkey.
  by rewrite (numbers_kept env wordObj row0 col0 d n g' Hn Hin _ _ Hkey).
Qed.

Lemma clues_after d' (clues : list Clue) :
  clues = clueFor (numberLocations env) <$> placedAlong d' (placedWords env) →
  (if decide (d = d') then clues ++ [{| number := n; clueText := clue wordObj |}] else clues)
  = clueFor (<[cellKey row0 col0 := n]> (numberLocations env))
      <$> placedAlong d' (placedWords env ++
            [{| placedEntry := wordObj; row := row0; col := col0; direction := d |}]).
Proof.
  intros ->. unfold placedAlong. rewrite filter_app, fmap_app.
  assert (clueFor (<[cellKey row0 col0 := n]> (numberLocations env))
            <$> filter (λ p, direction p = d') (placedWords env)
          = clueFor (numberLocations env) <$> filter (λ p, direction p = d') (placedWords env))
    as ->.
  { apply Forall_fmap_ext_1, Forall_forall. intros p [_ Hp]%list_elem_of_filter.
    by apply clueFor_kept. }
  destruct (decide (d = d')) as [<-|Hne].
  - rewrite filter_cons_True by done. f_equal. simpl. unfold clueFor. simpl.
    by rewrite lookup_insert_eq.
  - rewrite filter_cons_False by done. simpl. by rewrite app_nil_r.
Qed.

Lemma written_along k ch old : along d (written d n k ch old) = Some n.
Proof. unfold written. case_bool_decide; by destruct d. Qed.

Lemma Ledger_afterPlacement :
  Ledger all (delete i words) (afterPlacement env wordObj row0 col0 d n g').
Proof.
  destruct Hledger as [Lwords Lcells Lacross Ldown Lnumbers].
  split; unfold afterPlacement;
    cbn [newGrid cluesAcross cluesDown clueCounter placedWords numberLocations].
  - rewrite fmap_app. simpl. rewrite <- Lwords, <- app_assoc. simpl.
    by rewrite <- (delete_Permutation words i wordObj Hword).
  - intros p cell Hcell.
    destruct (grid_after env wordObj row0 col0 d n g' Hin Hout p)
      as [Hsame|(k & ch & Hk & Hpos & _)].
    + rewrite Hsame in Hcell.
      destruct (Lcells p cell Hcell) as (pw & j & ch & Hpw & Hj & Hp & Hmark).
      exists pw, j, ch. split; [apply elem_of_app; by left|]. split_and!; try done.
      destruct (inv_starts Q env Hinv pw Hpw) as (n0 & cell0 & Hkey & _).
      rewrite Hmark, Hkey.
      by rewrite (numbers_kept env wordObj row0 col0 d n g' Hn Hin _ _ Hkey).
    + eexists _, k, ch. split; [apply elem_of_app; right; apply list_elem_of_here|].
      split_and!; try done. cbn [direction row col].
      rewrite Hpos, (Hin k ch Hk) in Hcell. injection Hcell as <-.
      by rewrite written_along, lookup_insert_eq.
  - rewrite <- (clues_after across (cluesAcross env) Lacross). by destruct d.
  - rewrite <- (clues_after down (cluesDown env) Ldown). by destruct d.
  - intros n' Hn'.
    assert (1 ≤ n' < clueCounter env
            ∨ (numberLocations env !! cellKey row0 col0 = None ∧ n' = clueCounter env))
      as [Hold|[Hnone ->]].
    { destruct (numberLocations env !! cellKey row0 col0); [by left|].
      destruct (decide (n' < clueCounter env)); [left; lia|right; split; [done|lia]]. }
    + destruct (Lnumbers n' Hold) as (pw & Hpw & Hkey). exists pw.
      split; [apply elem_of_app; by left|].
      by apply (numbers_kept env wordObj row0 col0 d n g' Hn Hin).
    + eexists. split; [apply elem_of_app; right; apply list_elem_of_here|].
      simpl. rewrite lookup_insert_eq, Hn, Hnone. done.
Qed.
End LedgerStep.

(** ** The search for the best fit *)

(** A [for] loop whose body leaves the closure state alone: an invariant [I]
    of the loop variables, an order [le] along which they move, and for each
    element a property [C] that its iteration establishes and that moving
    along [le] keeps. *)
Lemma forEach_covers {A S} (l : list A) (body : A → S → M S)
    (le : S → S → Prop) (I : S → Prop) (C : A → S → Prop) env s r env' :
  (∀ s, le s s) → (∀ s1 s2 s3, le s1 s2 → le s2 s3 → le s1 s3) →
  (∀ x s s' e', x ∈ l → I s → body x s env = Returned (s', e') →
     e' = env ∧ I s' ∧ le s s' ∧ C x s') →
  (∀ x s s', C x s → le s s' → C x s') →
  I s → forEach l body s env = Returned (r, env') →
  env' = env ∧ I r ∧ le s r ∧ ∀ x, x ∈ l → C x r.
Proof.
  intros Hrefl Htrans Hbody Hmono. revert s.
  induction l as [|x l IH]; intros s HI; cbn [forEach].
  - intros [= <- <-]. split_and!; try done. intros x Hx. by apply elem_of_nil in Hx.
  - unfold bind at 1. destruct (body x s env) as [[s1 e1]| |] eqn:Hx; [|done..].
    destruct (Hbody x s s1 e1 (list_elem_of_here _ _) HI Hx) as (-> & HI1 & Hle & HC).
    intros Hrest. apply IH in Hrest as (-> & HIr & Hler & HCr); [| |done].
    + split_and!; try done; [by eapply Htrans|].
      intros y [->|Hy]%elem_of_cons; [by eapply Hmono|by apply HCr].
    + intros y s2 s3 e3 Hy. apply Hbody. by apply list_elem_of_further.
Qed.

(** [canPlaceWord] answers [true] only where all its tests hold. *)
Lemma canPlaceWord_true word row0 col0 d env env' :
  canPlaceWord word row0 col0 d env = Returned (true, env') →
  env' = env ∧ feasible (newGrid env) word row0 col0 d ∧ (d = across → row0 < GRID_SIZE).
Proof.
  intros Hrun. pose proof (readOnly_canPlaceWord _ _ _ _ _ _ _ Hrun) as ->.
  split; [done|].
  destruct (decide (d = across ∧ GRID_SIZE ≤ row0)) as [[-> Hrow]|Hin].
  - destruct (canPlaceWord_across_outside word row0 col0 env Hrow) as [Hf|Hf];
      rewrite Hf in Hrun; discriminate.
  - assert (d = across → row0 < GRID_SIZE) as Hrow.
    { intros ->. destruct (decide (row0 < GRID_SIZE)); [done|]. exfalso. apply Hin. split; [done|lia]. }
    destruct (canPlaceWord_run word row0 col0 d env Hrow) as (b & Hb & Hiff).
    rewrite Hrun in Hb. injection Hb as <-. split; [by apply Hiff|done].
Qed.

(** The loop of lines 1084-1088 counts the crossings. *)
Lemma countIntersections_crossings w row0 col0 d env :
  countIntersections w row0 col0 d env = Returned (crossings (newGrid env) w row0 col0 d, env).
Proof.
  unfold countIntersections, crossings.
  assert (∀ i s, forEach (enumerateFrom i w) (λ '(l, _) intersections,
            let! cell := match d with
                         | across => peekCell row0 (col0 + l)
                         | down => peekCell (row0 + l) col0
                         end in
            ret (if bool_decide (is_Some cell) then intersections + 1 else intersections)) s env
          = Returned (s + Z.of_nat (length (filter
              (λ x, is_Some (peek (newGrid env) (cellPos d row0 col0 x.1)))
              (enumerateFrom i w))), env)) as Hgen; [|by rewrite Hgen].
  induction w as [|ch w IH]; intros i s; cbn [enumerateFrom forEach].
  - unfold ret. do 2 f_equal. simpl. lia.
  - rewrite filter_cons. unfold bind at 1.
    destruct d; unfold peekCell at 1; unfold bind at 1, ret at 1; rewrite IH; cbn [fst];
      unfold peek, cellPos; cbn [fst snd];
      case_bool_decide; destruct (decide _); try done; do 2 f_equal; simpl; lia.
Qed.

(** One candidate: the position is tested, and kept when it is accepted with
    more crossings than the best so far. *)
Lemma tryCandidate_cases wordObj pWord j k best env best' env' :
  tryCandidate wordObj pWord j k best env = Returned (best', env') →
  env' = env
  ∧ ∃ ok, canPlaceWord (word wordObj) (fitRow (candidateAt pWord j k))
            (fitCol (candidateAt pWord j k)) (fitDirection (candidateAt pWord j k)) env
          = Returned (ok, env)
    ∧ best' = if ok && bool_decide (crossingsAt env wordObj (candidateAt pWord j k) > best.2)
              then (Some (candidateAt pWord j k), crossingsAt env wordObj (candidateAt pWord j k))
              else best.
Proof.
  intros Hrun. pose proof (readOnly_tryCandidate _ _ _ _ _ _ _ _ Hrun) as ->.
  split; [done|]. unfold tryCandidate in Hrun. unfold candidateAt, crossingsAt. cbn [fitRow fitCol fitDirection].
  unfold bind at 1 in Hrun.
  destruct (canPlaceWord _ _ _ _ env) as [[ok e1]| |] eqn:Hok; [|done..].
  pose proof (readOnly_canPlaceWord _ _ _ _ _ _ _ Hok) as ->.
  exists ok. split; [done|]. destruct ok; [|by injection Hrun as <-].
  unfold bind at 1 in Hrun. rewrite countIntersections_crossings in Hrun.
  cbn [andb]. case_bool_decide; by injection Hrun as <-.
Qed.

Lemma tryCandidate_step wordObj pWord j k ch best env best' env' :
  pWord ∈ placedWords env →
  word wordObj !! j = Some ch → wordOf pWord !! k = Some ch →
  soundBest env wordObj best →
  tryCandidate wordObj pWord (Z.of_nat j) (Z.of_nat k) best env = Returned (best', env') →
  env' = env ∧ soundBest env wordObj best' ∧ best.2 ≤ best'.2
  ∧ covered env wordObj (candidateAt pWord (Z.of_nat j) (Z.of_nat k)) best'.
Proof.
  intros Hp Hj Hk Hsound Hrun.
  apply tryCandidate_cases in Hrun as (-> & ok & Hok & ->). split; [done|].
  assert (0 ≤ best.2) as Hpos.
  { unfold soundBest in Hsound. destruct (best.1); [lia|lia]. }
  destruct ok; cbn [andb].
  - case_bool_decide as Hgt; cbn [fst snd].
    + split_and!; [|lia|intros _; simpl; lia].
      unfold soundBest. cbn [fst snd]. split_and!; try done; [|lia].
      by exists pWord, j, k, ch.
    + split_and!; [done|lia|]. intros _. lia.
  - split_and!; [done|lia|]. unfold covered, accepted. rewrite Hok. done.
Qed.

Lemma covered_mono env wordObj fit (best best' : Best) :
  covered env wordObj fit best → best.2 ≤ best'.2 → covered env wordObj fit best'.
Proof. unfold covered. intros Hc Hle Ha. specialize (Hc Ha). lia. Qed.

(** The innermost loop, over the letters of one placed word. *)
Lemma findBestFit_letters wordObj pWord j wj best env best' env' :
  pWord ∈ placedWords env → word wordObj !! j = Some wj →
  soundBest env wordObj best →
  forEach (enumerateFrom 0 (word (placedEntry pWord))) (λ '(k, pk) best,
    if bool_decide (wj = pk) then tryCandidate wordObj pWord (Z.of_nat j) k best
    else ret best) best env = Returned (best', env') →
  env' = env ∧ soundBest env wordObj best' ∧ best.2 ≤ best'.2
  ∧ ∀ k, wordOf pWord !! k = Some wj →
      covered env wordObj (candidateAt pWord (Z.of_nat j) (Z.of_nat k)) best'.
Proof.
  intros Hp Hj Hsound Hrun.
  apply (forEach_covers _ _ (λ a b : Best, a.2 ≤ b.2) (soundBest env wordObj)
           (λ x b, x.2 = wj →
              covered env wordObj (candidateAt pWord (Z.of_nat j) x.1) b)) in Hrun
    as (-> & Hsound' & Hle & Hall); try done.
  - split_and!; try done. intros k Hk.
    apply (Hall (Z.of_nat k, wj)); [|done].
    apply elem_of_enumerateFrom. split; [lia|].
    by replace (Z.to_nat (Z.of_nat k - 0)) with k by lia.
  - intros; lia.
  - intros [k pk] s s' e' [Hk0 Hk]%elem_of_enumerateFrom Hs Hbody. cbn [fst snd].
    case_bool_decide as Heq.
    + subst pk. rewrite Z.sub_0_r in Hk.
      assert (k = Z.of_nat (Z.to_nat k)) as Hnat by lia. rewrite Hnat in Hbody |- *.
      destruct (tryCandidate_step wordObj pWord j _ wj s env s' e' Hp Hj Hk Hs Hbody)
        as (-> & ? & ? & ?).
      split_and!; try done. 
    + injection Hbody as <- <-. by split_and!.
  - intros x s s' Hc Hle Hx. eapply covered_mono; [by apply Hc|done].
Qed.

(** The search keeps an accepted candidate with the most crossings, if one
    has a crossing at all. *)
Lemma findBestFit_sound wordObj env best env' :
  findBestFit wordObj env = Returned (best, env') →
  env' = env ∧ soundBest env wordObj best
  ∧ ∀ fit, isCandidate (placedWords env) wordObj fit → covered env wordObj fit best.
Proof.
  intros Hrun. unfold findBestFit in Hrun.
  apply (forEach_covers _ _ (λ a b : Best, a.2 ≤ b.2) (soundBest env wordObj)
           (λ x b, ∀ pWord k, pWord ∈ placedWords env → wordOf pWord !! k = Some x.2 →
              covered env wordObj (candidateAt pWord x.1 (Z.of_nat k)) b)) in Hrun
    as (-> & Hsound' & Hle & Hall); try done.
  - split_and!; try done. intros fit (pWord & j & k & ch & Hp & Hj & Hk & ->).
    apply (Hall (Z.of_nat j, ch)); try done.
    apply elem_of_enumerateFrom. split; [lia|].
    by replace (Z.to_nat (Z.of_nat j - 0)) with j by lia.
  - intros; lia.
  - intros [j wj] s s' e' [Hj0 Hj]%elem_of_enumerateFrom Hs Hbody. cbn [fst snd].
    unfold bind at 1, getPlaced at 1 in Hbody. rewrite Z.sub_0_r in Hj.
    assert (j = Z.of_nat (Z.to_nat j)) as Hnat by lia. rewrite Hnat in Hbody |- *.
    apply (forEach_covers _ _ (λ a b : Best, a.2 ≤ b.2) (soundBest env wordObj)
             (λ pWord b, ∀ k, wordOf pWord !! k = Some wj →
                covered env wordObj
                  (candidateAt pWord (Z.of_nat (Z.to_nat j)) (Z.of_nat k)) b)) in Hbody
      as (-> & Hsound' & Hle & Hall); try done.
    + split_and!; try done. intros pWord k Hp Hk. by apply Hall.
    + intros; lia.
    + intros pWord s1 s2 e2 Hp Hs1 Hinner.
      by apply (findBestFit_letters wordObj pWord _ wj s1 env s2 e2).
    + intros x s1 s2 Hc Hle k Hk. eapply covered_mono; [by apply Hc|done].
  - intros x s s' Hc Hle pWord k Hp Hk. eapply covered_mono; [by apply Hc|done].
Qed.

(** ** Reachable states and the search *)

(** A candidate position puts a letter of the word on the equal letter of a
    placed word. *)
Lemma candidate_cell Q env wordObj fit :
  Inv Q env → isCandidate (placedWords env) wordObj fit →
  ∃ j ch cell, word wordObj !! j = Some ch
    ∧ newGrid env !! cellPos (fitDirection fit) (fitRow fit) (fitCol fit) (Z.of_nat j) = Some cell
    ∧ letter cell = [ch].
Proof.
  intros Hinv (pWord & j & k & ch & Hp & Hj & Hk & ->).
  destruct (inv_letters _ _ Hinv pWord k ch Hp Hk) as (cell & Hcell & Hletter).
  exists j, ch, cell. split_and!; try done. rewrite <- Hcell. f_equal.
  unfold candidateAt, cellPos. cbn [fitRow fitCol fitDirection].
  destruct (direction pWord); f_equal; lia.
Qed.

Lemma candidate_crosses Q env wordObj fit :
  Inv Q env → isCandidate (placedWords env) wordObj fit →
  1 ≤ crossingsAt env wordObj fit
  ∧ (fitDirection fit = across → 0 ≤ fitRow fit < GRID_SIZE).
Proof.
  intros Hinv Hcand.
  destruct (candidate_cell Q env wordObj fit Hinv Hcand) as (j & ch & cell & Hj & Hcell & _).
  destruct (cellPos (fitDirection fit) (fitRow fit) (fitCol fit) (Z.of_nat j))
    as [r c] eqn:Hpos.
  pose proof (inv_grid_rows _ _ Hinv r c cell Hcell) as Hr.
  split.
  - unfold crossingsAt, crossings.
    assert ((Z.of_nat j, ch) ∈ filter
              (λ x, is_Some (peek (newGrid env)
                 (cellPos (fitDirection fit) (fitRow fit) (fitCol fit) x.1)))
              (enumerateFrom 0 (word wordObj))) as Hin.
    { apply list_elem_of_filter. split.
      - cbn [fst]. rewrite Hpos. unfold peek. cbn [fst]. by rewrite rowExists_true, Hcell.
      - apply elem_of_enumerateFrom. split; [lia|].
        by replace (Z.to_nat (Z.of_nat j - 0)) with j by lia. }
    destruct (filter _ _); [by apply elem_of_nil in Hin|simpl; lia].
  - intros Hd. rewrite Hd in Hpos. unfold cellPos in Hpos. by injection Hpos as -> _.
Qed.

(** In a reachable state [canPlaceWord] returns on every candidate, and
    tells whether its tests hold. *)
Lemma candidate_accepted Q env wordObj fit :
  Inv Q env → isCandidate (placedWords env) wordObj fit →
  accepted env wordObj fit
  ↔ feasible (newGrid env) (word wordObj) (fitRow fit) (fitCol fit) (fitDirection fit).
Proof.
  intros Hinv Hcand.
  destruct (candidate_crosses Q env wordObj fit Hinv Hcand) as [_ Hrow].
  destruct (canPlaceWord_run (word wordObj) (fitRow fit) (fitCol fit) (fitDirection fit) env)
    as (b & Hb & Hiff); [intros Hd; apply Hrow in Hd; lia|].
  unfold accepted. rewrite Hb, <- Hiff. split; [by intros [= ->]|by intros ->].
Qed.

(** ** Passes that place nothing *)

Lemma fromTheEnd_elem words i w : words !! i = Some w → (i, w) ∈ fromTheEnd words.
Proof.
  intros Hw. unfold fromTheEnd. rewrite elem_of_reverse.
  apply elem_of_lookup_imap. by exists i, w.
Qed.

Lemma scanPending_none candidates words env words' env' :
  scanPending candidates words env = Returned ((words', false), env') →
  ∀ i w, (i, w) ∈ candidates →
    ∃ best, findBestFit w env = Returned (best, env) ∧ ¬ (is_Some best.1 ∧ best.2 > 0).
Proof.
  induction candidates as [|[i wordObj] candidates IH]; cbn [scanPending].
  - intros _ i w Hin. by apply elem_of_nil in Hin.
  - unfold bind at 1.
    destruct (findBestFit wordObj env) as [[[bestFit m] env0]| |] eqn:Hbest; [|done..].
    pose proof (readOnly_findBestFit wordObj env _ _ Hbest) as ->.
    cbn [fst snd]. intros Hrun.
    assert (scanPending candidates words env = Returned (words', false, env')
            ∧ ¬ (is_Some bestFit ∧ m > 0)) as [Hrest Hnone].
    { destruct bestFit as [fit|].
      - case_bool_decide as Hm.
        + unfold bind at 1 in Hrun.
          destruct (placeWordOnGrid wordObj _ _ _ env) as [[[] env1]| |]; [|done..].
          unfold bind at 1 in Hrun. destruct (pushPlaced _ env1) as [[[] env2]| |]; done.
        + split; [done|]. by intros [_ ?].
      - split; [done|]. by intros [[? [=]] _]. }
    intros i0 w [[= -> ->]|Hin]%elem_of_cons.
    + by exists (bestFit, m).
    + by eapply IH.
Qed.

(** When the loop returns, the words left are stalled: the last pass has
    found no position with a crossing for any of them. *)
Lemma placementLoop_exhausts fuel words attempts passes env r env' :
  0 ≤ attempts → (0 < attempts → stalled env words) →
  placementLoop fuel words attempts passes env = Returned (r, env') →
  stalled env' r.1.
Proof.
  revert words attempts passes env.
  induction fuel as [|fuel IH]; intros words attempts passes env Hatt Hstall;
    cbn [placementLoop].
  - case_bool_decide as Hcond; [done|]. intros [= <- <-]. cbn [fst].
    destruct words as [|w words]; [intros w Hw; by apply elem_of_nil in Hw|].
    apply Hstall. simpl in Hcond. lia.
  - case_bool_decide as Hcond.
    + unfold bind at 1.
      destruct (scanPending _ words env) as [[[words1 flag] env1]| |] eqn:Hpass; [|done..].
      cbn [fst snd]. apply IH.
      * destruct flag; lia.
      * destruct flag; [lia|]. intros _.
        pose proof (scanPending_none _ _ _ _ _ Hpass) as Hnone.
        apply scanPending_cases in Hpass as [(_ & -> & ->)|(? & _)]; [|done].
        intros w [i Hw]%list_elem_of_lookup. apply (Hnone i). by apply fromTheEnd_elem.
    + intros [= <- <-]. cbn [fst].
      destruct words as [|w words]; [intros w Hw; by apply elem_of_nil in Hw|].
      apply Hstall. simpl in Hcond. lia.
Qed.

(** In a reachable state a stalled word has no candidate position that
    passes the tests of [canPlaceWord]. *)
Lemma stalled_no_fit Q env words w fit :
  Inv Q env → stalled env words → w ∈ words →
  isCandidate (placedWords env) w fit →
  ¬ feasible (newGrid env) (word w) (fitRow fit) (fitCol fit) (fitDirection fit).
Proof.
  intros Hinv Hstall Hw Hcand Hfeasible.
  destruct (Hstall w Hw) as ([bestFit m] & Hbest & Hnone).
  apply findBestFit_sound in Hbest as (_ & Hsound & Hcovered).
  apply (candidate_accepted Q env w fit Hinv Hcand) in Hfeasible.
  pose proof (Hcovered fit Hcand Hfeasible) as Hle. cbn [snd] in Hle.
  destruct (candidate_crosses Q env w fit Hinv Hcand) as [Hone _].
  unfold soundBest in Hsound. cbn [fst snd] in *.
  destruct bestFit as [fit'|]; [|lia].
  apply Hnone. split; [done|lia].
Qed.

(** ** The grid stays inside its bounds *)

Lemma insideGrid_step (Q : WordEntry → Prop) (env : Env) (wordObj : WordEntry) (fit : BestFit) (m : Z) (g' : gmap (Z * Z) Cell) :
  Inv Q env → insideGrid (newGrid env) →
  findBestFit wordObj env = Returned ((Some fit, m), env) →
  (∀ p, (∀ k, (k < length (word wordObj))%nat →
           p ≠ cellPos (fitDirection fit) (fitRow fit) (fitCol fit) (Z.of_nat k)) →
     g' !! p = newGrid env !! p) →
  insideGrid g'.
Proof.
  intros Hinv Hinside Hbest Hout p cell Hp.
  apply findBestFit_sound in Hbest as (_ & (Hcand & Hacc & _) & _). cbn [fst] in *.
  apply canPlaceWord_true in Hacc as (_ & ((Hrow & Hcol & Hfit) & _) & _).
  destruct (candidate_cell Q env wordObj fit Hinv Hcand) as (j & ch & cell0 & Hj & Hcell0 & _).
  apply Hinside in Hcell0 as [Hr0 Hc0].
  apply lookup_lt_Some in Hj.
  destruct (decide (p ∈ (λ k, cellPos (fitDirection fit) (fitRow fit) (fitCol fit) (Z.of_nat k))
                        <$> seq 0 (length (word wordObj)))) as [Hon|Hoff].
  - apply list_elem_of_fmap in Hon as (k & -> & Hk%elem_of_seq).
    unfold inGrid, cellPos in *. destruct (fitDirection fit); cbn [fst snd] in *; grid_lia.
  - rewrite Hout in Hp; [by eapply Hinside|].
    intros k Hk ->. apply Hoff. apply list_elem_of_fmap. exists k. split; [done|].
    apply elem_of_seq. lia.
Qed.

(** ** The whole run *)

Lemma Ledger_initial all : Ledger all all initialEnv.
Proof.
  split; simpl; try done.
  - intros n Hn. lia.
Qed.

(** The first word, when it is not longer than the grid is wide, lies inside
    the grid. *)
Lemma insideGrid_first (firstWord : WordEntry) (g' : gmap (Z * Z) Cell) :
  len (word firstWord) ≤ GRID_SIZE →
  (∀ p, (∀ k, (k < length (word firstWord))%nat →
           p ≠ cellPos across (GRID_SIZE / 2) ((GRID_SIZE - len (word firstWord)) / 2)
                 (Z.of_nat k)) →
     g' !! p = newGrid initialEnv !! p) →
  insideGrid g'.
Proof.
  intros Hlen Hout p cell Hp.
  destruct (decide (p ∈ (λ k, cellPos across (GRID_SIZE / 2)
                                ((GRID_SIZE - len (word firstWord)) / 2) (Z.of_nat k))
                        <$> seq 0 (length (word firstWord)))) as [Hon|Hoff].
  - apply list_elem_of_fmap in Hon as (k & -> & Hk%elem_of_seq).
    unfold inGrid, cellPos. cbn [fst snd]. unfold len, GRID_SIZE in *.
    change (Z.div 30 2) with 15.
    pose proof (Z.div_mod (30 - Z.of_nat (length (word firstWord))) 2).
    pose proof (Z.mod_pos_bound (30 - Z.of_nat (length (word firstWord))) 2). lia.
  - rewrite Hout in Hp; [simpl in Hp; by rewrite lookup_empty in Hp|].
    intros k Hk ->. apply Hoff. apply list_elem_of_fmap. exists k. split; [done|].
    apply elem_of_seq. lia.
Qed.

Lemma connected_step (placed : list PlacedWord) wordObj fit :
  connected placed → isCandidate placed wordObj fit →
  connected (placed ++ [placementOf wordObj fit]).
Proof.
  intros Hconn (pWord & j & k & ch & Hp & Hj & Hk & ->) i pw Hi.
  destruct (decide (i < length placed)%nat) as [Hold|Hnew].
  - rewrite lookup_app_l in Hi by done.
    destruct (Hconn i pw Hi) as [->|(j0 & q & a & b & ch0 & Hlt & Hq & Hrest)]; [by left|].
    right. exists j0, q, a, b, ch0. split; [done|].
    split; [|done]. rewrite lookup_app_l; [done|lia].
  - rewrite lookup_app_r in Hi by lia.
    destruct (i - length placed)%nat as [|n] eqn:Hdiff; [|by destruct n].
    injection Hi as <-. right.
    apply list_elem_of_lookup in Hp as [j0 Hj0].
    pose proof (lookup_lt_Some _ _ _ Hj0).
    exists j0, pWord, j, k, ch. split; [lia|]. split; [by rewrite lookup_app_l|].
    unfold placementOf, candidateAt, wordOf, cellPos.
    cbn [placedEntry row col direction fitRow fitCol fitDirection].
    split_and!; try done; destruct (direction pWord); try done; f_equal; lia.
Qed.

(** What holds when [runAlgorithm] returns: the invariant, the bookkeeping,
    the first word still at the head of [placedWords] and numbered 1, the
    grid inside its bounds if the first word is, and the words left
    stalled. *)
Lemma runAlgorithm_facts Q fuel firstWord rest pending passes env :
  Forall (λ w, 0 < len (word w) ∧ Q w) (firstWord :: rest) →
  runAlgorithm fuel (firstWord :: rest) initialEnv = Returned ((pending, passes), env) →
  Inv Q env ∧ Ledger (firstWord :: rest) pending env
  ∧ head (placedWords env) = Some (firstPlacement firstWord)
  ∧ numberLocations env
      !! cellKey (GRID_SIZE / 2) ((GRID_SIZE - len (word firstWord)) / 2) = Some 1
  ∧ (len (word firstWord) ≤ GRID_SIZE → insideGrid (newGrid env))
  ∧ stalled env pending
  ∧ connected (placedWords env).
Proof.
  intros Hwords Hrun.
  pose proof Hwords as [[Hfirst HQ] Hrest]%Forall_cons.
  cbn [runAlgorithm] in Hrun.
  set (row0 := GRID_SIZE / 2) in *.
  set (col0 := (GRID_SIZE - len (word firstWord)) / 2) in *.
  assert (rowsInside (word firstWord) row0 across) as Hrows by done.
  assert (compatible (newGrid initialEnv) (word firstWord) row0 col0 across) as Hcompat.
  { intros k ch _. simpl. by rewrite lookup_empty. }
  destruct (placeWordOnGrid_run firstWord row0 col0 across initialEnv Hrows)
    as (n & g' & Hplace & Hn & Hin & Hout).
  rewrite (bind_returned _ _ _ _ _ Hplace) in Hrun.
  unfold bind at 1, pushPlaced at 1 in Hrun.
  cbn [newGrid cluesAcross cluesDown clueCounter placedWords numberLocations] in Hrun.
  change (placementLoop fuel rest 0 0 (afterPlacement initialEnv firstWord row0 col0 across n g')
          = Returned (pending, passes, env)) in Hrun.
  set (J := λ (words : list WordEntry) (e : Env),
    Inv Q e ∧ Forall (λ w, 0 < len (word w) ∧ Q w) words
    ∧ Ledger (firstWord :: rest) words e
    ∧ head (placedWords e) = Some (firstPlacement firstWord)
    ∧ numberLocations e !! cellKey row0 col0 = Some 1
    ∧ (len (word firstWord) ≤ GRID_SIZE → insideGrid (newGrid e))
    ∧ connected (placedWords e)).
  pose proof (placementLoop_exhausts _ _ _ _ _ _ _ (Z.le_refl 0)
                (λ H : 0 < 0, False_rect _ (Z.lt_irrefl 0 H)) Hrun) as Hstalled.
  assert (J pending env) as (? & _ & ? & ? & ? & ? & ?); [|done].
  apply (placementLoop_invariant J) with (r := (pending, passes)) in Hrun; [done| |].
  - clear Hrun Hstalled.
    intros words e i wordObj fit m e1 e' (Hinv & Hall & Hled & Hhead & Hone & Hinside & Hconn)
      Hi Hbest Hm Hplace' Hpush.
    assert (0 < len (word wordObj) ∧ Q wordObj) as [Hlen' HQ'].
    { rewrite Forall_forall in Hall. apply Hall. by eapply list_elem_of_lookup_2. }
    destruct (committed_step Q e wordObj fit m e1 e' Hinv HQ' Hlen' Hbest Hplace' Hpush)
      as (n' & g'' & -> & Hn' & Hin' & Hout' & Hinv').
    split_and!.
    + done.
    + by apply Forall_delete.
    + by apply (Ledger_afterPlacement Q).
    + simpl. rewrite head_app, Hhead. done.
    + simpl. by apply (numbers_kept e wordObj _ _ (fitDirection fit) n' g'' Hn' Hin').
    + intros Hshort. simpl. by apply (insideGrid_step Q e wordObj fit m g'' Hinv (Hinside Hshort)).
    + simpl. apply (connected_step _ wordObj fit Hconn).
      by apply findBestFit_sound in Hbest as (_ & (? & _) & _).
  - split_and!.
    + by apply afterPlacement_Inv; try done; apply Inv_initial.
    + done.
    + apply (Ledger_afterPlacement Q (firstWord :: rest) (firstWord :: rest) 0 initialEnv);
        try done; [apply Inv_initial|apply Ledger_initial].
    + done.
    + simpl. rewrite lookup_insert_eq, Hn. done.
    + intros Hshort. simpl. by apply (insideGrid_first firstWord).
    + simpl. intros [|[|i]] pw Hi; [by left|done..].
Qed.

Lemma construct_finished `{Unicode} fuel wordEntries :
  (2 ≤ length (normalizeWords wordEntries))%nat →
  (length (normalizeWords wordEntries) - 1 ≤ fuel)%nat →
  ∃ firstWord pending env,
    construct fuel wordEntries =
      Returned {| builtGrid := newGrid env;
                  builtAcross := sortByNumber (cluesAcross env);
                  builtDown := sortByNumber (cluesDown env);
                  builtPlaced := placedWords env;
                  unplaced := pending;
                  passCount := (length (normalizeWords wordEntries) - 1)%nat |}
    ∧ Finished (normalizeWords wordEntries) firstWord pending env.
Proof.
  intros Hlen Hfuel.
  assert (Forall (λ w, 0 < len (word w) ∧ w ∈ normalizeWords wordEntries)
            (normalizeWords wordEntries)) as Hwords.
  { apply Forall_forall. intros w Hw. split; [|done].
    apply normalizeWords_sound in Hw as (_ & _ & _ & Hw & _). unfold len. lia. }
  destruct (runAlgorithm_run (λ w, w ∈ normalizeWords wordEntries) fuel
              (normalizeWords wordEntries) Hwords) as (pending & env & Hrun & _); [lia|done|].
  destruct (normalizeWords wordEntries) as [|firstWord rest] eqn:Hnorm; [simpl in Hlen; lia|].
  destruct (runAlgorithm_facts _ fuel firstWord rest pending _ env Hwords Hrun)
    as (Hinv & Hled & Hhead & Hone & Hinside & Hstalled & Hconn).
  exists firstWord, pending, env. split; [|done].
  unfold construct. rewrite Hnorm, bool_decide_eq_false_2 by (simpl in *; lia).
  by rewrite Hrun.
Qed.

(** ** What a construction guarantees *)

(** X1: the words are sorted by decreasing length before the construction: no
    word of the list is longer than one before it, whatever the input. *)
Theorem normalizeWords_longest_first `{Unicode} wordEntries :
  longestFirst (normalizeWords wordEntries)
  ∧ ∀ firstWord w, head (normalizeWords wordEntries) = Some firstWord →
      w ∈ normalizeWords wordEntries → (length (word w) ≤ length (word firstWord))%nat.
Proof.
  assert (longestFirst (normalizeWords wordEntries)) as Hsorted
    by apply sortByLength_sorted.
  split; [done|]. intros firstWord w Hhead Hw.
  destruct (normalizeWords wordEntries) as [|x l]; [done|]. injection Hhead as ->.
  apply StronglySorted_inv in Hsorted as [_ Hall].
  apply elem_of_cons in Hw as [->|Hw]; [done|].
  rewrite Forall_forall in Hall. by apply Hall.
Qed.

(** X2: no word is lost or used twice: the entries of the placed words followed
    by the words reported as unplaced are the normalized words, each once. *)
Theorem construct_places_each_word_once `{Unicode} fuel wordEntries :
  (2 ≤ length (normalizeWords wordEntries))%nat →
  (length (normalizeWords wordEntries) - 1 ≤ fuel)%nat →
  ∃ built, construct fuel wordEntries = Returned built
    ∧ (placedEntry <$> builtPlaced built) ++ unplaced built ≡ₚ normalizeWords wordEntries
    ∧ NoDup (word <$> ((placedEntry <$> builtPlaced built) ++ unplaced built)).
Proof.
  intros Hlen Hfuel.
  destruct (construct_finished fuel wordEntries Hlen Hfuel)
    as (firstWord & pending & env & Hrun & Hfin).
  eexists. split; [exact Hrun|]. cbn [builtPlaced unplaced].
  pose proof (led_words _ _ _ (fin_ledger _ _ _ _ Hfin)) as Hperm.
  split; [done|]. rewrite Hperm. apply normalizeWords_NoDup.
Qed.

Lemma construct_places_each_word_once_witness :
  ∃ built, construct (H := Latin1.tables) 2 scenarioBlocked = Returned built
    ∧ (placedEntry <$> builtPlaced built) ++ unplaced built
      ≡ₚ normalizeWords (H := Latin1.tables) scenarioBlocked
    ∧ NoDup (word <$> ((placedEntry <$> builtPlaced built) ++ unplaced built)).
Proof.
  apply (construct_places_each_word_once (H := Latin1.tables) 2 scenarioBlocked).
  - vm_compute. lia.
  - vm_compute. lia.
Defined.

(** X3: the grid holds no stray letter: every filled cell is the cell of a letter
    of a placed word and holds that letter alone; and under the direction of
    that word it carries the clue number that the grid shows on the start
    cell of the word, a number from 1 on. *)
Theorem construct_cells_belong_to_words `{Unicode} fuel wordEntries :
  (2 ≤ length (normalizeWords wordEntries))%nat →
  (length (normalizeWords wordEntries) - 1 ≤ fuel)%nat →
  ∃ built, construct fuel wordEntries = Returned built
    ∧ ∀ p cell, builtGrid built !! p = Some cell →
        ∃ pw i ch, pw ∈ builtPlaced built ∧ wordOf pw !! i = Some ch
          ∧ p = cellPos (direction pw) (row pw) (col pw) (Z.of_nat i)
          ∧ letter cell = [ch]
          ∧ along (direction pw) cell = Some (startNumber (builtGrid built) pw)
          ∧ 1 ≤ startNumber (builtGrid built) pw.
Proof.
  intros Hlen Hfuel.
  destruct (construct_finished fuel wordEntries Hlen Hfuel)
    as (firstWord & pending & env & Hrun & Hfin).
  eexists. split; [exact Hrun|]. cbn [builtPlaced builtGrid].
  pose proof (fin_inv _ _ _ _ Hfin) as Hinv.
  intros p cell Hp.
  destruct (led_cells _ _ _ (fin_ledger _ _ _ _ Hfin) p cell Hp)
    as (pw & i & ch & Hpw & Hi & -> & Hmark).
  exists pw, i, ch.
  destruct (inv_letters _ _ Hinv pw i ch Hpw Hi) as (cell' & Hcell' & Hletter).
  destruct (inv_starts _ _ Hinv pw Hpw) as (n & cell0 & Hkey & Hcell0 & Hnum).
  assert (startNumber (newGrid env) pw = n) as ->.
  { unfold startNumber. by rewrite Hcell0; simpl; rewrite Hnum. }
  pose proof (inv_counter _ _ Hinv _ _ Hkey).
  split_and!; try done; [by simplify_eq|congruence|lia].
Qed.

Lemma construct_cells_belong_to_words_witness :
  ∃ built, construct (H := Latin1.tables) 1 scenarioA = Returned built
    ∧ ∀ p cell, builtGrid built !! p = Some cell →
        ∃ pw i ch, pw ∈ builtPlaced built ∧ wordOf pw !! i = Some ch
          ∧ p = cellPos (direction pw) (row pw) (col pw) (Z.of_nat i)
          ∧ letter cell = [ch]
          ∧ along (direction pw) cell = Some (startNumber (builtGrid built) pw)
          ∧ 1 ≤ startNumber (builtGrid built) pw.
Proof.
  apply (construct_cells_belong_to_words (H := Latin1.tables) 1 scenarioA).
  - vm_compute. lia.
  - vm_compute. lia.
Defined.

Lemma clueFor_on_grid Q env p :
  Inv Q env → p ∈ placedWords env →
  clueFor (numberLocations env) p = clueOnGrid (newGrid env) p.
Proof.
  intros Hinv Hp. destruct (inv_starts _ _ Hinv p Hp) as (n & cell & Hn & Hcell & Hnum).
  unfold clueFor, clueOnGrid, startNumber. by rewrite Hn, Hcell; simpl; rewrite Hnum.
Qed.

Lemma clues_on_grid Q env d :
  Inv Q env →
  clueFor (numberLocations env) <$> placedAlong d (placedWords env)
  = clueOnGrid (newGrid env) <$> placedAlong d (placedWords env).
Proof.
  intros Hinv. apply list_fmap_ext. intros i p Hp%list_elem_of_lookup_2.
  apply list_elem_of_filter in Hp as [_ Hp]. by eapply clueFor_on_grid.
Qed.

(** X4: each list of clues holds one clue per placed word of its direction, no
    other: the text is the clue of the word and the number is the number that
    the grid shows on its start cell; and the list is in increasing order of
    the numbers. *)
Theorem construct_clue_lists `{Unicode} fuel wordEntries :
  (2 ≤ length (normalizeWords wordEntries))%nat →
  (length (normalizeWords wordEntries) - 1 ≤ fuel)%nat →
  ∃ built, construct fuel wordEntries = Returned built
    ∧ builtAcross built
      ≡ₚ clueOnGrid (builtGrid built) <$> placedAlong across (builtPlaced built)
    ∧ builtDown built
      ≡ₚ clueOnGrid (builtGrid built) <$> placedAlong down (builtPlaced built)
    ∧ byNumber (builtAcross built) ∧ byNumber (builtDown built).
Proof.
  intros Hlen Hfuel.
  destruct (construct_finished fuel wordEntries Hlen Hfuel)
    as (firstWord & pending & env & Hrun & Hfin).
  eexists. split; [exact Hrun|]. cbn [builtPlaced builtGrid builtAcross builtDown].
  pose proof (fin_inv _ _ _ _ Hfin) as Hinv.
  pose proof (fin_ledger _ _ _ _ Hfin) as Hled.
  split_and!.
  - by rewrite sortByNumber_perm, (led_across _ _ _ Hled), (clues_on_grid _ env across Hinv).
  - by rewrite sortByNumber_perm, (led_down _ _ _ Hled), (clues_on_grid _ env down Hinv).
  - apply sortByNumber_sorted.
  - apply sortByNumber_sorted.
Qed.

Lemma construct_clue_lists_witness :
  ∃ built, construct (H := Latin1.tables) 1 scenarioA = Returned built
    ∧ builtAcross built
      ≡ₚ clueOnGrid (builtGrid built) <$> placedAlong across (builtPlaced built)
    ∧ builtDown built
      ≡ₚ clueOnGrid (builtGrid built) <$> placedAlong down (builtPlaced built)
    ∧ byNumber (builtAcross built) ∧ byNumber (builtDown built).
Proof.
  apply (construct_clue_lists (H := Latin1.tables) 1 scenarioA).
  - vm_compute. lia.
  - vm_compute. lia.
Defined.

(** X5: the clue numbers are consecutive from 1: for some k at least 1, the
    numbers of the two lists of clues are exactly 1, ..., k. *)
Theorem construct_numbers_consecutive `{Unicode} fuel wordEntries :
  (2 ≤ length (normalizeWords wordEntries))%nat →
  (length (normalizeWords wordEntries) - 1 ≤ fuel)%nat →
  ∃ built k, construct fuel wordEntries = Returned built ∧ 1 ≤ k
    ∧ ∀ n, 1 ≤ n ≤ k ↔ ∃ c, c ∈ builtAcross built ++ builtDown built ∧ number c = n.
Proof.
  intros Hlen Hfuel.
  destruct (construct_finished fuel wordEntries Hlen Hfuel)
    as (firstWord & pending & env & Hrun & Hfin).
  pose proof (fin_inv _ _ _ _ Hfin) as Hinv.
  pose proof (fin_ledger _ _ _ _ Hfin) as Hled.
  eexists _, (clueCounter env - 1). split; [exact Hrun|].
  cbn [builtAcross builtDown]. split.
  - pose proof (inv_counter _ _ Hinv _ _ (fin_one _ _ _ _ Hfin)). lia.
  - intros n. split.
    + intros Hn. destruct (led_numbers _ _ _ Hled n) as (pw & Hpw & Hkey); [lia|].
      exists (clueFor (numberLocations env) pw). split.
      * apply elem_of_app. rewrite !sortByNumber_perm.
        rewrite (led_across _ _ _ Hled), (led_down _ _ _ Hled).
        destruct (direction pw) eqn:Hd; [left|right];
          apply list_elem_of_fmap; exists pw; (split; [done|]);
          apply list_elem_of_filter; by split.
      * unfold clueFor. simpl. by rewrite Hkey.
    + intros (c & Hc & <-). apply elem_of_app in Hc. rewrite !sortByNumber_perm in Hc.
      assert (∃ p, numberLocations env !! cellKey (row p) (col p) = Some (number c))
        as (p & Hp).
      { destruct Hc as [Hc|Hc].
        - destruct (inv_across _ _ Hinv c Hc) as (p & _ & _ & _ & Hp). by exists p.
        - destruct (inv_down _ _ Hinv c Hc) as (p & _ & _ & _ & Hp). by exists p. }
      pose proof (inv_counter _ _ Hinv _ _ Hp). lia.
Qed.

Lemma construct_numbers_consecutive_witness :
  ∃ built k, construct (H := Latin1.tables) 1 scenarioA = Returned built ∧ 1 ≤ k
    ∧ ∀ n, 1 ≤ n ≤ k ↔ ∃ c, c ∈ builtAcross built ++ builtDown built ∧ number c = n.
Proof.
  apply (construct_numbers_consecutive (H := Latin1.tables) 1 scenarioA).
  - vm_compute. lia.
  - vm_compute. lia.
Defined.

(** X6: the first placed word is the first word of the sorted list: it lies
    across on row 15, from column floor((30 - length) / 2), and its start
    cell shows the number 1. *)
Theorem construct_first_word `{Unicode} fuel wordEntries :
  (2 ≤ length (normalizeWords wordEntries))%nat →
  (length (normalizeWords wordEntries) - 1 ≤ fuel)%nat →
  ∃ built firstWord cell, construct fuel wordEntries = Returned built
    ∧ head (normalizeWords wordEntries) = Some firstWord
    ∧ head (builtPlaced built) = Some (firstPlacement firstWord)
    ∧ builtGrid built !! (15, (30 - len (word firstWord)) `div` 2) = Some cell
    ∧ clueNumber cell = Some 1
    ∧ ∃ c, c ∈ builtAcross built ∧ number c = 1 ∧ clueText c = clue firstWord.
Proof.
  intros Hlen Hfuel.
  destruct (construct_finished fuel wordEntries Hlen Hfuel)
    as (firstWord & pending & env & Hrun & Hfin).
  pose proof (fin_inv _ _ _ _ Hfin) as Hinv.
  pose proof (fin_ledger _ _ _ _ Hfin) as Hled.
  pose proof (fin_first _ _ _ _ Hfin) as Hfirst.
  pose proof (fin_one _ _ _ _ Hfin) as Hone.
  assert (firstPlacement firstWord ∈ placedWords env) as Hin.
  { destruct (placedWords env); [done|]. injection Hfirst as ->. apply list_elem_of_here. }
  destruct (inv_starts _ _ Hinv _ Hin) as (n & cell & Hn & Hcell & Hnum).
  cbn [firstPlacement row col] in Hn, Hcell. rewrite Hone in Hn. injection Hn as <-.
  eexists. exists firstWord, cell. split; [exact Hrun|].
  cbn [builtPlaced builtGrid builtAcross]. split_and!; try done; [by apply (fin_head _ _ _ _ Hfin)|].
  exists (clueFor (numberLocations env) (firstPlacement firstWord)). split_and!.
  - rewrite sortByNumber_perm, (led_across _ _ _ Hled).
    apply list_elem_of_fmap. eexists. split; [done|]. by apply list_elem_of_filter.
  - unfold clueFor. cbn [firstPlacement row col number]. by rewrite Hone.
  - done.
Qed.

Lemma construct_first_word_witness :
  ∃ built firstWord cell, construct (H := Latin1.tables) 1 scenarioA = Returned built
    ∧ head (normalizeWords (H := Latin1.tables) scenarioA) = Some firstWord
    ∧ head (builtPlaced built) = Some (firstPlacement firstWord)
    ∧ builtGrid built !! (15, (30 - len (word firstWord)) `div` 2) = Some cell
    ∧ clueNumber cell = Some 1
    ∧ ∃ c, c ∈ builtAcross built ∧ number c = 1 ∧ clueText c = clue firstWord.
Proof.
  apply (construct_first_word (H := Latin1.tables) 1 scenarioA).
  - vm_compute. lia.
  - vm_compute. lia.
Defined.

(** X7: the search for the best fit changes nothing.  What it keeps is a
    candidate position that [canPlaceWord] accepts, with the number of its
    crossings, which is positive; and no accepted candidate has more
    crossings.  It keeps nothing exactly when it leaves the maximum at 0. *)
Theorem findBestFit_best wordObj env bestFit m env' :
  findBestFit wordObj env = Returned ((bestFit, m), env') →
  env' = env
  ∧ match bestFit with
    | Some fit => isCandidate (placedWords env) wordObj fit ∧ accepted env wordObj fit
                  ∧ m = crossingsAt env wordObj fit ∧ 0 < m
    | None => m = 0
    end
  ∧ ∀ fit, isCandidate (placedWords env) wordObj fit → accepted env wordObj fit →
      crossingsAt env wordObj fit ≤ m.
Proof.
  intros Hrun. apply findBestFit_sound in Hrun as (-> & Hsound & Hcovered).
  split; [done|]. split; [exact Hsound|].
  intros fit Hcand Hacc. exact (Hcovered fit Hcand Hacc).
Qed.

Lemma findBestFit_best_witness :
  afterFirstPlaced = afterFirstPlaced
  ∧ match Some {| fitRow := 14; fitCol := 14; fitDirection := down |} with
    | Some fit =>
        isCandidate (placedWords afterFirstPlaced)
          (mkEntry (js "CASA") (js "Onde se mora")) fit
        ∧ accepted afterFirstPlaced (mkEntry (js "CASA") (js "Onde se mora")) fit
        ∧ 1 = crossingsAt afterFirstPlaced (mkEntry (js "CASA") (js "Onde se mora")) fit
        ∧ 0 < 1
    | None => 1 = 0
    end
  ∧ ∀ fit, isCandidate (placedWords afterFirstPlaced)
             (mkEntry (js "CASA") (js "Onde se mora")) fit →
      accepted afterFirstPlaced (mkEntry (js "CASA") (js "Onde se mora")) fit →
      crossingsAt afterFirstPlaced (mkEntry (js "CASA") (js "Onde se mora")) fit ≤ 1.
Proof.
  apply (findBestFit_best (mkEntry (js "CASA") (js "Onde se mora")) afterFirstPlaced
           (Some {| fitRow := 14; fitCol := 14; fitDirection := down |}) 1 afterFirstPlaced).
  vm_compute. reflexivity.
Defined.

(** X8: the words reported as unplaced do not fit: in the final grid no position
    that puts a letter of such a word on an equal letter of a placed word,
    perpendicular to it, passes the tests of [canPlaceWord]. *)
Theorem construct_unplaced_do_not_fit `{Unicode} fuel wordEntries :
  (2 ≤ length (normalizeWords wordEntries))%nat →
  (length (normalizeWords wordEntries) - 1 ≤ fuel)%nat →
  ∃ built, construct fuel wordEntries = Returned built
    ∧ ∀ w fit, w ∈ unplaced built → isCandidate (builtPlaced built) w fit →
        ¬ feasible (builtGrid built) (word w) (fitRow fit) (fitCol fit) (fitDirection fit).
Proof.
  intros Hlen Hfuel.
  destruct (construct_finished fuel wordEntries Hlen Hfuel)
    as (firstWord & pending & env & Hrun & Hfin).
  eexists. split; [exact Hrun|]. cbn [builtPlaced builtGrid unplaced].
  intros w fit Hw Hcand.
  exact (stalled_no_fit _ env pending w fit (fin_inv _ _ _ _ Hfin)
           (fin_stalled _ _ _ _ Hfin) Hw Hcand).
Qed.

Lemma construct_unplaced_do_not_fit_witness :
  ∃ built, construct (H := Latin1.tables) 2 scenarioBlocked = Returned built
    ∧ ∀ w fit, w ∈ unplaced built → isCandidate (builtPlaced built) w fit →
        ¬ feasible (builtGrid built) (word w) (fitRow fit) (fitCol fit) (fitDirection fit).
Proof.
  apply (construct_unplaced_do_not_fit (H := Latin1.tables) 2 scenarioBlocked).
  - vm_compute. lia.
  - vm_compute. lia.
Defined.

(** SS stays unplaced in that run, although it has candidate positions, such
    as across from (16, 14) on the S of CASA. *)
Example blocked_word_runs :
  ∃ built, construct (H := Latin1.tables) 2 scenarioBlocked = Returned built
    ∧ word <$> unplaced built = [js "SS"]
    ∧ wordOf <$> builtPlaced built = [js "GATO"; js "CASA"]
    ∧ isCandidate (builtPlaced built) (mkEntry (js "SS") (js "Dois esses"))
        {| fitRow := 16; fitCol := 14; fitDirection := across |}.
Proof.
  eexists. split; [vm_compute; reflexivity|]. split; [reflexivity|]. split; [reflexivity|].
  exists {| placedEntry := mkEntry (js "CASA") (js "Onde se mora");
            row := 14; col := 14; direction := down |}, 0%nat, 2%nat, 83%N.
  split_and!; try reflexivity.
  cbn [builtPlaced]. apply list_elem_of_further, list_elem_of_here.
Qed.

(** X9: all letters lie on the 30 x 30 cells of the grid exactly when the first
    word, the longest one, has at most 30 letters; a longer first word starts
    at a negative column. *)
Theorem construct_grid_inside `{Unicode} fuel wordEntries :
  (2 ≤ length (normalizeWords wordEntries))%nat →
  (length (normalizeWords wordEntries) - 1 ≤ fuel)%nat →
  ∃ built firstWord, construct fuel wordEntries = Returned built
    ∧ head (normalizeWords wordEntries) = Some firstWord
    ∧ (insideGrid (builtGrid built) ↔ len (word firstWord) ≤ GRID_SIZE).
Proof.
  intros Hlen Hfuel.
  destruct (construct_finished fuel wordEntries Hlen Hfuel)
    as (firstWord & pending & env & Hrun & Hfin).
  eexists. exists firstWord. split; [exact Hrun|]. cbn [builtGrid].
  split; [by apply (fin_head _ _ _ _ Hfin)|].
  split; [|by apply (fin_inside _ _ _ _ Hfin)].
  intros Hinside.
  pose proof (fin_inv _ _ _ _ Hfin) as Hinv.
  pose proof (fin_first _ _ _ _ Hfin) as Hfirst.
  assert (firstPlacement firstWord ∈ placedWords env) as Hin.
  { destruct (placedWords env); [done|]. injection Hfirst as ->. apply list_elem_of_here. }
  destruct (inv_starts _ _ Hinv _ Hin) as (n & cell & _ & Hcell & _).
  apply Hinside in Hcell as [_ [Hcol _]].
  cbn [firstPlacement row col fst snd] in Hcol. unfold len, GRID_SIZE in *.
  pose proof (Z.div_mod (30 - Z.of_nat (length (word firstWord))) 2).
  pose proof (Z.mod_pos_bound (30 - Z.of_nat (length (word firstWord))) 2). lia.
Qed.

Lemma construct_grid_inside_witness :
  ∃ built firstWord, construct (H := Latin1.tables) 2 scenarioBlocked = Returned built
    ∧ head (normalizeWords (H := Latin1.tables) scenarioBlocked) = Some firstWord
    ∧ (insideGrid (builtGrid built) ↔ len (word firstWord) ≤ GRID_SIZE).
Proof.
  apply (construct_grid_inside (H := Latin1.tables) 2 scenarioBlocked).
  - vm_compute. lia.
  - vm_compute. lia.
Defined.

(** X10: [placeWordOnGrid], where the rows of the word exist, returns; it leaves
    the letter of every filled cell as it is, fills no cell but the cells of
    the word, records no placed word, and advances the counter by one at
    most. *)
Theorem placeWordOnGrid_keeps_letters wordObj row0 col0 d env :
  rowsInside (word wordObj) row0 d →
  ∃ env', placeWordOnGrid wordObj row0 col0 d env = Returned (tt, env')
    ∧ (∀ p cell, newGrid env !! p = Some cell →
         ∃ cell', newGrid env' !! p = Some cell' ∧ letter cell' = letter cell)
    ∧ (∀ p, newGrid env !! p = None → is_Some (newGrid env' !! p) →
         ∃ k ch, word wordObj !! k = Some ch ∧ p = cellPos d row0 col0 (Z.of_nat k)
                 ∧ letter <$> newGrid env' !! p = Some [ch])
    ∧ placedWords env' = placedWords env
    ∧ clueCounter env ≤ clueCounter env' ≤ clueCounter env + 1.
Proof.
  intros Hrows.
  destruct (placeWordOnGrid_run wordObj row0 col0 d env Hrows)
    as (n & g' & Hrun & Hn & Hin & Hout).
  eexists. split; [exact Hrun|].
  cbn [newGrid placedWords clueCounter].
  assert (∀ p, (∃ k ch, word wordObj !! k = Some ch ∧ p = cellPos d row0 col0 (Z.of_nat k))
               ∨ g' !! p = newGrid env !! p) as Hcases.
  { intros p.
    destruct (decide (p ∈ (λ k, cellPos d row0 col0 (Z.of_nat k))
                          <$> seq 0 (length (word wordObj)))) as [Hon|Hoff].
    - left. apply list_elem_of_fmap in Hon as (k & -> & Hk%elem_of_seq).
      destruct (lookup_lt_is_Some_2 (word wordObj) k) as [ch Hch]; [lia|].
      by exists k, ch.
    - right. apply Hout. intros k Hk ->. apply Hoff. apply list_elem_of_fmap.
      exists k. split; [done|]. apply elem_of_seq. lia. }
  split_and!.
  - intros p cell Hp. destruct (Hcases p) as [(k & ch & Hk & ->)|Heq].
    + rewrite (Hin k ch Hk). eexists. split; [done|]. by rewrite written_letter, Hp.
    + exists cell. by rewrite Heq.
  - intros p Hp [cell' Hcell']. destruct (Hcases p) as [(k & ch & Hk & ->)|Heq].
    + exists k, ch. split_and!; try done.
      rewrite (Hin k ch Hk). simpl. by rewrite written_letter, Hp.
    + rewrite Heq, Hp in Hcell'. done.
  - done.
  - destruct (numberLocations env !! cellKey row0 col0); lia.
  - destruct (numberLocations env !! cellKey row0 col0); lia.
Qed.

Lemma placeWordOnGrid_keeps_letters_witness :
  ∃ env', placeWordOnGrid (mkEntry (js "CASA") (js "Onde se mora")) 14 14 down afterFirstPlaced
          = Returned (tt, env')
    ∧ (∀ p cell, newGrid afterFirstPlaced !! p = Some cell →
         ∃ cell', newGrid env' !! p = Some cell' ∧ letter cell' = letter cell)
    ∧ (∀ p, newGrid afterFirstPlaced !! p = None → is_Some (newGrid env' !! p) →
         ∃ k ch, word (mkEntry (js "CASA") (js "Onde se mora")) !! k = Some ch
                 ∧ p = cellPos down 14 14 (Z.of_nat k)
                 ∧ letter <$> newGrid env' !! p = Some [ch])
    ∧ placedWords env' = placedWords afterFirstPlaced
    ∧ clueCounter afterFirstPlaced ≤ clueCounter env' ≤ clueCounter afterFirstPlaced + 1.
Proof.
  apply (placeWordOnGrid_keeps_letters (mkEntry (js "CASA") (js "Onde se mora")) 14 14 down
           afterFirstPlaced).
  unfold rowsInside, len, GRID_SIZE. simpl. lia.
Defined.

(** X11: the crossword is connected: every placed word but the first crosses a
    word placed before it, perpendicular to it, on a cell where both have the
    same letter. *)
Theorem construct_words_connected `{Unicode} fuel wordEntries :
  (2 ≤ length (normalizeWords wordEntries))%nat →
  (length (normalizeWords wordEntries) - 1 ≤ fuel)%nat →
  ∃ built, construct fuel wordEntries = Returned built
    ∧ ∀ i pw, builtPlaced built !! i = Some pw →
        i = 0%nat ∨ crossesEarlier (builtPlaced built) i pw.
Proof.
  intros Hlen Hfuel.
  destruct (construct_finished fuel wordEntries Hlen Hfuel)
    as (firstWord & pending & env & Hrun & Hfin).
  eexists. split; [exact Hrun|]. cbn [builtPlaced].
  exact (fin_connected _ _ _ _ Hfin).
Qed.

Lemma construct_words_connected_witness :
  ∃ built, construct (H := Latin1.tables) 2 scenarioBlocked = Returned built
    ∧ ∀ i pw, builtPlaced built !! i = Some pw →
        i = 0%nat ∨ crossesEarlier (builtPlaced built) i pw.
Proof.
  apply (construct_words_connected (H := Latin1.tables) 2 scenarioBlocked).
  - vm_compute. lia.
  - vm_compute. lia.
Defined.

(** ** The form of the crossword *)

Lemma sliceTo_take {A} (n : Z) (arr : list A) :
  0 ≤ n → sliceTo n arr = take (Z.to_nat n) arr.
Proof. intros Hn. unfold sliceTo. by rewrite bool_decide_eq_false_2 by lia. Qed.

(** Where the difference of the counts is not the length of an array, the
    updater throws and gives no form. *)
Lemma handleWordCountChange_range_error newCount prev :
  4294967296 ≤ newCount - Z.of_nat (length (formWordEntries (formData prev))) →
  handleWordCountChange newCount prev = RangeError.
Proof.
  intros Hfar. unfold handleWordCountChange, arrayOfLength.
  rewrite bool_decide_eq_true_2 by lia. by rewrite bool_decide_eq_false_2 by lia.
Qed.

(** X13: the slider sets the number of entries: for a count of the slider, from
    0 to 20, the handler gives a form; the entries below the new count stay,
    in their order, and the places above the old count get blank entries; the
    other fields of the form stay. *)
Theorem handleWordCountChange_entries newCount prev :
  0 ≤ newCount ≤ 20 →
  ∃ next, handleWordCountChange newCount prev = NextForm next
    ∧ wordCount next = newCount
    ∧ Z.of_nat (length (formWordEntries (formData next))) = newCount
    ∧ (∀ i, Z.of_nat i < newCount → (i < length (formWordEntries (formData prev)))%nat →
         formWordEntries (formData next) !! i = formWordEntries (formData prev) !! i)
    ∧ (∀ i, Z.of_nat i < newCount → (length (formWordEntries (formData prev)) ≤ i)%nat →
         formWordEntries (formData next) !! i = Some blankEntry)
    ∧ formTopic (formData next) = formTopic (formData prev).
Proof.
  intros Hn. unfold handleWordCountChange, arrayOfLength.
  case_bool_decide as Hgrow.
  - rewrite bool_decide_eq_true_2 by lia. eexists. split; [done|].
    cbn [formData wordCount withEntries formWordEntries formTopic].
    split_and!; try done.
    + rewrite length_app, length_replicate. lia.
    + intros i _ Hi. by rewrite lookup_app_l.
    + intros i Hi Hold. rewrite lookup_app_r by done. apply lookup_replicate_2. lia.
  - eexists. split; [done|].
    cbn [formData wordCount withEntries formWordEntries formTopic].
    rewrite sliceTo_take by lia. split_and!; try done.
    + rewrite length_take. lia.
    + intros i Hi _. rewrite lookup_take_lt; [done|lia].
    + intros i Hi Hold. lia.
Qed.

Lemma handleWordCountChange_entries_witness :
  ∃ next,
    handleWordCountChange 4
      {| formData := mkForm (js "Animais") (js "Ciencias") (js "5") scenarioA;
         wordCount := 2 |} = NextForm next
    ∧ wordCount next = 4
    ∧ Z.of_nat (length (formWordEntries (formData next))) = 4
    ∧ (∀ i, Z.of_nat i < 4 → (i < length scenarioA)%nat →
         formWordEntries (formData next) !! i = scenarioA !! i)
    ∧ (∀ i, Z.of_nat i < 4 → (length scenarioA ≤ i)%nat →
         formWordEntries (formData next) !! i = Some blankEntry)
    ∧ formTopic (formData next) = js "Animais".
Proof.
  apply (handleWordCountChange_entries 4
           {| formData := mkForm (js "Animais") (js "Ciencias") (js "5") scenarioA;
              wordCount := 2 |}).
  lia.
Defined.

Lemma normalizeWords_blank `{Unicode} wordEntries k :
  normalizeWords (wordEntries ++ replicate k blankEntry) = normalizeWords wordEntries.
Proof.
  unfold normalizeWords. rewrite fmap_app, filter_app.
  assert (filter (λ item, keepItem item = true) (normalizeEntry <$> replicate k blankEntry) = [])
    as ->; [|by rewrite app_nil_r].
  induction k as [|k IH]; [done|]. simpl. by rewrite filter_cons_False.
Qed.

(** X14: the blank entries that the slider adds do not count: raising the
    number of entries to a count of the slider, at most 20, gives a form
    with the words of the puzzle, and with them the whole construction, as
    they were. *)
Theorem blank_entries_change_nothing `{Unicode} newCount prev fuel :
  Z.of_nat (length (formWordEntries (formData prev))) ≤ newCount ≤ 20 →
  ∃ next, handleWordCountChange newCount prev = NextForm next
    ∧ normalizeWords (formWordEntries (formData next))
      = normalizeWords (formWordEntries (formData prev))
    ∧ construct fuel (formWordEntries (formData next))
      = construct fuel (formWordEntries (formData prev)).
Proof.
  intros Hn.
  assert (∃ next, handleWordCountChange newCount prev = NextForm next
            ∧ normalizeWords (formWordEntries (formData next))
              = normalizeWords (formWordEntries (formData prev)))
    as (next & Hnext & Heq).
  { unfold handleWordCountChange, arrayOfLength. case_bool_decide.
    - rewrite bool_decide_eq_true_2 by lia. eexists. split; [done|].
      cbn [formData withEntries formWordEntries]. apply normalizeWords_blank.
    - eexists. split; [done|]. cbn [formData withEntries formWordEntries].
      rewrite sliceTo_take by lia. rewrite take_ge; [done|lia]. }
  exists next. split; [done|]. split; [done|]. unfold construct. by rewrite Heq.
Qed.

Lemma blank_entries_change_nothing_witness :
  ∃ next,
    handleWordCountChange 4
      {| formData := mkForm (js "Animais") (js "Ciencias") (js "5") scenarioA;
         wordCount := 2 |} = NextForm next
    ∧ normalizeWords (H := Latin1.tables) (formWordEntries (formData next))
      = normalizeWords (H := Latin1.tables) scenarioA
    ∧ construct (H := Latin1.tables) 1 (formWordEntries (formData next))
      = construct (H := Latin1.tables) 1 scenarioA.
Proof.
  apply (blank_entries_change_nothing (H := Latin1.tables) 4
           {| formData := mkForm (js "Animais") (js "Ciencias") (js "5") scenarioA;
              wordCount := 2 |} 1).
  simpl. lia.
Defined.

Lemma acceptGenerated_true e :
  acceptGenerated e = true ↔
  word e ≠ [] ∧ clue e ≠ [] ∧ (SPACE ∉ word e) ∧ (HYPHEN ∉ word e) ∧ (length (word e) ≤ 15)%nat.
Proof.
  unfold acceptGenerated. rewrite !andb_true_iff, !bool_decide_eq_true. tauto.
Qed.

Lemma countForAI_pos count : 1 ≤ countForAI count.
Proof. unfold countForAI. case_bool_decide; lia. Qed.

(** X15: what the form gets from the answer of the model.  When the handler
    leaves no message, the entries of the form are entries of the answer with
    the word normalized, in the order of the answer; each has a word and a
    clue that are not empty, no space and no hyphen in the word and at most
    15 code units; there are at most [countForAI] of them, and [wordCount] is
    their number.  When it leaves a message, the form is as it was. *)
Theorem handleAiGenerateCrossword_entries `{Unicode} reply st :
  match formError (handleAiGenerateCrossword reply st) with
  | None =>
      ∃ generated, reply = Some generated
        ∧ trim (formTopic (formData (wordForm st))) ≠ []
        ∧ formWordEntries (formData (wordForm (handleAiGenerateCrossword reply st)))
          `sublist_of` (λ e, {| word := normalizeString (word e); clue := clue e |}) <$> generated
        ∧ Forall (λ e, word e ≠ [] ∧ clue e ≠ [] ∧ (SPACE ∉ word e) ∧ (HYPHEN ∉ word e)
                       ∧ (length (word e) ≤ 15)%nat)
            (formWordEntries (formData (wordForm (handleAiGenerateCrossword reply st))))
        ∧ wordCount (wordForm (handleAiGenerateCrossword reply st))
          = Z.of_nat (length (formWordEntries
                                (formData (wordForm (handleAiGenerateCrossword reply st)))))
        ∧ wordCount (wordForm (handleAiGenerateCrossword reply st))
          ≤ countForAI (wordCount (wordForm st))
        ∧ isAiLoading (handleAiGenerateCrossword reply st) = false
  | Some _ => wordForm (handleAiGenerateCrossword reply st) = wordForm st
  end
  ∧ formTopic (formData (wordForm (handleAiGenerateCrossword reply st)))
    = formTopic (formData (wordForm st)).
Proof.
  unfold handleAiGenerateCrossword.
  case_bool_decide as Htopic; [done|].
  case_bool_decide as Hfields; [done|].
  destruct reply as [generated|]; [|done].
  cbn [formError wordForm formData withEntries formWordEntries wordCount isAiLoading formTopic].
  split; [|done]. exists generated.
  pose proof (countForAI_pos (wordCount (wordForm st))) as Hcount.
  unfold finalEntries. rewrite sliceTo_take by lia.
  split_and!; try done.
  - etrans; [apply sublist_take|apply sublist_filter].
  - apply Forall_forall. intros e He%subseteq_take.
    apply list_elem_of_filter in He as [He _]. by apply acceptGenerated_true.
  - rewrite length_take. lia.
Qed.

(** ** The saved crosswords *)

Lemma activeCrossword_Some st cw :
  activeCrossword st = Some cw →
  cw ∈ savedCrosswords st ∧ activeCrosswordId st = Some (id cw).
Proof.
  unfold activeCrossword. intros Hhead.
  assert (cw ∈ filter (λ c, Some (id c) = activeCrosswordId st) (savedCrosswords st)) as Hin.
  { destruct (filter _ _); [done|]. injection Hhead as ->. apply list_elem_of_here. }
  apply list_elem_of_filter in Hin as [Hid Hin]. done.
Qed.

Lemma activeCrossword_None st c :
  activeCrossword st = None → c ∈ savedCrosswords st → Some (id c) ≠ activeCrosswordId st.
Proof.
  unfold activeCrossword. intros Hhead Hc Hid.
  assert (c ∈ filter (λ c, Some (id c) = activeCrosswordId st) (savedCrosswords st)) as Hin
    by by apply list_elem_of_filter.
  destruct (filter _ _); [by apply elem_of_nil in Hin|done].
Qed.

Lemma head_filter_None {A} (P : A → Prop) `{!∀ x, Decision (P x)} (l : list A) :
  (∀ x, ¬ P x) → head (filter P l) = None.
Proof.
  intros Hnone. induction l as [|x l IH]; [done|]. by rewrite filter_cons_False.
Qed.

(** X16: deleting removes the crosswords with that id and no other, keeps the
    order of the rest, and leaves no stale reference: the active crossword is
    the one it was, or none if it was deleted. *)
Theorem handleDeleteCrossword_active id0 st :
  (∀ c, c ∈ savedCrosswords (appState (handleDeleteCrossword id0 st))
        ↔ c ∈ savedCrosswords (appState st) ∧ id c ≠ id0)
  ∧ savedCrosswords (appState (handleDeleteCrossword id0 st)) `sublist_of` savedCrosswords (appState st)
  ∧ activeCrossword (appState (handleDeleteCrossword id0 st))
    = (if bool_decide (activeCrosswordId (appState st) = Some id0) then None
       else activeCrossword (appState st)).
Proof.
  split_and!.
  - intros c. simpl. rewrite list_elem_of_filter. tauto.
  - apply sublist_filter.
  - unfold activeCrossword. simpl. case_bool_decide as Hactive.
    + by apply head_filter_None.
    + f_equal. apply list_filter_filter_l. intros c Hc Heq. apply Hactive.
      by rewrite <- Hc, Heq.
Qed.

Lemma withClues_self cw : withClues (cluesOfAcross cw, cluesOfDown cw) cw = cw.
Proof. by destruct cw. Qed.

Lemma NoDup_id_eq (l : list SavedCrossword) c c' :
  NoDup (id <$> l) → c ∈ l → c' ∈ l → id c = id c' → c = c'.
Proof.
  intros Hnd [i Hi]%list_elem_of_lookup [j Hj]%list_elem_of_lookup Hid.
  assert (i = j) as ->; [|congruence].
  apply (NoDup_lookup (id <$> l) i j (id c)); [done|..].
  - by rewrite list_lookup_fmap, Hi.
  - by rewrite list_lookup_fmap, Hj, Hid.
Qed.

(** X17: opening the clue editor and saving at once changes no saved crossword,
    when the ids of the saved crosswords are distinct. *)
Theorem edit_without_change st :
  NoDup (id <$> savedCrosswords (appState st)) →
  savedCrosswords (appState (handleSaveCrosswordEdit (handleStartEditCrossword st)))
  = savedCrosswords (appState st).
Proof.
  intros Hnd. unfold handleStartEditCrossword.
  destruct (activeCrossword (appState st)) as [cw|] eqn:Hactive.
  - apply activeCrossword_Some in Hactive as [Hcw Hid].
    unfold handleSaveCrosswordEdit. cbn [appState editedClues]. rewrite Hid.
    case_bool_decide; [done|]. cbn [appState savedCrosswords].
    rewrite <- (list_fmap_id (savedCrosswords (appState st))) at 2.
    apply list_fmap_ext. intros i c Hc%list_elem_of_lookup_2.
    case_bool_decide as Hsame; [|done].
    rewrite (NoDup_id_eq _ c cw Hnd Hc Hcw Hsame). apply withClues_self.
  - unfold handleSaveCrosswordEdit.
    destruct (activeCrosswordId (appState st)) as [active|] eqn:Hid; [|done].
    destruct (editedClues st) as [clues|]; [|done].
    case_bool_decide; [done|]. cbn [appState savedCrosswords].
    rewrite <- (list_fmap_id (savedCrosswords (appState st))) at 2.
    apply list_fmap_ext. intros i c Hc%list_elem_of_lookup_2.
    case_bool_decide as Hsame; [|done].
    exfalso. apply (activeCrossword_None _ c Hactive Hc). by rewrite Hid, Hsame.
Qed.

Lemma edit_without_change_witness :
  savedCrosswords (appState (handleSaveCrosswordEdit (handleStartEditCrossword editorOnOne)))
  = savedCrosswords (appState editorOnOne).
Proof.
  apply (edit_without_change editorOnOne).
  simpl. apply (bool_decide_unpack _). vm_compute. exact I.
Defined.

Lemma number_retext n text (l : list Clue) : number <$> (retext n text <$> l) = number <$> l.
Proof.
  rewrite <- list_fmap_compose. apply list_fmap_ext. intros i c _. simpl.
  unfold retext. by case_bool_decide.
Qed.

(** The saved crosswords after one clue was edited and saved. *)
Lemma clue_edit_saved st d n text active :
  NoDup (id <$> savedCrosswords (appState st)) →
  activeCrosswordId (appState st) = Some active → active ≠ 0 →
  savedCrosswords
    (appState (handleSaveCrosswordEdit (handleClueChange d n text (handleStartEditCrossword st))))
  = (λ c, if bool_decide (id c = active)
          then withClues match d with
                         | across => (retext n text <$> cluesOfAcross c, cluesOfDown c)
                         | down => (cluesOfAcross c, retext n text <$> cluesOfDown c)
                         end c
          else c) <$> savedCrosswords (appState st).
Proof.
  intros Hnd Hid Hactive0. unfold handleStartEditCrossword.
  destruct (activeCrossword (appState st)) as [cw|] eqn:Hactive.
  - apply activeCrossword_Some in Hactive as [Hcw Hid'].
    unfold handleSaveCrosswordEdit, handleClueChange. cbn [appState editedClues]. rewrite Hid.
    rewrite bool_decide_eq_false_2 by done. cbn [appState savedCrosswords].
    apply list_fmap_ext. intros i c Hc%list_elem_of_lookup_2.
    case_bool_decide as Hsame; [|done].
    assert (c = cw) as ->; [|by destruct d].
    apply (NoDup_id_eq _ c cw Hnd Hc Hcw). congruence.
  - assert (∀ c, c ∈ savedCrosswords (appState st) → id c ≠ active) as Hnone.
    { intros c Hc Hsame. apply (activeCrossword_None _ c Hactive Hc). by rewrite Hid, Hsame. }
    assert (savedCrosswords (appState st)
            = (λ c, if bool_decide (id c = active)
                    then withClues match d with
                                   | across => (retext n text <$> cluesOfAcross c, cluesOfDown c)
                                   | down => (cluesOfAcross c, retext n text <$> cluesOfDown c)
                                   end c
                    else c) <$> savedCrosswords (appState st)) as Hsame.
    { rewrite <- (list_fmap_id (savedCrosswords (appState st))) at 1.
      apply list_fmap_ext. intros i c Hc%list_elem_of_lookup_2.
      by rewrite bool_decide_eq_false_2 by by apply Hnone. }
    rewrite <- Hsame.
    unfold handleSaveCrosswordEdit, handleClueChange. cbn [appState editedClues]. rewrite Hid.
    destruct (editedClues st) as [[a dn]|]; [|done].
    rewrite bool_decide_eq_false_2 by done. cbn [appState savedCrosswords].
    rewrite <- (list_fmap_id (savedCrosswords (appState st))) at 2.
    apply list_fmap_ext. intros i c Hc%list_elem_of_lookup_2.
    by rewrite bool_decide_eq_false_2 by by apply Hnone.
Qed.

(** X18: editing one clue and saving: with distinct ids, the saved crosswords other
    than the active one are untouched; in the active one the id, the grid,
    the words and the clues of the other direction stay, and the clues of the
    edited direction keep their numbers and their order, those with the
    edited number getting the new text. *)
Theorem clue_edit_saves_text st d n text active :
  NoDup (id <$> savedCrosswords (appState st)) →
  activeCrosswordId (appState st) = Some active → active ≠ 0 →
  ∀ i c, savedCrosswords (appState st) !! i = Some c →
    ∃ c', savedCrosswords
            (appState (handleSaveCrosswordEdit
                    (handleClueChange d n text (handleStartEditCrossword st)))) !! i = Some c'
      ∧ (id c ≠ active → c' = c)
      ∧ id c' = id c ∧ grid c' = grid c ∧ wordEntries c' = wordEntries c
      ∧ cluesAlong (match d with across => down | down => across end) c'
        = cluesAlong (match d with across => down | down => across end) c
      ∧ number <$> cluesAlong d c' = number <$> cluesAlong d c
      ∧ (id c = active → cluesAlong d c' = retext n text <$> cluesAlong d c).
Proof.
  intros Hnd Hid Hactive0 i c Hc.
  rewrite (clue_edit_saved st d n text active Hnd Hid Hactive0).
  rewrite list_lookup_fmap, Hc. simpl. eexists. split; [done|].
  case_bool_decide as Hsame.
  - split; [done|]. destruct d; simpl; split_and!; try done; apply number_retext.
  - split_and!; try done.
Qed.

Lemma clue_edit_saves_text_witness :
  activeCrosswordId (appState editorOnOne) = Some 1700000000001
  ∧ ∀ i c, savedCrosswords (appState editorOnOne) !! i = Some c →
    ∃ c', savedCrosswords
            (appState (handleSaveCrosswordEdit
                    (handleClueChange down 2 (js "Moradia")
                       (handleStartEditCrossword editorOnOne)))) !! i = Some c'
      ∧ (id c ≠ 1700000000001 → c' = c)
      ∧ id c' = id c ∧ grid c' = grid c ∧ wordEntries c' = wordEntries c
      ∧ cluesAlong (match down with across => down | down => across end) c'
        = cluesAlong (match down with across => down | down => across end) c
      ∧ number <$> cluesAlong down c' = number <$> cluesAlong down c
      ∧ (id c = 1700000000001 →
         cluesAlong down c' = retext 2 (js "Moradia") <$> cluesAlong down c).
Proof.
  split; [reflexivity|].
  apply (clue_edit_saves_text editorOnOne down 2 (js "Moradia") 1700000000001).
  - simpl. apply (bool_decide_unpack _). vm_compute. exact I.
  - reflexivity.
  - lia.
Defined.

Lemma handleGeneratePuzzle_saved `{Unicode} now st :
  savedCrosswords (handleGeneratePuzzle now st) = savedCrosswords st
  ∨ ∃ saved, savedCrosswords (handleGeneratePuzzle now st) = saved :: savedCrosswords st
             ∧ id saved = now.
Proof.
  unfold handleGeneratePuzzle.
  destruct (construct _ _) as [built|e|]; [right|left..]; try done.
  eexists. by split.
Qed.

Lemma handleGeneratePuzzle_active `{Unicode} now st :
  (2 ≤ length (normalizeWords (formWordEntries (crosswordFormData st))))%nat →
  activeCrosswordId (handleGeneratePuzzle now st) = Some now.
Proof.
  intros Hlen.
  destruct (construct_run
    (length (normalizeWords (formWordEntries (crosswordFormData st)))
     * length (normalizeWords (formWordEntries (crosswordFormData st))))%nat
    (formWordEntries (crosswordFormData st)) Hlen) as (pending & env & Hrun & _); [nia|].
  unfold handleGeneratePuzzle. by rewrite Hrun.
Qed.

(** X19: the ids of the saved crosswords stay pairwise distinct: under
    [handleGeneratePuzzle] when the time stamp is not the id of a saved
    crossword, under [handleDeleteCrossword] and under
    [handleSaveCrosswordEdit]. *)
Theorem distinct_ids_preserved `{Unicode} now id0 st :
  NoDup (id <$> savedCrosswords (appState st)) →
  now ∉ id <$> savedCrosswords (appState st) →
  NoDup (id <$> savedCrosswords (appState (generateInEditor now st)))
  ∧ NoDup (id <$> savedCrosswords (appState (handleDeleteCrossword id0 st)))
  ∧ NoDup (id <$> savedCrosswords (appState (handleSaveCrosswordEdit st))).
Proof.
  intros Hnd Hfresh. split_and!.
  - cbn [generateInEditor appState].
    destruct (handleGeneratePuzzle_saved now (appState st)) as [->|(saved & -> & Hid)];
      [done|].
    rewrite fmap_cons, Hid. by apply NoDup_cons.
  - cbn [handleDeleteCrossword appState savedCrosswords].
    eapply sublist_NoDup; [exact Hnd|apply fmap_sublist, sublist_filter].
  - assert (∀ f : SavedCrossword → SavedCrossword, (∀ c, id (f c) = id c) →
              id <$> (f <$> savedCrosswords (appState st))
              = id <$> savedCrosswords (appState st)) as Hmap.
    { intros f Hf. rewrite <- list_fmap_compose. apply list_fmap_ext. intros i c _. apply Hf. }
    unfold handleSaveCrosswordEdit.
    destruct (activeCrosswordId (appState st)) as [active|]; [|done].
    destruct (editedClues st) as [clues|]; [|done].
    case_bool_decide; [done|]. cbn [appState savedCrosswords].
    rewrite Hmap; [done|]. intros c. by case_bool_decide.
Qed.

Lemma distinct_ids_preserved_witness :
  NoDup (id <$> savedCrosswords
                  (appState (generateInEditor (H := Latin1.tables) 1700000000003 editorOnOne)))
  ∧ NoDup (id <$> savedCrosswords (appState (handleDeleteCrossword 1700000000002 editorOnOne)))
  ∧ NoDup (id <$> savedCrosswords (appState (handleSaveCrosswordEdit editorOnOne))).
Proof.
  apply (distinct_ids_preserved (H := Latin1.tables) 1700000000003 1700000000002 editorOnOne).
  - simpl. apply (bool_decide_unpack _). vm_compute. exact I.
  - simpl. apply (bool_decide_unpack _). vm_compute. exact I.
Defined.

(** X20: deleting the crossword that was just generated gives back the list of
    saved crosswords as it was before the generation, when the time stamp is
    not the id of a saved crossword; and no crossword is active then, unless
    nothing was generated. *)
Theorem generate_then_delete `{Unicode} now st :
  now ∉ id <$> savedCrosswords (appState st) →
  savedCrosswords (appState (handleDeleteCrossword now (generateInEditor now st)))
  = savedCrosswords (appState st)
  ∧ ((2 ≤ length (normalizeWords (formWordEntries (crosswordFormData (appState st)))))%nat →
     activeCrosswordId (appState (handleDeleteCrossword now (generateInEditor now st))) = None).
Proof.
  intros Hfresh.
  assert (filter (λ c, id c ≠ now) (savedCrosswords (appState st))
          = savedCrosswords (appState st)) as Hkeep.
  { induction (savedCrosswords (appState st)) as [|c l IH]; [done|].
    rewrite fmap_cons in Hfresh. apply not_elem_of_cons in Hfresh as [Hc Hl].
    rewrite filter_cons_True by done. f_equal. by apply IH. }
  split.
  - cbn [handleDeleteCrossword generateInEditor appState savedCrosswords].
    destruct (handleGeneratePuzzle_saved now (appState st)) as [->|(saved & -> & Hid)];
      [done|].
    by rewrite filter_cons_False by (by intros []).
  - intros Hlen.
    cbn [handleDeleteCrossword generateInEditor appState activeCrosswordId].
    rewrite (handleGeneratePuzzle_active now (appState st) Hlen).
    by rewrite bool_decide_eq_true_2.
Qed.

Lemma generate_then_delete_witness :
  savedCrosswords
    (appState (handleDeleteCrossword 1700000000003
                 (generateInEditor (H := Latin1.tables) 1700000000003 editorOnOne)))
  = savedCrosswords (appState editorOnOne)
  ∧ ((2 ≤ length (normalizeWords (H := Latin1.tables)
                    (formWordEntries (crosswordFormData (appState editorOnOne)))))%nat →
     activeCrosswordId
       (appState (handleDeleteCrossword 1700000000003
                    (generateInEditor (H := Latin1.tables) 1700000000003 editorOnOne)))
     = None).
Proof.
  apply (generate_then_delete (H := Latin1.tables) 1700000000003 editorOnOne).
  simpl. apply (bool_decide_unpack _). vm_compute. exact I.
Defined.

(** ** The whole handler *)

(** X12: [handleGeneratePuzzle] has two outcomes.  With fewer than two words it
    saves nothing and asks for two words.  Otherwise it saves a crossword
    under the id [now], in front of the others, and makes it the active one;
    the words of that crossword together with the words of the message are
    the normalized words, each once, and there is no message exactly when
    every word was placed.  The runtime error message is never shown. *)
Theorem handleGeneratePuzzle_outcomes `{Unicode} now st :
  isLoading (handleGeneratePuzzle now st) = false
  ∧ crosswordFormData (handleGeneratePuzzle now st) = crosswordFormData st
  ∧ generationError (handleGeneratePuzzle now st) ≠ Some RuntimeMessage
  ∧ (((length (normalizeWords (formWordEntries (crosswordFormData st))) < 2)%nat
      ∧ generationError (handleGeneratePuzzle now st) = Some NeedTwoWords
      ∧ savedCrosswords (handleGeneratePuzzle now st) = savedCrosswords st)
     ∨ ∃ saved pending,
         savedCrosswords (handleGeneratePuzzle now st) = saved :: savedCrosswords st
         ∧ id saved = now
         ∧ activeCrossword (handleGeneratePuzzle now st) = Some saved
         ∧ mobileView (handleGeneratePuzzle now st) = viewer
         ∧ wordEntries saved ++ pending
           ≡ₚ normalizeWords (formWordEntries (crosswordFormData st))
         ∧ generationError (handleGeneratePuzzle now st)
           = match pending with
             | [] => None
             | _ => Some (CouldNotFit (word <$> pending))
             end).
Proof.
  destruct (decide (length (normalizeWords (formWordEntries (crosswordFormData st))) < 2)%nat)
    as [Hfew|Hmany].
  - assert (∀ f, construct f (formWordEntries (crosswordFormData st))
                 = Thrown (Error NeedTwoWords)) as Hthrow.
    { intros f. unfold construct. by rewrite bool_decide_eq_true_2 by lia. }
    unfold handleGeneratePuzzle. rewrite Hthrow. simpl. split_and!; try done. by left.
  - destruct (construct_finished
      (length (normalizeWords (formWordEntries (crosswordFormData st)))
       * length (normalizeWords (formWordEntries (crosswordFormData st))))%nat
      (formWordEntries (crosswordFormData st)))
      as (firstWord & pending & env & Hrun & Hfin); [lia|nia|].
    unfold handleGeneratePuzzle. rewrite Hrun.
    cbn [isLoading crosswordFormData generationError savedCrosswords mobileView
         builtPlaced builtGrid builtAcross builtDown unplaced].
    split_and!; try done; [by destruct pending|].
    right. eexists _, pending. split_and!; try done.
    + unfold activeCrossword.
      cbn [savedCrosswords activeCrosswordId]. by rewrite filter_cons_True.
    + cbn [wordEntries]. apply (led_words _ _ _ (fin_ledger _ _ _ _ Hfin)).
    + by destruct pending.
Qed.

(** ** What the viewer shows *)

Module RenderFacts.
Import Viewer Render.

(** X21: after Reveal the grid shows no verdict; after Reveal and Check every
    cell of the grid is shown as correct and none as incorrect. *)
Theorem reveal_then_check_all_correct (g : PuzzleGrid) st r c cell :
  cellAt (Some g) r c = Some cell →
  isCorrect cell r c (handleCheck (handleReveal (Some g) st)) = true
  ∧ isIncorrect cell r c (handleCheck (handleReveal (Some g) st)) = false
  ∧ isCorrect cell r c (handleReveal (Some g) st) = false
  ∧ isIncorrect cell r c (handleReveal (Some g) st) = false.
Proof.
  intros Hcell. apply ViewerFacts.solutionOf_cell in Hcell.
  unfold isCorrect, isIncorrect. cbn [handleCheck handleReveal userInput isChecking andb].
  rewrite Hcell. split_and!; try done.
  - by rewrite bool_decide_eq_true_2.
  - rewrite (bool_decide_eq_false_2 (letter cell ≠ letter cell)) by (by intros ?).
    by rewrite andb_false_r.
Qed.

Lemma reveal_then_check_all_correct_witness :
  isCorrect {| letter := js "A"; clueNumber := Some 1; cellAcross := Some 1; cellDown := None |}
    0 1 (handleCheck (handleReveal (Some tinyGrid) initialState)) = true
  ∧ isIncorrect {| letter := js "A"; clueNumber := Some 1; cellAcross := Some 1; cellDown := None |}
      0 1 (handleCheck (handleReveal (Some tinyGrid) initialState)) = false
  ∧ isCorrect {| letter := js "A"; clueNumber := Some 1; cellAcross := Some 1; cellDown := None |}
      0 1 (handleReveal (Some tinyGrid) initialState) = false
  ∧ isIncorrect {| letter := js "A"; clueNumber := Some 1; cellAcross := Some 1; cellDown := None |}
      0 1 (handleReveal (Some tinyGrid) initialState) = false.
Proof.
  apply (reveal_then_check_all_correct tinyGrid initialState 0 1).
  reflexivity.
Defined.

(** X22: a letter typed into a cell and then checked: the cell is shown as
    correct exactly when the normalized input is the letter of the cell, as
    incorrect exactly when the input is not empty and differs from it; the
    verdict on every other cell is the one that the input before gives. *)
Theorem typed_letter_is_judged `{Unicode} grid text r c st cell :
  isChecking st = false → 0 ≤ r →
  isCorrect cell r c (handleCheck (inputTransition grid text r c st))
  = bool_decide (normalizeString text = letter cell)
  ∧ isIncorrect cell r c (handleCheck (inputTransition grid text r c st))
    = bool_decide (normalizeString text ≠ [] ∧ normalizeString text ≠ letter cell)
  ∧ ∀ r' c' cell', 0 ≤ r' → (r', c') ≠ (r, c) →
      isCorrect cell' r' c' (handleCheck (inputTransition grid text r c st))
      = isCorrect cell' r' c' (handleCheck st)
      ∧ isIncorrect cell' r' c' (handleCheck (inputTransition grid text r c st))
        = isIncorrect cell' r' c' (handleCheck st).
Proof.
  intros Hchk Hr. unfold inputTransition. rewrite Hchk.
  unfold isCorrect, isIncorrect.
  cbn [handleCheck handleInputChange fst userInput isChecking andb].
  split_and!.
  - rewrite lookup_insert_eq. apply bool_decide_ext. split; congruence.
  - rewrite lookup_insert_eq.
    destruct (decide (normalizeString text = [])) as [Hempty|Hfull];
      destruct (decide (normalizeString text = letter cell)) as [Hsame|Hother];
      repeat case_bool_decide; try done; tauto.
  - intros r' c' cell' Hr' Hne.
    rewrite lookup_insert_ne; [done|].
    intros Hkey. apply cellKey_inj in Hkey as [-> ->]; done.
Qed.

Lemma typed_letter_is_judged_witness :
  let st := {| userInput := ∅; selectedCell := None; isChecking := false |} in
  let cell := {| letter := js "A"; clueNumber := Some 1;
                 cellAcross := Some 1; cellDown := None |} in
  isCorrect cell 0 1
    (handleCheck (inputTransition (H := Latin1.tables) (Some tinyGrid) (js "a") 0 1 st))
  = bool_decide (normalizeString (H := Latin1.tables) (js "a") = letter cell)
  ∧ isIncorrect cell 0 1
      (handleCheck (inputTransition (H := Latin1.tables) (Some tinyGrid) (js "a") 0 1 st))
    = bool_decide (normalizeString (H := Latin1.tables) (js "a") ≠ []
                   ∧ normalizeString (H := Latin1.tables) (js "a") ≠ letter cell)
  ∧ ∀ r' c' cell', 0 ≤ r' → (r', c') ≠ (0, 1) →
      isCorrect cell' r' c'
        (handleCheck (inputTransition (H := Latin1.tables) (Some tinyGrid) (js "a") 0 1 st))
      = isCorrect cell' r' c' (handleCheck st)
      ∧ isIncorrect cell' r' c'
          (handleCheck (inputTransition (H := Latin1.tables) (Some tinyGrid) (js "a") 0 1 st))
        = isIncorrect cell' r' c' (handleCheck st).
Proof.
  apply (typed_letter_is_judged (H := Latin1.tables) (Some tinyGrid) (js "a") 0 1
           {| userInput := ∅; selectedCell := None; isChecking := false |}
           {| letter := js "A"; clueNumber := Some 1; cellAcross := Some 1; cellDown := None |}).
  - reflexivity.
  - lia.
Defined.

(** X23: a click on a filled cell leaves the input and the checking mode as they
    are and selects that cell; on a cell that was not selected the direction
    is across if the cell is part of an across word, down otherwise; and
    from the first click on, further clicks on the cell alternate between
    two selections at most: the third click gives the state of the first. *)
Theorem click_selects_cell grid r c st cell :
  cellAt grid r c = Some cell →
  userInput (handleCellClick grid r c st) = userInput st
  ∧ isChecking (handleCellClick grid r c st) = isChecking st
  ∧ isSelected r c (handleCellClick grid r c st) = true
  ∧ (isSelected r c st = false →
     selDirection <$> selectedCell (handleCellClick grid r c st)
     = Some (if truthy (cellAcross cell) then across else down))
  ∧ handleCellClick grid r c (handleCellClick grid r c (handleCellClick grid r c st))
    = handleCellClick grid r c st.
Proof.
  intros Hcell.
  assert (bool_decide (r = r ∧ c = c) = true) as Hrc by by apply bool_decide_eq_true_2.
  unfold handleCellClick, isSelected. rewrite Hcell.
  destruct st as [input [[sr sc sd]|] chk]; cbn [selectedCell selRow selCol selDirection].
  - destruct (bool_decide (sr = r ∧ sc = c)) eqn:Hsel.
    + apply bool_decide_eq_true in Hsel as [-> ->].
      destruct sd, (truthy (cellAcross cell)) eqn:Ha, (truthy (cellDown cell)) eqn:Hd;
        cbn [select selectedCell selRow selCol selDirection userInput isChecking];
        rewrite ?Hrc, ?Ha, ?Hd; cbn [select selectedCell selRow selCol selDirection];
        rewrite ?Hrc, ?Ha, ?Hd; by split_and!.
    + destruct (truthy (cellAcross cell)) eqn:Ha, (truthy (cellDown cell)) eqn:Hd;
        cbn [select selectedCell selRow selCol selDirection userInput isChecking fmap option_fmap option_map];
        rewrite ?Hrc, ?Ha, ?Hd; cbn [select selectedCell selRow selCol selDirection];
        rewrite ?Hrc, ?Ha, ?Hd; by split_and!.
  - destruct (truthy (cellAcross cell)) eqn:Ha, (truthy (cellDown cell)) eqn:Hd;
      cbn [select selectedCell selRow selCol selDirection userInput isChecking fmap option_fmap option_map];
      rewrite ?Hrc, ?Ha, ?Hd; cbn [select selectedCell selRow selCol selDirection];
      rewrite ?Hrc, ?Ha, ?Hd; by split_and!.
Qed.

Lemma click_selects_cell_witness :
  let cell := {| letter := js "A"; clueNumber := Some 1;
                 cellAcross := Some 1; cellDown := None |} in
  userInput (handleCellClick (Some tinyGrid) 0 1 initialState) = userInput initialState
  ∧ isChecking (handleCellClick (Some tinyGrid) 0 1 initialState) = isChecking initialState
  ∧ isSelected 0 1 (handleCellClick (Some tinyGrid) 0 1 initialState) = true
  ∧ (isSelected 0 1 initialState = false →
     selDirection <$> selectedCell (handleCellClick (Some tinyGrid) 0 1 initialState)
     = Some (if truthy (cellAcross cell) then across else down))
  ∧ handleCellClick (Some tinyGrid) 0 1
      (handleCellClick (Some tinyGrid) 0 1 (handleCellClick (Some tinyGrid) 0 1 initialState))
    = handleCellClick (Some tinyGrid) 0 1 initialState.
Proof.
  apply (click_selects_cell (Some tinyGrid) 0 1 initialState
           {| letter := js "A"; clueNumber := Some 1; cellAcross := Some 1; cellDown := None |}).
  reflexivity.
Defined.

Lemma cellAt_cellOf (g : PuzzleGrid) r c cell :
  cellAt (Some g) r c = Some cell → cellOf g r c = Returned (Some cell).
Proof.
  unfold cellAt, cellOf. destruct (index g r) as [cells|]; [|done].
  by destruct (index cells c) as [[cell'|]|]; intros [= ->].
Qed.

(** X24: after a click on a cell that is part of a word, the selection has a
    direction in which the cell has a word: there is an active clue number,
    it is not 0, and the clicked cell belongs to the highlighted word. *)
Theorem click_highlights_word grid r c st cell :
  cellAt grid r c = Some cell →
  truthy (cellAcross cell) = true ∨ truthy (cellDown cell) = true →
  ∃ n, activeClueNumber grid (handleCellClick grid r c st) = Returned (Some n) ∧ n ≠ 0
    ∧ isCellInActiveWord grid (Some n) r c (handleCellClick grid r c st) = Returned true.
Proof.
  intros Hcell Hword.
  destruct grid as [g|]; [|done].
  pose proof (cellAt_cellOf g r c cell Hcell) as Hof.
  assert (∀ d, truthy (along d cell) = true →
            selectedCell (handleCellClick (Some g) r c st)
            = Some {| selRow := r; selCol := c; selDirection := d |} →
            ∃ n, activeClueNumber (Some g) (handleCellClick (Some g) r c st) = Returned (Some n)
              ∧ n ≠ 0
              ∧ isCellInActiveWord (Some g) (Some n) r c (handleCellClick (Some g) r c st)
                = Returned true) as Hgoal.
  { intros d Hd Hsel. unfold activeClueNumber, isCellInActiveWord. rewrite Hsel.
    cbn [selRow selCol selDirection]. rewrite Hof.
    destruct (along d cell) as [n|] eqn:Hn; [|done].
    exists n. split; [done|]. split; [by apply bool_decide_eq_true in Hd|].
    rewrite Hd. by rewrite bool_decide_eq_true_2. }
  assert (bool_decide (r = r ∧ c = c) = true) as Hrc by by apply bool_decide_eq_true_2.
  destruct (truthy (cellAcross cell)) eqn:Ha, (truthy (cellDown cell)) eqn:Hd;
    try (by destruct Hword).
  all: destruct st as [input [[sr sc sd]|] chk].
  all: try destruct (bool_decide (sr = r ∧ sc = c)) eqn:Hsel.
  all: try (apply bool_decide_eq_true in Hsel as [-> ->]).
  all: try destruct sd.
  all: first
    [ apply (Hgoal across); [exact Ha|];
      unfold handleCellClick; rewrite Hcell; cbn [selectedCell selRow selCol selDirection];
      rewrite ?Hrc, ?Hsel, ?Ha, ?Hd; reflexivity
    | apply (Hgoal down); [exact Hd|];
      unfold handleCellClick; rewrite Hcell; cbn [selectedCell selRow selCol selDirection];
      rewrite ?Hrc, ?Hsel, ?Ha, ?Hd; reflexivity ].
Qed.

Lemma click_highlights_word_witness :
  ∃ n, activeClueNumber (Some tinyGrid) (handleCellClick (Some tinyGrid) 0 1 initialState)
       = Returned (Some n) ∧ n ≠ 0
    ∧ isCellInActiveWord (Some tinyGrid) (Some n) 0 1
        (handleCellClick (Some tinyGrid) 0 1 initialState) = Returned true.
Proof.
  apply (click_highlights_word (Some tinyGrid) 0 1 initialState
           {| letter := js "A"; clueNumber := Some 1; cellAcross := Some 1; cellDown := None |}).
  - reflexivity.
  - left. reflexivity.
Defined.

(** X25: on a grid of 30 rows, typing into a cell of the grid never fails.  The
    focus moves only after an input that is not empty, with a cell selected,
    to the next cell along the selected direction, and only if that cell is
    filled and its index along the direction is below 30. *)
Theorem focusTarget_next_cell (g : PuzzleGrid) value r c st :
  length g = 30%nat → 0 ≤ r < GRID_SIZE →
  ∃ target, focusTarget (Some g) value r c st = Returned target
    ∧ ∀ p, target = Some p →
        value ≠ []
        ∧ ∃ sel, selectedCell st = Some sel
            ∧ p = cellPos (selDirection sel) r c 1
            ∧ match selDirection sel with across => p.2 | down => p.1 end < GRID_SIZE
            ∧ is_Some (cellAt (Some g) p.1 p.2).
Proof.
  intros Hrows Hr. unfold focusTarget.
  destruct value as [|u value]; [by eexists|].
  destruct (selectedCell st) as [sel|]; [|by eexists].
  assert (∀ r', 0 ≤ r' < GRID_SIZE → ∃ cells, index g r' = Some cells) as Hrow.
  { intros r' Hr'. unfold index. rewrite bool_decide_eq_true_2 by lia.
    apply lookup_lt_is_Some_2. unfold GRID_SIZE in *. lia. }
  assert (∀ r' c', 0 ≤ r' < GRID_SIZE →
            cellOf g r' c' = Returned (cellAt (Some g) r' c')) as Hcell.
  { intros r' c' Hr'. unfold cellOf, cellAt. by destruct (Hrow r' Hr') as [cells ->]. }
  destruct (selDirection sel) eqn:Hd; case_bool_decide as Hnext; try by eexists.
  - rewrite Hcell by done.
    destruct (cellAt (Some g) r (c + 1)) as [cell|] eqn:Hat; [|by eexists].
    eexists. split; [done|]. intros p [= <-]. split; [done|].
    exists sel. rewrite Hd. cbn [cellPos fst snd]. by rewrite Hat.
  - rewrite Hcell by lia.
    destruct (cellAt (Some g) (r + 1) c) as [cell|] eqn:Hat; [|by eexists].
    eexists. split; [done|]. intros p [= <-]. split; [done|].
    exists sel. rewrite Hd. cbn [cellPos fst snd]. by rewrite Hat.
Qed.

Lemma focusTarget_next_cell_witness :
  ∃ target,
    focusTarget (Some thirtyRows) (js "A") 0 1
      {| userInput := ∅; selectedCell := Some (mkSelection 0 1 across); isChecking := false |}
    = Returned target
    ∧ ∀ p, target = Some p →
        js "A" ≠ []
        ∧ ∃ sel, selectedCell {| userInput := ∅; selectedCell := Some (mkSelection 0 1 across);
                                 isChecking := false |} = Some sel
            ∧ p = cellPos (selDirection sel) 0 1 1
            ∧ match selDirection sel with across => p.2 | down => p.1 end < GRID_SIZE
            ∧ is_Some (cellAt (Some thirtyRows) p.1 p.2).
Proof.
  apply (focusTarget_next_cell thirtyRows (js "A") 0 1
           {| userInput := ∅; selectedCell := Some (mkSelection 0 1 across);
              isChecking := false |}).
  - reflexivity.
  - unfold GRID_SIZE. lia.
Defined.

End RenderFacts.
